(** * aerojump: the fuzzy line matcher and its cursor, embedded from
    [rplugin/python3/aerojump.py].

    The two classes of the matching core are embedded:
    - [AerojumpLine] (one buffer line, its matches and their scores) inside
      [Module Line];
    - [Aerojump] (the line collection, the filtered lines, the cursor indices
      and the highlights) inside [Module Engine].

    Conventions of the embedding.
    - Python integers are [Z]; a list subscript follows Python (a negative
      subscript counts from the end, anything out of range raises
      [IndexError]).
    - A Python exception is the [Raise] branch of [result]; the object left
      behind by a method that raised is not computed ([reachable] bounds
      what a navigation command can leave behind).
    - An attribute that [__init__] does not assign ([scores], [filt_index],
      [filtered_lines], [highlights]) is an [option]; reading it while it is
      [None] raises [AttributeError].
    - A string is the list of its Unicode code points.  [str.lower()] is a
      built-in whose case tables come with the interpreter: it is the
      method [lower] of the class [Lowercase], and every statement holds
      for each map with the three properties listed there.  A lowercase
      string can be longer than the string (U+0130 becomes two code
      points), so [raw] and [raw_lower] are kept apart as in the source.
    - [score/pat_len] is a Python float; it is embedded as the exact
      rational, whose order and equality agree with the float quotient of
      two integers [0 < score <= pat_len] for every pattern shorter than
      2^52 characters. *)

From Stdlib Require Import Ascii String.
From Stdlib Require Import List NArith ZArith QArith Bool Lia Sorted.
Import ListNotations.

#[local] Open Scope Z_scope.

(** ** Python exceptions and the error monad *)

Inductive exn : Type :=
| IndexError
| AttributeError
| ZeroDivisionError.

Inductive result (A : Type) : Type :=
| Ok (a : A)
| Raise (e : exn).

Arguments Ok {A} a.
Arguments Raise {A} e.

Definition bind {A B : Type} (m : result A) (k : A -> result B) : result B :=
  match m with
  | Ok a => k a
  | Raise e => Raise e
  end.

Declare Scope py_scope.
Delimit Scope py_scope with py.
Notation "x <- m ;; k" := (bind m (fun x => k))
  (at level 61, m at next level, right associativity) : py_scope.
Notation "' pat <- m ;; k" := (bind m (fun x => match x with pat => k end))
  (at level 61, pat pattern, m at next level, right associativity) : py_scope.
#[local] Open Scope py_scope.

(** A [for] loop whose body may raise: the accumulator is the loop's state. *)
Fixpoint for_each {A S : Type} (xs : list A) (body : S -> A -> result S) (s : S)
  : result S :=
  match xs with
  | [] => Ok s
  | x :: xs' => s' <- body s x ;; for_each xs' body s'
  end.

(** Reading an attribute that may not have been assigned yet. *)
Definition attr {A : Type} (o : option A) : result A :=
  match o with
  | Some a => Ok a
  | None => Raise AttributeError
  end.

(** ** Python sequences *)

Definition len {A : Type} (l : list A) : Z := Z.of_nat (length l).

(** [l[i]] *)
Definition py_get {A : Type} (l : list A) (i : Z) : result A :=
  let j := if i <? 0 then i + len l else i in
  if (0 <=? j) && (j <? len l) then
    match nth_error l (Z.to_nat j) with
    | Some a => Ok a
    | None => Raise IndexError
    end
  else Raise IndexError.

(** [range(lo, hi)] *)
Definition range (lo hi : Z) : list Z :=
  map (fun k => lo + Z.of_nat k) (seq 0 (Z.to_nat (hi - lo))).

(** [a / b] on integers (true division) *)
Definition py_div (a b : Z) : result Q :=
  if b =? 0 then Raise ZeroDivisionError else Ok (a # Z.to_pos b).

(** [x > y] on scores *)
Definition Qgtb (x y : Q) : bool := negb (Qle_bool x y).

(** ** Python strings *)

(** A character is a Unicode code point. *)
Definition char : Type := N.

Definition str : Type := list char.

(** An ASCII capital letter. *)
Definition is_upper (c : char) : Prop := (65 <= c <= 90)%N.

(** An ASCII character. *)
Definition is_ascii (c : char) : Prop := (c < 128)%N.

(** The lowercase of an ASCII character. *)
Definition lower_ascii (c : char) : char :=
  if (65 <=? c)%N && (c <=? 90)%N then (c + 32)%N else c.

(** [s.lower()].  The case mapping is the interpreter's, not the plugin's;
    three properties of it are used.  A lowercase string is never shorter
    than the string: each code point is replaced by one or more code
    points (by two for U+0130, capital I with a dot above).  A lowercase
    string holds no ASCII capital.  ASCII text is lowercased character by
    character. *)
Class Lowercase : Type := {
  lower : str -> str;
  lower_length : forall t : str, (length t <= length (lower t))%nat;
  lower_no_upper : forall t : str, Forall (fun c => ~ is_upper c) (lower t);
  lower_ascii_text :
    forall t : str, Forall is_ascii t -> lower t = map lower_ascii t
}.

(** [x in xs] for lists of integer lists *)
Definition list_Z_eqb (a b : list Z) : bool :=
  if list_eq_dec Z.eq_dec a b then true else false.

Definition py_in (x : list Z) (xs : list (list Z)) : bool :=
  existsb (list_Z_eqb x) xs.

(** ** class AerojumpLine *)

Module Line.

Record AerojumpLine : Type := mkLine {
  raw : str;
  raw_lower : str;
  num : Z;
  matches : list (list Z);
  scores : option (list Q);
  filt_index : option Z
}.

(** [AerojumpLine.__init__] *)
Definition init {L : Lowercase} (line : str) (n : Z) : AerojumpLine :=
  {| raw := line;
     raw_lower := lower line;
     num := n;
     matches := [];
     scores := None;
     filt_index := None |}.

Definition set_matches (self : AerojumpLine) (ms : list (list Z)) : AerojumpLine :=
  {| raw := raw self; raw_lower := raw_lower self; num := num self;
     matches := ms; scores := scores self; filt_index := filt_index self |}.

Definition set_scores (self : AerojumpLine) (ss : list Q) : AerojumpLine :=
  {| raw := raw self; raw_lower := raw_lower self; num := num self;
     matches := matches self; scores := Some ss; filt_index := filt_index self |}.

Definition set_filt_index (self : AerojumpLine) (i : Z) : AerojumpLine :=
  {| raw := raw self; raw_lower := raw_lower self; num := num self;
     matches := matches self; scores := scores self; filt_index := Some i |}.

(** The two nested [while] loops of [__score_matches] over one match [m],
    as one pass over its positions.  [x] is [m[i]] and [rest] is [m[i+1:]].
    While the next position is [x + 1] the inner loop extends [c_match] and
    increments [score]; otherwise the inner loop ends, [c_match] is added
    to [sorted_matches] unless already there, and the outer loop starts a
    new [c_match] at the next position. *)
Fixpoint score_run (x : Z) (rest : list Z) (c_match : list Z)
    (sorted_matches : list (list Z)) (score : Z) : list (list Z) * Z :=
  match rest with
  | y :: rest' =>
      if y - x =? 1 then
        score_run y rest' (c_match ++ [y]) sorted_matches (score + 1)
      else
        score_run y rest' [y]
          (if py_in c_match sorted_matches then sorted_matches
           else sorted_matches ++ [c_match])
          score
  | [] =>
      (if py_in c_match sorted_matches then sorted_matches
       else sorted_matches ++ [c_match], score)
  end.

(** One match [m] scored: [i = 0; score = 1; while i < len(m): ...]. *)
Definition score_match (m : list Z) (sorted_matches : list (list Z))
  : list (list Z) * Z :=
  match m with
  | [] => (sorted_matches, 1)
  | x :: rest => score_run x rest [x] sorted_matches 1
  end.

(** The body of [for m in matches] in [__score_matches]; the loop state is
    [(sorted_matches, self.scores)]. *)
Definition score_step (pat_len : Z) (st : list (list Z) * list Q) (m : list Z)
  : result (list (list Z) * list Q) :=
  let '(sorted_matches, scores) := st in
  let '(sorted_matches, score) := score_match m sorted_matches in
  q <- py_div score pat_len ;;
  Ok (sorted_matches, scores ++ [q]).

(** [AerojumpLine.__score_matches]: returns [sorted_matches] and the value
    given to [self.scores]. *)
Definition score_matches (ms : list (list Z)) (pat_len : Z)
  : result (list (list Z) * list Q) :=
  for_each ms (score_step pat_len) ([], []).

(** [AerojumpLine.__match_from].  [n] counts the iterations left in
    [for i in range(word_index, len(self.raw))]; the recursive call of the
    source starts a new range at [i + 1], which has [n - 1] iterations.
    The result is the returned boolean and the list [matches] as the call
    leaves it. *)
Fixpoint match_from_loop (self : AerojumpLine) (n : nat) (ms : list Z)
    (pattern : str) (pat_index i : Z) : result (bool * list Z) :=
  match n with
  | O => Ok (false, ms)
  | S n' =>
      c <- py_get (raw_lower self) i ;;
      p <- py_get pattern pat_index ;;
      if N.eqb c p then
        let ms := ms ++ [i + 1] in
        let next_pat_index := pat_index + 1 in
        let next_word_index := i + 1 in
        if next_pat_index =? len pattern then Ok (true, ms)
        else if next_word_index <? len (raw_lower self) then
          match_from_loop self n' ms pattern next_pat_index next_word_index
        else Ok (false, ms)
      else match_from_loop self n' ms pattern pat_index (i + 1)
  end.

Definition match_from (self : AerojumpLine) (ms : list Z) (pattern : str)
    (pat_index word_index : Z) : result (bool * list Z) :=
  match_from_loop self (Z.to_nat (len (raw self) - word_index)) ms pattern
    pat_index word_index.

(** The body of [for i in range(0, len(self.raw_lower))] in [filter]. *)
Definition filter_step (self : AerojumpLine) (pattern : str)
    (ms : list (list Z)) (i : Z) : result (list (list Z)) :=
  let proposed_matches := [] in
  c <- py_get (raw_lower self) i ;;
  p <- py_get pattern 0 ;;
  if N.eqb c p then
    '(found, proposed_matches) <- match_from self proposed_matches pattern 0 i ;;
    if found then Ok (ms ++ [proposed_matches]) else Ok ms
  else Ok ms.

(** [AerojumpLine.filter] *)
Definition filter (pattern : str) (self : AerojumpLine) : result AerojumpLine :=
  let self := set_matches self [] in
  match pattern with
  | [] => Ok self
  | _ :: _ =>
      ms <- for_each (range 0 (len (raw_lower self))) (filter_step self pattern) [] ;;
      let self := set_matches self ms in
      '(_, ss) <- score_matches (matches self) (len pattern) ;;
      Ok (set_scores self ss)
  end.

End Line.

(** ** class Aerojump *)

Module Engine.

Import Line.

(** The highlight groups of the tuples built by [__update_highlights]. *)
Inductive hl_group : Type :=
| SearchResult
| SearchHighlight.

(** [(group, line, col_start, col_end)] *)
Definition Highlight : Type := hl_group * Z * Z * Z.

Record Aerojump : Type := mkAerojump {
  log_str : list str;
  og_top_line : Z * Z;
  og_cursor_pos : Z * Z;
  num_lines : Z;
  filter_string : str;
  lines : list AerojumpLine;
  cursor_line_index : Z;
  cursor_match_index : Z;
  has_filter_results : bool;
  filtered_lines : option (list AerojumpLine);
  highlights : option (list Highlight)
}.

Definition set_filter_string (self : Aerojump) (v : str) : Aerojump :=
  mkAerojump (log_str self) (og_top_line self) (og_cursor_pos self)
    (num_lines self) v (lines self) (cursor_line_index self)
    (cursor_match_index self) (has_filter_results self)
    (filtered_lines self) (highlights self).

Definition set_lines (self : Aerojump) (v : list AerojumpLine) : Aerojump :=
  mkAerojump (log_str self) (og_top_line self) (og_cursor_pos self)
    (num_lines self) (filter_string self) v (cursor_line_index self)
    (cursor_match_index self) (has_filter_results self)
    (filtered_lines self) (highlights self).

Definition set_cursor_line_index (self : Aerojump) (v : Z) : Aerojump :=
  mkAerojump (log_str self) (og_top_line self) (og_cursor_pos self)
    (num_lines self) (filter_string self) (lines self) v
    (cursor_match_index self) (has_filter_results self)
    (filtered_lines self) (highlights self).

Definition set_cursor_match_index (self : Aerojump) (v : Z) : Aerojump :=
  mkAerojump (log_str self) (og_top_line self) (og_cursor_pos self)
    (num_lines self) (filter_string self) (lines self)
    (cursor_line_index self) v (has_filter_results self)
    (filtered_lines self) (highlights self).

Definition set_has_filter_results (self : Aerojump) (v : bool) : Aerojump :=
  mkAerojump (log_str self) (og_top_line self) (og_cursor_pos self)
    (num_lines self) (filter_string self) (lines self)
    (cursor_line_index self) (cursor_match_index self) v
    (filtered_lines self) (highlights self).

Definition set_filtered_lines (self : Aerojump) (v : list AerojumpLine) : Aerojump :=
  mkAerojump (log_str self) (og_top_line self) (og_cursor_pos self)
    (num_lines self) (filter_string self) (lines self)
    (cursor_line_index self) (cursor_match_index self)
    (has_filter_results self) (Some v) (highlights self).

Definition set_highlights (self : Aerojump) (v : list Highlight) : Aerojump :=
  mkAerojump (log_str self) (og_top_line self) (og_cursor_pos self)
    (num_lines self) (filter_string self) (lines self)
    (cursor_line_index self) (cursor_match_index self)
    (has_filter_results self) (filtered_lines self) (Some v).

(** [l.matches != []] *)
Definition has_matches (l : AerojumpLine) : bool :=
  match matches l with
  | [] => false
  | _ :: _ => true
  end.

(** The body of the loop of [__init__]:
    [self.lines.append(AerojumpLine(lines[i], lin_nums[i]))]. *)
Definition init_step {L : Lowercase} (lines : list str) (lin_nums : list Z)
    (ls : list AerojumpLine) (i : Z) : result (list AerojumpLine) :=
  line <- py_get lines i ;;
  n <- py_get lin_nums i ;;
  Ok (ls ++ [Line.init line n]).

(** [Aerojump.__init__] *)
Definition init {L : Lowercase} (lines : list str) (lin_nums : list Z)
    (cursor_pos top_line : Z * Z) (num_lines : Z) : result Aerojump :=
  ls <- for_each (range 0 (len lines)) (init_step lines lin_nums) [] ;;
  Ok {| log_str := [];
        og_top_line := top_line;
        og_cursor_pos := cursor_pos;
        num_lines := num_lines;
        filter_string := [];
        lines := ls;
        cursor_line_index := 0;
        cursor_match_index := 0;
        has_filter_results := false;
        filtered_lines := None;
        highlights := None |}.

(** The body of the loop of [__get_filtered_lines].  The line objects are
    filtered in place, so the state carries the lines already visited as the
    loop leaves them, next to [filtered_lines] and [filt_index]. *)
Definition filtered_lines_step (filter_string : str)
    (st : list AerojumpLine * list AerojumpLine * Z) (l : AerojumpLine)
  : result (list AerojumpLine * list AerojumpLine * Z) :=
  let '(ls, filtered_lines, filt_index) := st in
  l <- Line.filter filter_string l ;;
  if has_matches l then
    let l := set_filt_index l filt_index in
    Ok (ls ++ [l], filtered_lines ++ [l], filt_index + 1)
  else Ok (ls ++ [l], filtered_lines, filt_index).

(** [Aerojump.__get_filtered_lines].  The first component is the list
    [lines] after the call; the second is the returned [filtered_lines],
    which holds the very objects of the first, and no method changes a line
    until the next call rebuilds both. *)
Definition get_filtered_lines (filter_string : str) (lines : list AerojumpLine)
  : result (list AerojumpLine * list AerojumpLine) :=
  '(ls, filtered_lines, _) <-
    for_each lines (filtered_lines_step filter_string) ([], [], 0) ;;
  Ok (ls, filtered_lines).

(** The body of the loop of [__best_match_index_for]. *)
Definition best_match_step (line : AerojumpLine) (ret i : Z) : result Z :=
  ss <- attr (scores line) ;;
  a <- py_get ss i ;;
  b <- py_get ss ret ;;
  Ok (if Qgtb a b then i else ret).

(** [Aerojump.__best_match_index_for] *)
Definition best_match_index_for (line : AerojumpLine) : result Z :=
  for_each (range 0 (len (matches line))) (best_match_step line) 0.

(** The loop state of [__best_cursor_in]: [(line, s_index, score)]. *)
Definition best_cursor_step (self : Aerojump)
    (st : AerojumpLine * Z * Q) (l : AerojumpLine)
  : result (AerojumpLine * Z * Q) :=
  let '(line, s_index, score) := st in
  hyp_s_index <- best_match_index_for l ;;
  ss <- attr (scores l) ;;
  sc <- py_get ss hyp_s_index ;;
  if Qgtb sc score
     || (Qeq_bool sc score
         && (Z.abs (fst (og_cursor_pos self) - num l)
             <? Z.abs (fst (og_cursor_pos self) - num line)))
  then Ok (l, hyp_s_index, sc)
  else Ok (line, s_index, score).

(** [Aerojump.__best_cursor_in] *)
Definition best_cursor_in (self : Aerojump) (lines : list AerojumpLine)
  : result (Z * Z) :=
  line <- py_get lines 0 ;;
  s_index <- best_match_index_for line ;;
  ss <- attr (scores line) ;;
  score <- py_get ss s_index ;;
  '(line, s_index, _) <- for_each lines (best_cursor_step self) (line, s_index, score) ;;
  fi <- attr (filt_index line) ;;
  Ok (fi, s_index).

(** [l.num >= visible_start and l.num <= visible_end] *)
Definition is_visible (self : Aerojump) (l : AerojumpLine) : bool :=
  let visible_start := fst (og_top_line self) in
  let visible_end := visible_start + num_lines self in
  (visible_start <=? num l) && (num l <=? visible_end).

(** [Aerojump.__set_cursor_to_best_match] *)
Definition set_cursor_to_best_match (self : Aerojump) : result (Z * Z) :=
  fl <- attr (filtered_lines self) ;;
  let visible_matches := List.filter (is_visible self) fl in
  match visible_matches with
  | _ :: _ => best_cursor_in self visible_matches
  | [] => best_cursor_in self fl
  end.

(** [Aerojump.__update_highlights] *)
Definition update_highlights (filtered_lines : list AerojumpLine)
    (cursor_line_index cursor_match_index : Z) : result (list Highlight) :=
  let highlights :=
    flat_map (fun l =>
      flat_map (fun m =>
        map (fun i => (SearchResult, num l - 1, i - 1, i)) m) (matches l))
      filtered_lines in
  l <- py_get filtered_lines cursor_line_index ;;
  ms <- py_get (matches l) cursor_match_index ;;
  Ok (highlights ++ map (fun m => (SearchHighlight, num l - 1, m - 1, m)) ms).

(** The assignment [self.highlights = self.__update_highlights(
    self.filtered_lines, self.cursor_line_index, self.cursor_match_index)]
    that ends several methods. *)
Definition refresh_highlights (self : Aerojump) : result Aerojump :=
  fl <- attr (filtered_lines self) ;;
  hl <- update_highlights fl (cursor_line_index self) (cursor_match_index self) ;;
  Ok (set_highlights self hl).

(** [Aerojump.apply_filter] *)
Definition apply_filter (filter_string : str) (self : Aerojump) : result Aerojump :=
  let self := set_filter_string self filter_string in
  '(ls, fl) <- get_filtered_lines filter_string (lines self) ;;
  let self := set_filtered_lines (set_lines self ls) fl in
  let self := set_has_filter_results self (0 <? len fl) in
  if has_filter_results self then
    cursor_indices <- set_cursor_to_best_match self ;;
    let self := set_cursor_line_index self (fst cursor_indices) in
    let self := set_cursor_match_index self (snd cursor_indices) in
    refresh_highlights self
  else Ok self.

(** [Aerojump.get_cursor] *)
Definition get_cursor (self : Aerojump) : result (Z * Z) :=
  if negb (has_filter_results self) then Ok (og_cursor_pos self)
  else
    fl <- attr (filtered_lines self) ;;
    l <- py_get fl (cursor_line_index self) ;;
    m <- py_get (matches l) (cursor_match_index self) ;;
    p <- py_get m 0 ;;
    Ok (num l, p - 1).

(** The dictionary returned by [draw]. *)
Record Drawing : Type := mkDrawing {
  d_lines : list str;
  d_highlights : list Highlight;
  d_cursor_position : Z * Z
}.

(** [Aerojump.draw] *)
Definition draw (self : Aerojump) : result Drawing :=
  let lines := map (fun l => if has_matches l then raw l else raw l) (lines self) in
  hl <- attr (highlights self) ;;
  c <- get_cursor self ;;
  Ok {| d_lines := lines; d_highlights := hl; d_cursor_position := c |}.

(** [Aerojump.get_highlights] *)
Definition get_highlights (self : Aerojump) : result (list Highlight) :=
  attr (highlights self).

(** [Aerojump.cursor_line_up] *)
Definition cursor_line_up (self : Aerojump) : result Aerojump :=
  let self := set_cursor_line_index self (cursor_line_index self - 1) in
  let self :=
    if cursor_line_index self <? 0 then set_cursor_line_index self 0 else self in
  let self := set_cursor_match_index self 0 in
  refresh_highlights self.

(** [Aerojump.cursor_line_down] *)
Definition cursor_line_down (self : Aerojump) : result Aerojump :=
  let self := set_cursor_line_index self (cursor_line_index self + 1) in
  fl <- attr (filtered_lines self) ;;
  let self :=
    if len fl <=? cursor_line_index self
    then set_cursor_line_index self (len fl - 1) else self in
  let self := set_cursor_match_index self 0 in
  refresh_highlights self.

(** [Aerojump.cursor_match_next] *)
Definition cursor_match_next (self : Aerojump) : result Aerojump :=
  let self := set_cursor_match_index self (cursor_match_index self + 1) in
  fl <- attr (filtered_lines self) ;;
  l <- py_get fl (cursor_line_index self) ;;
  if len (matches l) <=? cursor_match_index self then cursor_line_down self
  else refresh_highlights self.

(** [Aerojump.cursor_match_prev] *)
Definition cursor_match_prev (self : Aerojump) : result Aerojump :=
  let self := set_cursor_match_index self (cursor_match_index self - 1) in
  if cursor_match_index self <? 0 then
    self <- cursor_line_up self ;;
    fl <- attr (filtered_lines self) ;;
    l <- py_get fl (cursor_line_index self) ;;
    Ok (set_cursor_match_index self (len (matches l) - 1))
  else refresh_highlights self.

(** [Aerojump.get_log] *)
Definition get_log (self : Aerojump) : list str := log_str self.

(** [Aerojump.__log], on an argument that is a string already.  No method
    of the class calls it. *)
Definition log (self : Aerojump) (entry : str) : Aerojump :=
  mkAerojump (log_str self ++ [entry]) (og_top_line self) (og_cursor_pos self)
    (num_lines self) (filter_string self) (lines self) (cursor_line_index self)
    (cursor_match_index self) (has_filter_results self)
    (filtered_lines self) (highlights self).

End Engine.

(** ** class AerojumpNeovim

    Only [__create_aerojumper] is free of editor calls. *)

Module Plugin.

(** [enumerate(xs)] *)
Definition enumerate {A : Type} (xs : list A) : list (Z * A) :=
  combine (range 0 (len xs)) xs.

(** [AerojumpNeovim.__create_aerojumper] *)
Definition create_aerojumper {L : Lowercase} (lines : list str)
    (cursor_pos top_line : Z * Z) (num_lines : Z) : result Engine.Aerojump :=
  let lin_nums :=
    fold_left (fun lin_nums '(i, line) => lin_nums ++ [i + 1])
      (enumerate lines) [] in
  Engine.init lines lin_nums cursor_pos top_line num_lines.

End Plugin.

(** ** Vocabulary of the stated properties *)

Import Line Engine.

(** A line as [AerojumpLine.__init__] builds it, whatever [filter] did to
    it since: [raw_lower] is the lowercase of [raw], of which it is kept
    that the lowercase text is no shorter than the text and holds no ASCII
    capital. *)
Definition wf_line (l : AerojumpLine) : Prop :=
  len (raw l) <= len (raw_lower l) /\
  Forall (fun c => ~ is_upper c) (raw_lower l).

(** The part of the lowercase text that [__match_from] reads: its loop
    stops at [len(self.raw)], so what lowercasing added to the length of
    the text is never looked at. *)
Definition scanned (l : AerojumpLine) : str :=
  firstn (length (raw l)) (raw_lower l).

(** One match [m] of [pattern] in [text]: strictly increasing 1-based
    positions, one per pattern character, each pointing at that character. *)
Definition match_sound (text pattern : str) (m : list Z) : Prop :=
  StronglySorted Z.lt m /\
  len m = len pattern /\
  forall k p, nth_error m k = Some p ->
    1 <= p <= len text /\
    exists c, nth_error text (Z.to_nat (p - 1)) = Some c /\
              nth_error pattern k = Some c.

(** The number of adjacent position pairs of [m] that differ by exactly 1,
    counted over the indices [k] with [m[k+1] - m[k] = 1]. *)
Definition adjacent_pairs (m : list Z) : Z :=
  len (List.filter (fun k => nth (S k) m 0 - nth k m 0 =? 1)
         (seq 0 (length m - 1))).

(** The same count by recursion on the list, as [score_run] meets it. *)
Fixpoint adjacent_pairs_rec (m : list Z) : Z :=
  match m with
  | x :: (y :: _) as t => (if y - x =? 1 then 1 else 0) + adjacent_pairs_rec t
  | _ => 0
  end.

(** The positions of [m] are fully consecutive. *)
Definition consecutive (m : list Z) : Prop :=
  forall k, (S k < length m)%nat -> nth (S k) m 0 = nth k m 0 + 1.

(** What [matches] holds when [__match_from] is entered for [pat_index] at
    word index [i]: the positions of the first [pat_index] pattern
    characters, all of them at most [i]. *)
Definition match_prefix (text pattern : str) (ms : list Z) (pat_index i : Z) : Prop :=
  StronglySorted Z.lt ms /\
  Forall (fun p => p <= i) ms /\
  len ms = pat_index /\
  forall k p, nth_error ms k = Some p ->
    1 <= p <= len text /\
    exists c, nth_error text (Z.to_nat (p - 1)) = Some c /\
              nth_error pattern k = Some c.

(** The engine keeps lines built by the constructor. *)
Definition wf (self : Aerojump) : Prop := Forall wf_line (lines self).

(** [l] is what a filter pass with [pattern] makes of the line [l0], up to
    the [filt_index] that [__get_filtered_lines] may assign afterwards. *)
Definition filtered_from (pattern : str) (l0 l : AerojumpLine) : Prop :=
  exists l1, filter pattern l0 = Ok l1 /\
    raw l = raw l1 /\ raw_lower l = raw_lower l1 /\ num l = num l1 /\
    matches l = matches l1 /\ scores l = scores l1.

(** A filtered line: at least one match and one score per match. *)
Definition scored_line (l : AerojumpLine) : Prop :=
  matches l <> [] /\
  exists ss, scores l = Some ss /\ length ss = length (matches l).

(** [b] is the lowest index among the maximal-score matches of [l], and
    [sc] is that score. *)
Definition best_match (l : AerojumpLine) (b : Z) (sc : Q) : Prop :=
  exists ss, scores l = Some ss /\
    0 <= b < len (matches l) /\
    nth_error ss (Z.to_nat b) = Some sc /\
    (forall j x, nth_error ss j = Some x -> (x <= sc)%Q) /\
    (forall j x, nth_error ss j = Some x -> Z.of_nat j < b -> (x < sc)%Q).

(** The distance between a line and the original cursor line. *)
Definition cursor_distance (self : Aerojump) (l : AerojumpLine) : Z :=
  Z.abs (fst (og_cursor_pos self) - num l).

(** The filtered lines whose number lies in [top, top + height]. *)
Definition visible_lines (self : Aerojump) (fl : list AerojumpLine) : list AerojumpLine :=
  List.filter
    (fun l => (fst (og_top_line self) <=? num l)
              && (num l <=? fst (og_top_line self) + num_lines self))
    fl.

(** The candidate lines of the initial selection: the visible ones when
    there are some, all filtered lines otherwise. *)
Definition candidates (self : Aerojump) (fl : list AerojumpLine) : list AerojumpLine :=
  match visible_lines self fl with
  | [] => fl
  | v => v
  end.

(** The candidate [c] at position [k], whose best match has score [sc],
    wins against the first [n] candidates: none of them has a higher best
    score, none with that score is closer to the original cursor line, and
    none with that score and that distance comes before position [k]. *)
Definition selected_upto (self : Aerojump) (cands : list AerojumpLine) (n : nat)
    (k : nat) (c : AerojumpLine) (sc : Q) : Prop :=
  forall j c' b' sc',
    (j < n)%nat ->
    nth_error cands j = Some c' -> best_match c' b' sc' ->
    (sc' <= sc)%Q /\
    ((sc' == sc)%Q ->
       cursor_distance self c <= cursor_distance self c' /\
       (cursor_distance self c' = cursor_distance self c -> (k <= j)%nat)).

(** The candidate at position [k] wins the selection among [cands]. *)
Definition selected (self : Aerojump) (cands : list AerojumpLine)
    (k : nat) (c : AerojumpLine) (sc : Q) : Prop :=
  selected_upto self cands (length cands) k c sc.

(** Both cursor indices are valid for the current filtered-line sequence
    [fl], every line of which has a match. *)
Definition nav_valid (self : Aerojump) (fl : list AerojumpLine) : Prop :=
  filtered_lines self = Some fl /\
  Forall (fun l => matches l <> []) fl /\
  exists l,
    0 <= cursor_line_index self < len fl /\
    nth_error fl (Z.to_nat (cursor_line_index self)) = Some l /\
    0 <= cursor_match_index self < len (matches l).

(** The four navigation commands. *)
Inductive nav_command : Type :=
| LineUp
| LineDown
| MatchNext
| MatchPrev.

Definition run_nav (c : nav_command) (self : Aerojump) : result Aerojump :=
  match c with
  | LineUp => cursor_line_up self
  | LineDown => cursor_line_down self
  | MatchNext => cursor_match_next self
  | MatchPrev => cursor_match_prev self
  end.

(** [n] calls of the same command in a row. *)
Fixpoint repeat_nav (n : nat) (c : nav_command) (self : Aerojump) : result Aerojump :=
  match n with
  | O => Ok self
  | S n' => self' <- run_nav c self ;; repeat_nav n' c self'
  end.

(** The states an engine goes through: built by the constructor, then
    driven by filter passes and navigation commands.  A navigation command
    that raises has assigned the cursor indices at most, since the
    highlights are assigned last; the caller may go on with that object. *)
Inductive reachable {L : Lowercase} : Aerojump -> Prop :=
| reach_init (ls : list str) (lin_nums : list Z) (cursor_pos top_line : Z * Z)
    (n : Z) (self : Aerojump) :
    Engine.init ls lin_nums cursor_pos top_line n = Ok self ->
    reachable self
| reach_filter (pattern : str) (self self' : Aerojump) :
    reachable self ->
    apply_filter pattern self = Ok self' ->
    reachable self'
| reach_nav (c : nav_command) (self self' : Aerojump) :
    reachable self ->
    run_nav c self = Ok self' ->
    reachable self'
| reach_raise (c : nav_command) (self : Aerojump) (e : exn) (i j : Z) :
    reachable self ->
    run_nav c self = Raise e ->
    reachable (set_cursor_match_index (set_cursor_line_index self i) j).

(** The [SearchHighlight] entries of a highlight list, in order. *)
Definition cursor_spans (hl : list Highlight) : list Highlight :=
  List.filter (fun h => match h with
                        | (SearchHighlight, _, _, _) => true
                        | _ => false
                        end) hl.

(** One [SearchHighlight] entry per position of the match [m] of line [l]. *)
Definition spans_of_match (l : AerojumpLine) (m : list Z) : list Highlight :=
  map (fun p => (SearchHighlight, num l - 1, p - 1, p)) m.

(** One [SearchResult] entry per position of every match of every filtered
    line, in line, match and position order. *)
Definition match_spans (fl : list AerojumpLine) : list Highlight :=
  flat_map (fun l =>
    flat_map (fun m => map (fun i => (SearchResult, num l - 1, i - 1, i)) m)
      (matches l)) fl.

(** The cursor spans that the selected match calls for. *)
Definition selected_spans (self : Aerojump) : result (list Highlight) :=
  fl <- attr (filtered_lines self) ;;
  l <- py_get fl (cursor_line_index self) ;;
  m <- py_get (matches l) (cursor_match_index self) ;;
  Ok (spans_of_match l m).

(** The lines that [__init__] builds from [lines] and the first
    [len(lines)] line numbers. *)
Definition zip_lines {L : Lowercase} (lines : list str) (lin_nums : list Z)
  : list AerojumpLine :=
  map (fun p => Line.init (fst p) (snd p)) (combine lines lin_nums).

(** [p] is a subsequence of [t]: the elements of [p] occur in [t] in the
    same order, not necessarily next to each other. *)
Inductive subseq {A : Type} : list A -> list A -> Prop :=
| subseq_nil (t : list A) : subseq [] t
| subseq_take (a : A) (p t : list A) : subseq p t -> subseq (a :: p) (a :: t)
| subseq_skip (a : A) (p t : list A) : subseq p t -> subseq p (a :: t).

(** [p] occurs in [t] as a block of adjacent elements starting at index [i]. *)
Definition occurs_at {A : Type} (p t : list A) (i : nat) : Prop :=
  firstn (length p) (skipn i t) = p.

(** The walk of [__match_from] over the rest [t] of the text, which starts
    at word index [i], for the rest [pat] of the pattern: the positions it
    records when it succeeds.  Used to reason about [match_from_loop]. *)
Fixpoint greedy (t pat : str) (i : Z) : option (list Z) :=
  match t with
  | [] => None
  | c :: t' =>
      match pat with
      | [] => None
      | p :: ps =>
          if N.eqb c p then
            match ps with
            | [] => Some [i + 1]
            | _ :: _ => option_map (cons (i + 1)) (greedy t' ps (i + 1))
            end
          else greedy t' pat (i + 1)
      end
  end.

(** The matches that the loop of [filter] collects over the rest [t] of
    the text: one walk per start index that holds the first pattern
    character.  Used to reason about [filter_step]. *)
Fixpoint starts (t pat : str) (i : Z) : list (list Z) :=
  match t with
  | [] => []
  | c :: t' =>
      match pat with
      | [] => []
      | p :: _ =>
          if N.eqb c p then
            match greedy t pat i with
            | Some m => [m]
            | None => []
            end
          else []
      end ++ starts t' pat (i + 1)
  end.

(** No position of the match [m], read against the rest [t] of the text
    that starts at word index [i], could be further left: between two
    successive positions no character equals the pattern character that
    the later position stands for. *)
Definition leftmost_from (t pat : str) (i : Z) (m : list Z) : Prop :=
  forall k q p j c,
    nth_error m k = Some q -> nth_error m (S k) = Some p ->
    q < j < p ->
    nth_error t (Z.to_nat (j - 1 - i)) = Some c ->
    nth_error pat (S k) <> Some c.

(** The same against the whole text. *)
Definition leftmost (text pattern : str) (m : list Z) : Prop :=
  leftmost_from text pattern 0 m.

(** The positions [i + 1], ..., [i + n]. *)
Definition block (i : Z) (n : nat) : list Z :=
  map (fun k => i + 1 + Z.of_nat k) (seq 0 n).

(** [b] comes from [a] by filter passes and navigation commands, those
    that raise included (see [reachable]). *)
Inductive evolves (a : Aerojump) : Aerojump -> Prop :=
| ev_refl : evolves a a
| ev_filter (pattern : str) (b b' : Aerojump) :
    evolves a b -> apply_filter pattern b = Ok b' -> evolves a b'
| ev_nav (c : nav_command) (b b' : Aerojump) :
    evolves a b -> run_nav c b = Ok b' -> evolves a b'
| ev_raise (c : nav_command) (b : Aerojump) (e : exn) (i j : Z) :
    evolves a b -> run_nav c b = Raise e ->
    evolves a (set_cursor_match_index (set_cursor_line_index b i) j).

(** Two engine states agree on everything but the cursor indices and the
    highlights. *)
Definition same_frame (a b : Aerojump) : Prop :=
  log_str a = log_str b /\
  og_top_line a = og_top_line b /\
  og_cursor_pos a = og_cursor_pos b /\
  num_lines a = num_lines b /\
  filter_string a = filter_string b /\
  lines a = lines b /\
  has_filter_results a = has_filter_results b /\
  filtered_lines a = filtered_lines b.

(** The number of matches over all filtered lines. *)
Definition match_count (fl : list AerojumpLine) : nat :=
  list_sum (map (fun l => length (matches l)) fl).

(** A highlight covers one column of the text of a filtered line. *)
Definition highlight_in_text (fl : list AerojumpLine) (h : Highlight) : Prop :=
  let '(_, line, col_start, col_end) := h in
  col_end = col_start + 1 /\
  exists l, In l fl /\ line = num l - 1 /\ 0 <= col_start < len (raw l).

(** What every reachable engine satisfies beyond [nav_valid]: the log is
    empty; [has_filter_results] says whether there are filtered lines; the
    filtered lines are the lines with a match, in document order, numbered
    by [filt_index], and all their matches are sound for [filter_string];
    with filtered lines the filter string is not empty and the highlights
    are the match spans followed by the spans of one match. *)
Definition consistent (self : Aerojump) : Prop :=
  log_str self = [] /\
  has_filter_results self
  = match filtered_lines self with
    | Some (_ :: _) => true
    | _ => false
    end /\
  forall fl, filtered_lines self = Some fl ->
    fl = List.filter has_matches (lines self) /\
    (forall k l, nth_error fl k = Some l -> filt_index l = Some (Z.of_nat k)) /\
    Forall (fun l =>
              Forall (match_sound (scanned l) (filter_string self)) (matches l))
      fl /\
    (fl <> [] ->
     filter_string self <> [] /\
     exists l m, In l fl /\ In m (matches l) /\
       highlights self = Some (match_spans fl ++ spans_of_match l m)).

(** ** Concrete buffers *)

(** A string literal as the list of its code points. *)
Definition s (x : string) : str := map N_of_ascii (list_ascii_of_string x).

(** The case mapping of the examples, which has the three properties of
    [Lowercase]: ASCII letters and U+0130 as Python lowercases them, every
    other code point left alone. *)
Definition lower_sample_char (c : char) : list char :=
  if (c =? 304)%N then [105; 775]%N else [lower_ascii c].

Definition lower_sample : Lowercase.
Proof.
  refine {| lower := flat_map lower_sample_char |}.
  - intros t. induction t as [|c t IH]; [apply le_n|].
    cbn [flat_map]. rewrite length_app. unfold lower_sample_char at 1.
    destruct (c =? 304)%N; cbn [length]; lia.
  - intros t. induction t as [|c t IH]; [constructor|].
    cbn [flat_map]. apply Forall_app. split; [|exact IH].
    unfold lower_sample_char, lower_ascii, is_upper.
    destruct (c =? 304)%N;
      [constructor; [lia|constructor; [lia|constructor]]|].
    constructor; [|constructor].
    destruct ((65 <=? c)%N && (c <=? 90)%N) eqn:E.
    + apply andb_prop in E. destruct E as [E _]. apply N.leb_le in E. lia.
    + apply andb_false_iff in E. rewrite !N.leb_gt in E. lia.
  - intros t Ht. induction Ht as [|c t Hc Ht IH]; [reflexivity|].
    cbn [flat_map map]. rewrite IH. unfold lower_sample_char at 1.
    unfold is_ascii in Hc.
    destruct (c =? 304)%N eqn:E; [apply N.eqb_eq in E; lia|reflexivity].
Defined.

(** The line ["fooBar fbo"], numbered 1, as the constructor builds it. *)
Definition line_foobar : AerojumpLine :=
  mkLine (s "fooBar fbo") (s "foobar fbo") 1 [] None None.

(** The line ["FOOBAR FBO"], numbered 7, as the constructor builds it. *)
Definition line_foobar_caps : AerojumpLine :=
  mkLine (s "FOOBAR FBO") (s "foobar fbo") 7 [] None None.

(** The line U+0130 ["x"], whose lowercase text has three code points. *)
Definition line_dotted_x : AerojumpLine :=
  mkLine [304; 120]%N [105; 775; 120]%N 1 [] None None.

(** The result of a call that is known to end normally. *)
Definition ok_or {A : Type} (d : A) (r : result A) : A :=
  match r with
  | Ok a => a
  | Raise _ => d
  end.

(** A fresh engine over the single line ["abab"], cursor and viewport at
    line 1. *)
Definition state_abab : Aerojump :=
  mkAerojump [] (1, 0) (1, 0) 10 []
    [mkLine (s "abab") (s "abab") 1 [] None None] 0 0 false None None.

(** The same engine after the query ["a"]: one filtered line with the two
    matches [[1]] and [[3]], the cursor on the first. *)
Definition state_abab_a : Aerojump :=
  ok_or state_abab (apply_filter (s "a") state_abab).

(** ... and after one [cursor_match_next]: the cursor on the second match. *)
Definition state_abab_a1 : Aerojump :=
  ok_or state_abab (cursor_match_next state_abab_a).

(** Its only line after the query ["a"]. *)
Definition line_abab_a : AerojumpLine :=
  mkLine (s "abab") (s "abab") 1 [[1]; [3]] (Some [1 # 1; 1 # 1]%Q) (Some 0).

(** A fresh engine over two equal lines numbered 10 and 50, the original
    cursor on line 12, lines 1 to 101 in view. *)
Definition state_two : Aerojump :=
  mkAerojump [] (1, 0) (12, 0) 100 []
    [mkLine (s "xab") (s "xab") 10 [] None None;
     mkLine (s "xab") (s "xab") 50 [] None None] 0 0 false None None.

(** ** Python sequences and loops *)

(** A line given by its fields is one that the constructor builds. *)
Ltac concrete_list :=
  match goal with
  | |- Forall _ ?t =>
      let t' := eval vm_compute in t in
      let E := fresh in
      assert (E : t = t') by (vm_compute; reflexivity); rewrite E; clear E
  end.

Ltac concrete_wf_line :=
  split;
  [ vm_compute; discriminate
  | concrete_list;
    repeat (apply Forall_cons; [unfold is_upper; lia|]); apply Forall_nil ].

(** A string given by its characters is ASCII text. *)
Ltac ascii_text :=
  concrete_list;
  repeat (apply Forall_cons; [unfold is_ascii; reflexivity|]); apply Forall_nil.

(** The same for the lines of an engine. *)
Ltac concrete_wf :=
  unfold wf; concrete_list;
  repeat (apply Forall_cons; [concrete_wf_line|]); apply Forall_nil.

(** Expose the fields of a state built by a chain of attribute assignments. *)
Ltac unfold_setters :=
  unfold set_highlights, set_cursor_match_index, set_cursor_line_index,
    set_has_filter_results, set_filtered_lines, set_lines, set_filter_string;
  cbn [log_str og_top_line og_cursor_pos num_lines filter_string lines
       cursor_line_index cursor_match_index has_filter_results
       filtered_lines highlights].

Lemma len_nonneg {A : Type} (l : list A) : 0 <= len l.
Proof. unfold len. lia. Qed.

Lemma len_app {A : Type} (l1 l2 : list A) : len (l1 ++ l2) = len l1 + len l2.
Proof. unfold len. rewrite length_app. lia. Qed.

Lemma len_nil_iff {A : Type} (l : list A) : len l = 0 <-> l = [].
Proof.
  unfold len. destruct l as [|a l]; simpl; split; intros H; try reflexivity; try lia.
  discriminate H.
Qed.

Lemma py_get_nonneg {A : Type} (l : list A) (i : Z) (x : A) :
  0 <= i -> py_get l i = Ok x ->
  i < len l /\ nth_error l (Z.to_nat i) = Some x.
Proof.
  intros Hi. unfold py_get.
  destruct (i <? 0) eqn:Hneg; [apply Z.ltb_lt in Hneg; lia|].
  destruct ((0 <=? i) && (i <? len l)) eqn:Hr; [|discriminate].
  apply andb_true_iff in Hr as [_ Hlt]. apply Z.ltb_lt in Hlt.
  destruct (nth_error l (Z.to_nat i)) as [a|]; [|discriminate].
  intros [= ->]. split; [assumption|reflexivity].
Qed.

Lemma py_get_in_range {A : Type} (l : list A) (i : Z) :
  0 <= i < len l ->
  exists x, py_get l i = Ok x /\ nth_error l (Z.to_nat i) = Some x.
Proof.
  intros [H0 H1]. unfold py_get.
  destruct (i <? 0) eqn:Hneg; [apply Z.ltb_lt in Hneg; lia|].
  replace ((0 <=? i) && (i <? len l)) with true
    by (symmetry; apply andb_true_iff; split; [apply Z.leb_le|apply Z.ltb_lt]; lia).
  destruct (nth_error l (Z.to_nat i)) as [a|] eqn:Hn.
  - exists a. split; reflexivity.
  - apply nth_error_None in Hn. unfold len in H1. lia.
Qed.

Lemma py_get_empty {A : Type} (i : Z) : py_get (@nil A) i = Raise IndexError.
Proof.
  unfold py_get. change (len (@nil A)) with 0.
  destruct (i <? 0) eqn:Hneg.
  - apply Z.ltb_lt in Hneg.
    replace (0 <=? i + 0) with false by (symmetry; apply Z.leb_gt; lia).
    reflexivity.
  - replace (i <? 0) with false. rewrite andb_false_r. reflexivity.
Qed.

Lemma in_range (lo hi i : Z) : In i (range lo hi) <-> lo <= i < hi.
Proof.
  unfold range. rewrite in_map_iff. split.
  - intros [k [<- Hk]]. apply in_seq in Hk. lia.
  - intros H. exists (Z.to_nat (i - lo)). split; [lia|]. apply in_seq. lia.
Qed.

Lemma range_length (lo hi : Z) : length (range lo hi) = Z.to_nat (hi - lo).
Proof. unfold range. rewrite length_map, length_seq. reflexivity. Qed.

(** A loop whose body keeps an invariant and never raises ends normally in
    a state that satisfies the invariant. *)
Lemma for_each_total {A S : Type} (P : S -> Prop) (body : S -> A -> result S) :
  forall (xs : list A) (s0 : S),
    P s0 ->
    (forall st x, In x xs -> P st -> exists st', body st x = Ok st' /\ P st') ->
    exists st', for_each xs body s0 = Ok st' /\ P st'.
Proof.
  induction xs as [|x xs IH]; intros s0 H0 Hbody; simpl.
  - exists s0. split; [reflexivity|assumption].
  - destruct (Hbody s0 x (or_introl eq_refl) H0) as [s1 [E1 P1]].
    rewrite E1. simpl. apply IH; [assumption|].
    intros st y Hy. apply Hbody. right. assumption.
Qed.

Lemma for_each_app {A S : Type} (body : S -> A -> result S) :
  forall (xs ys : list A) (s0 : S),
    for_each (xs ++ ys) body s0 = (s1 <- for_each xs body s0 ;; for_each ys body s1).
Proof.
  induction xs as [|x xs IH]; intros ys s0; simpl; [reflexivity|].
  destruct (body s0 x) as [s1|e]; simpl; [apply IH|reflexivity].
Qed.

(** ** [AerojumpLine.__match_from] records sound matches *)

Lemma StronglySorted_snoc (ms : list Z) (x : Z) :
  StronglySorted Z.lt ms -> Forall (fun p => p < x) ms ->
  StronglySorted Z.lt (ms ++ [x]).
Proof.
  induction ms as [|a ms IH]; intros Hs Hf; simpl.
  - constructor; constructor.
  - inversion Hs as [|? ? Hs' Ha]; subst. inversion Hf as [|? ? Hax Hf']; subst.
    constructor; [apply IH; assumption|].
    apply Forall_app. split; [assumption|]. constructor; [assumption|constructor].
Qed.

Lemma nth_error_snoc {A : Type} (l : list A) (x y : A) (k : nat) :
  nth_error (l ++ [x]) k = Some y ->
  nth_error l k = Some y \/ (k = length l /\ y = x).
Proof.
  intros H. destruct (Nat.lt_ge_cases k (length l)) as [Hk|Hk].
  - left. rewrite nth_error_app1 in H by assumption. exact H.
  - right. rewrite nth_error_app2 in H by assumption.
    destruct (k - length l)%nat as [|j] eqn:Hj; simpl in H.
    + injection H as <-. split; [lia|reflexivity].
    + destruct j; discriminate.
Qed.

Lemma match_prefix_snoc (text pattern : str) (ms : list Z) (pat_index i : Z) (c : char) :
  match_prefix text pattern ms pat_index i ->
  0 <= i < len text ->
  nth_error text (Z.to_nat i) = Some c ->
  nth_error pattern (Z.to_nat pat_index) = Some c ->
  match_prefix text pattern (ms ++ [i + 1]) (pat_index + 1) (i + 1).
Proof.
  intros (Hs & Hle & Hlen & Hch) Hi Hc Hp. split; [|split; [|split]].
  - apply StronglySorted_snoc; [assumption|].
    eapply Forall_impl; [|exact Hle]. simpl. intros. lia.
  - apply Forall_app. split.
    + eapply Forall_impl; [|exact Hle]. simpl. intros. lia.
    + constructor; [lia|constructor].
  - rewrite len_app, Hlen. reflexivity.
  - intros k p H. apply nth_error_snoc in H as [H|[-> ->]].
    + apply (Hch k p H).
    + split; [lia|]. exists c.
      replace (i + 1 - 1) with i by lia. split; [assumption|].
      replace (length ms) with (Z.to_nat pat_index); [assumption|].
      unfold len in Hlen. lia.
Qed.

Lemma match_prefix_weaken (text pattern : str) (ms : list Z) (pat_index i : Z) :
  match_prefix text pattern ms pat_index i ->
  match_prefix text pattern ms pat_index (i + 1).
Proof.
  intros (Hs & Hle & Hlen & Hch). split; [|split; [|split]]; try assumption.
  eapply Forall_impl; [|exact Hle]. simpl. intros. lia.
Qed.

Lemma match_prefix_full (text pattern : str) (ms : list Z) (i : Z) :
  match_prefix text pattern ms (len pattern) i -> match_sound text pattern ms.
Proof.
  intros (Hs & _ & Hlen & Hch). split; [|split]; assumption.
Qed.

(** The recursive call [self.__match_from(matches, pattern, next_pat_index,
    next_word_index)] made at word index [i] is the rest of the scan. *)
Lemma match_from_rec (self : AerojumpLine) (ms : list Z) (pattern : str)
    (pat_index i : Z) :
  0 <= i < len (raw self) ->
  match_from self ms pattern pat_index (i + 1)
  = match_from_loop self (Nat.pred (Z.to_nat (len (raw self) - i))) ms pattern
      pat_index (i + 1).
Proof.
  intros Hi. unfold match_from. f_equal. lia.
Qed.

(** A successful [__match_from] leaves a sound match in [matches]; and the
    call never raises as long as the scan stays inside [raw_lower] and
    [pat_index] inside the pattern. *)
Lemma match_from_loop_sound (self : AerojumpLine) (pattern : str) :
  forall (n : nat) (ms : list Z) (pat_index i : Z),
    match_prefix (raw_lower self) pattern ms pat_index i ->
    0 <= i -> i + Z.of_nat n <= len (raw_lower self) ->
    0 <= pat_index < len pattern ->
    exists (found : bool) (ms' : list Z),
      match_from_loop self n ms pattern pat_index i = Ok (found, ms') /\
      (found = true -> match_sound (raw_lower self) pattern ms').
Proof.
  induction n as [|n IH]; intros ms pat_index i Hpre Hi Hn Hp; simpl.
  - exists false, ms. split; [reflexivity|discriminate].
  - destruct (py_get_in_range (raw_lower self) i) as [c [Ec Hc]]; [lia|].
    destruct (py_get_in_range pattern pat_index) as [p [Ep Hpc]]; [lia|].
    rewrite Ec, Ep. simpl.
    destruct (N.eqb c p) eqn:Hcp.
    + apply N.eqb_eq in Hcp. subst p.
      assert (Hpre' : match_prefix (raw_lower self) pattern (ms ++ [i + 1])
                        (pat_index + 1) (i + 1))
        by (apply match_prefix_snoc with (c := c); try assumption; lia).
      destruct (pat_index + 1 =? len pattern) eqn:Hlast.
      * apply Z.eqb_eq in Hlast. rewrite Hlast in Hpre'.
        exists true, (ms ++ [i + 1]). split; [reflexivity|].
        intros _. eapply match_prefix_full. exact Hpre'.
      * apply Z.eqb_neq in Hlast.
        destruct (i + 1 <? len (raw_lower self)) eqn:Hmore.
        -- apply IH; try assumption; lia.
        -- exists false, (ms ++ [i + 1]). split; [reflexivity|discriminate].
    + apply IH; try lia. apply match_prefix_weaken. assumption.
Qed.

Lemma match_prefix_nil (text pattern : str) (i : Z) :
  match_prefix text pattern [] 0 i.
Proof.
  split; [constructor|split; [constructor|split; [reflexivity|]]].
  intros k p H. destruct k; discriminate.
Qed.

Lemma wf_line_len (l : AerojumpLine) : wf_line l -> len (raw l) <= len (raw_lower l).
Proof. intros [H _]. exact H. Qed.

(** Every line that the constructor builds is well formed, whatever the
    lowercase map. *)
Lemma init_wf_line {L : Lowercase} (line : str) (n : Z) : wf_line (Line.init line n).
Proof.
  split; cbn [raw raw_lower Line.init].
  - unfold len. pose proof (lower_length line). lia.
  - apply lower_no_upper.
Qed.

(** The line that the constructor builds from ASCII text. *)
Lemma init_ascii {L : Lowercase} (line : str) (n : Z) :
  Forall is_ascii line ->
  Line.init line n = mkLine line (map lower_ascii line) n [] None None.
Proof.
  intros Ha. unfold Line.init. rewrite (lower_ascii_text line Ha). reflexivity.
Qed.

Lemma filter_step_sound (self : AerojumpLine) (pattern : str) (ms : list (list Z)) (i : Z) :
  wf_line self -> pattern <> [] ->
  0 <= i < len (raw_lower self) ->
  Forall (match_sound (raw_lower self) pattern) ms ->
  exists ms', filter_step self pattern ms i = Ok ms' /\
              Forall (match_sound (raw_lower self) pattern) ms'.
Proof.
  intros Hwf Hpat Hi Hms. unfold filter_step.
  assert (Hplen : 0 < len pattern).
  { destruct pattern; [congruence|]. unfold len. simpl. lia. }
  destruct (py_get_in_range (raw_lower self) i Hi) as [c [Ec _]].
  destruct (py_get_in_range pattern 0) as [p [Ep _]]; [lia|].
  rewrite Ec, Ep. simpl.
  destruct (N.eqb c p); [|exists ms; split; [reflexivity|assumption]].
  unfold match_from.
  destruct (match_from_loop_sound self pattern
              (Z.to_nat (len (raw self) - i)) [] 0 i) as (found & m & E & Hm).
  - apply match_prefix_nil.
  - lia.
  - pose proof (wf_line_len self Hwf). lia.
  - lia.
  - rewrite E. simpl. destruct found.
    + exists (ms ++ [m]). split; [reflexivity|].
      apply Forall_app. split; [assumption|]. constructor; [auto|constructor].
    + exists ms. split; [reflexivity|assumption].
Qed.

(** ** [AerojumpLine.__score_matches] counts adjacent pairs *)

Lemma score_run_snd :
  forall (rest : list Z) (x : Z) (c_match : list Z) (sorted_matches : list (list Z))
         (score : Z),
    snd (score_run x rest c_match sorted_matches score)
    = score + adjacent_pairs_rec (x :: rest).
Proof.
  induction rest as [|y rest IH]; intros x c_match sorted_matches score.
  - simpl. lia.
  - cbn [score_run adjacent_pairs_rec].
    destruct (y - x =? 1); rewrite IH; cbn [adjacent_pairs_rec]; lia.
Qed.

Lemma score_match_snd (m : list Z) (sorted_matches : list (list Z)) :
  snd (score_match m sorted_matches) = 1 + adjacent_pairs_rec m.
Proof.
  destruct m as [|x rest]; [reflexivity|].
  unfold score_match. apply score_run_snd.
Qed.

Lemma filter_map_length {A B : Type} (f : B -> bool) (g : A -> B) (l : list A) :
  length (List.filter f (map g l)) = length (List.filter (fun a => f (g a)) l).
Proof.
  induction l as [|a l IH]; simpl; [reflexivity|].
  destruct (f (g a)); simpl; rewrite IH; reflexivity.
Qed.

Lemma adjacent_pairs_cons (x y : Z) (t : list Z) :
  adjacent_pairs (x :: y :: t)
  = (if y - x =? 1 then 1 else 0) + adjacent_pairs (y :: t).
Proof.
  unfold adjacent_pairs.
  replace (length (x :: y :: t) - 1)%nat with (S (length t)) by (simpl; lia).
  replace (length (y :: t) - 1)%nat with (length t) by (simpl; lia).
  rewrite <- cons_seq, <- seq_shift. cbn [List.filter nth].
  unfold len.
  destruct (y - x =? 1); cbn [length]; rewrite filter_map_length;
    cbn [nth]; lia.
Qed.

Lemma adjacent_pairs_rec_eq (m : list Z) : adjacent_pairs m = adjacent_pairs_rec m.
Proof.
  induction m as [|x [|y t] IH]; try reflexivity.
  rewrite adjacent_pairs_cons, IH. reflexivity.
Qed.

Lemma filter_length_all {A : Type} (f : A -> bool) (l : list A) :
  length (List.filter f l) = length l <-> forall x, In x l -> f x = true.
Proof.
  induction l as [|a l IH]; simpl.
  - split; [intros _ x []|reflexivity].
  - pose proof (filter_length_le f l) as Hle.
    destruct (f a) eqn:Hfa; simpl.
    + split.
      * intros H x [<-|Hx]; [assumption|]. apply IH; [lia|assumption].
      * intros H. f_equal. apply IH. intros x Hx. apply H. right. assumption.
    + split; [lia|]. intros H. specialize (H a (or_introl eq_refl)). congruence.
Qed.

Lemma adjacent_pairs_bound (m : list Z) :
  m <> [] -> 0 <= adjacent_pairs m <= len m - 1.
Proof.
  intros Hm. unfold adjacent_pairs, len.
  pose proof (filter_length_le (fun k => nth (S k) m 0 - nth k m 0 =? 1)
                (seq 0 (length m - 1))) as Hle.
  rewrite length_seq in Hle.
  destruct m; [congruence|]. simpl length in *. lia.
Qed.

Lemma adjacent_pairs_full (m : list Z) :
  m <> [] -> (adjacent_pairs m = len m - 1 <-> consecutive m).
Proof.
  intros Hm.
  assert (Hlen : (0 < length m)%nat) by (destruct m; [congruence|simpl; lia]).
  pose proof (filter_length_all (fun k => nth (S k) m 0 - nth k m 0 =? 1)
                (seq 0 (length m - 1))) as Hall.
  rewrite length_seq in Hall.
  unfold adjacent_pairs, len, consecutive. split.
  - intros H k Hk.
    assert (Hk' : In k (seq 0 (length m - 1))) by (apply in_seq; lia).
    apply Hall in Hk'; [|lia]. apply Z.eqb_eq in Hk'. lia.
  - intros H.
    assert (E : length (List.filter (fun k => nth (S k) m 0 - nth k m 0 =? 1)
                          (seq 0 (length m - 1))) = (length m - 1)%nat).
    { apply Hall. intros k Hk. apply in_seq in Hk. apply Z.eqb_eq.
      rewrite H by lia. lia. }
    lia.
Qed.

Lemma score_matches_loop (pat_len : Z) :
  pat_len <> 0 ->
  forall (ms : list (list Z)) (sorted_matches : list (list Z)) (scores : list Q),
  exists sorted_matches',
    for_each ms (score_step pat_len) (sorted_matches, scores)
    = Ok (sorted_matches',
          scores ++ map (fun m => (1 + adjacent_pairs m) # Z.to_pos pat_len) ms).
Proof.
  intros Hp. induction ms as [|m ms IH]; intros sorted_matches scores.
  - exists sorted_matches. simpl. rewrite app_nil_r. reflexivity.
  - cbn [for_each map]. unfold score_step at 1.
    pose proof (score_match_snd m sorted_matches) as Hsc.
    destruct (score_match m sorted_matches) as [sm' sc]. simpl in Hsc.
    unfold py_div. replace (pat_len =? 0) with false
      by (symmetry; apply Z.eqb_neq; assumption).
    cbn [bind].
    destruct (IH sm' (scores ++ [sc # Z.to_pos pat_len])) as [sm'' E].
    exists sm''. rewrite E, <- app_assoc. cbn [app].
    rewrite Hsc, adjacent_pairs_rec_eq. reflexivity.
Qed.

Lemma score_matches_spec (ms : list (list Z)) (pat_len : Z) :
  pat_len <> 0 ->
  exists sorted_matches,
    score_matches ms pat_len
    = Ok (sorted_matches,
          map (fun m => (1 + adjacent_pairs m) # Z.to_pos pat_len) ms).
Proof.
  intros Hp. unfold score_matches.
  destruct (score_matches_loop pat_len Hp ms [] []) as [sm E].
  exists sm. exact E.
Qed.

(** ** [AerojumpLine.filter] *)

(** On a line built by the constructor a filter pass with a non-empty
    pattern never raises; it keeps the text and the line number, leaves
    sound matches only, and scores each of them. *)
Lemma filter_spec (pattern : str) (self : AerojumpLine) :
  wf_line self -> pattern <> [] ->
  exists ms,
    filter pattern self
    = Ok (mkLine (raw self) (raw_lower self) (num self) ms
            (Some (map (fun m => (1 + adjacent_pairs m) # Z.to_pos (len pattern)) ms))
            (filt_index self)) /\
    Forall (match_sound (raw_lower self) pattern) ms.
Proof.
  intros Hwf Hpat. unfold filter.
  destruct pattern as [|p0 pattern']; [congruence|].
  set (pattern := p0 :: pattern') in *.
  set (self0 := set_matches self []).
  assert (Hwf0 : wf_line self0) by exact Hwf.
  destruct (for_each_total (Forall (match_sound (raw_lower self0) pattern))
              (filter_step self0 pattern)
              (range 0 (len (raw_lower self0))) []) as [ms [E Hms]].
  - constructor.
  - intros st i Hi Hst. apply in_range in Hi.
    apply filter_step_sound; assumption.
  - exists ms. rewrite E. cbn [bind].
    destruct (score_matches_spec ms (len pattern)) as [sm Es].
    { unfold len, pattern. simpl. lia. }
    cbn [matches set_matches]. rewrite Es. cbn [bind].
    split; [reflexivity|exact Hms].
Qed.

Lemma filter_empty (self : AerojumpLine) :
  filter [] self = Ok (set_matches self []).
Proof. reflexivity. Qed.

Lemma Forall2_map_r {A B : Type} (R : A -> B -> Prop) (f : A -> B) (l : list A) :
  Forall (fun a => R a (f a)) l -> Forall2 R l (map f l).
Proof.
  induction 1; simpl; constructor; assumption.
Qed.

Lemma score_value (a n : Z) :
  0 < n -> (a # Z.to_pos n == inject_Z a / inject_Z n)%Q.
Proof.
  intros Hn. rewrite Qmake_Qdiv. rewrite Z2Pos.id by assumption. reflexivity.
Qed.

Lemma score_bounds (m : list Z) (n : Z) :
  m <> [] -> len m = n ->
  let sc := (1 + adjacent_pairs m) # Z.to_pos n in
  (0 < sc)%Q /\ (sc <= 1)%Q /\ ((sc == 1)%Q <-> consecutive m).
Proof.
  intros Hm Hn sc.
  pose proof (adjacent_pairs_bound m Hm) as Hb.
  pose proof (adjacent_pairs_full m Hm) as Hfull.
  assert (Hpos : 0 < n).
  { subst n. destruct m; [congruence|]. unfold len. simpl. lia. }
  unfold sc, Qlt, Qle, Qeq. cbn [Qnum Qden].
  rewrite Z2Pos.id by assumption.
  split; [lia|]. split; [lia|].
  rewrite <- Hfull. lia.
Qed.

Lemma match_sound_nonempty (text pattern : str) (m : list Z) :
  pattern <> [] -> match_sound text pattern m -> m <> [].
Proof.
  intros Hp (_ & Hlen & _) ->. apply Hp. apply len_nil_iff. rewrite <- Hlen.
  reflexivity.
Qed.

(** C1.  For every line and every non-empty query, a filter pass ends
    normally, and each match it records has strictly increasing 1-based
    positions, exactly [len(query)] of them, the k-th of which points at a
    character of the lowercase text equal to the k-th query character. *)
Theorem filter_matches_sound (self : AerojumpLine) (pattern : str) :
  wf_line self -> pattern <> [] ->
  exists self',
    filter pattern self = Ok self' /\
    raw_lower self' = raw_lower self /\
    Forall (match_sound (raw_lower self') pattern) (matches self').
Proof.
  intros Hwf Hp. destruct (filter_spec pattern self Hwf Hp) as [ms [E Hms]].
  eexists. split; [exact E|]. split; [reflexivity|exact Hms].
Qed.

Lemma filter_matches_sound_witness :
  wf_line line_foobar /\ s "fbo" <> [] /\
  exists self',
    filter (s "fbo") line_foobar = Ok self' /\
    raw_lower self' = raw_lower line_foobar /\
    Forall (match_sound (raw_lower self') (s "fbo")) (matches self').
Proof.
  split; [concrete_wf_line|]. split; [discriminate|].
  apply (filter_matches_sound line_foobar (s "fbo"));
    [concrete_wf_line|discriminate].
Defined.

(** C2.  After a filter pass with a non-empty query the line holds one
    score per match, equal to (1 + the number of adjacent position pairs
    that differ by exactly 1) divided by the query length; every score is
    in (0, 1], and it is 1 exactly when the positions are consecutive. *)
Theorem filter_scores (self : AerojumpLine) (pattern : str) :
  wf_line self -> pattern <> [] ->
  exists self' ss,
    filter pattern self = Ok self' /\
    scores self' = Some ss /\
    Forall2 (fun m sc =>
               (sc == inject_Z (1 + adjacent_pairs m) / inject_Z (len pattern))%Q /\
               (0 < sc)%Q /\ (sc <= 1)%Q /\
               ((sc == 1)%Q <-> consecutive m))
      (matches self') ss.
Proof.
  intros Hwf Hp. destruct (filter_spec pattern self Hwf Hp) as [ms [E Hms]].
  eexists. eexists. split; [exact E|]. split; [reflexivity|].
  cbn [matches]. apply Forall2_map_r.
  eapply Forall_impl; [|exact Hms]. intros m Hm. cbv beta.
  assert (Hplen : 0 < len pattern).
  { destruct pattern; [congruence|]. unfold len. simpl. lia. }
  split; [apply score_value; assumption|].
  apply score_bounds.
  - eapply match_sound_nonempty; eassumption.
  - destruct Hm as (_ & Hlen & _). exact Hlen.
Qed.

Lemma filter_scores_witness :
  wf_line line_foobar /\ s "fbo" <> [] /\
  exists self' ss,
    filter (s "fbo") line_foobar = Ok self' /\
    scores self' = Some ss /\
    Forall2 (fun m sc =>
               (sc == inject_Z (1 + adjacent_pairs m) / inject_Z (len (s "fbo")))%Q /\
               (0 < sc)%Q /\ (sc <= 1)%Q /\
               ((sc == 1)%Q <-> consecutive m))
      (matches self') ss.
Proof.
  split; [concrete_wf_line|]. split; [discriminate|].
  apply (filter_scores line_foobar (s "fbo")); [concrete_wf_line|discriminate].
Defined.

Example filter_foobar :
  exists self',
    filter (s "fbo") line_foobar = Ok self' /\
    matches self' = [[1; 4; 10]; [8; 9; 10]] /\
    scores self' = Some [1 # 3; 3 # 3]%Q.
Proof. eexists. split; [vm_compute; reflexivity|]. split; reflexivity. Qed.

(** ** [Aerojump.__get_filtered_lines] *)

Lemma filter_total (pattern : str) (l : AerojumpLine) :
  wf_line l -> exists l1, filter pattern l = Ok l1.
Proof.
  intros Hwf. destruct pattern as [|p0 pattern'] eqn:Hp.
  - eexists. apply filter_empty.
  - destruct (filter_spec (p0 :: pattern') l Hwf) as [ms [E _]]; [discriminate|].
    eexists. exact E.
Qed.

Lemma filtered_from_facts (pattern : str) (l0 l : AerojumpLine) :
  wf_line l0 -> filtered_from pattern l0 l ->
  raw l = raw l0 /\ raw_lower l = raw_lower l0 /\ num l = num l0 /\
  (pattern = [] -> matches l = []) /\
  (matches l <> [] -> scored_line l) /\
  (pattern <> [] -> Forall (match_sound (raw_lower l) pattern) (matches l)).
Proof.
  intros Hwf (l1 & E & Hraw & Hlow & Hnum & Hms & Hss).
  destruct pattern as [|p0 pattern'].
  - rewrite filter_empty in E. injection E as <-.
    unfold scored_line. rewrite Hraw, Hlow, Hnum, Hms. cbn.
    split; [reflexivity|]. split; [reflexivity|]. split; [reflexivity|].
    split; [reflexivity|]. split; intros; congruence.
  - destruct (filter_spec (p0 :: pattern') l0 Hwf) as [ms [E' Hsound]];
      [discriminate|].
    rewrite E' in E. injection E as <-.
    unfold scored_line. rewrite Hraw, Hlow, Hnum, Hms, Hss. cbn.
    split; [reflexivity|]. split; [reflexivity|]. split; [reflexivity|].
    split; [discriminate|]. split.
    + intros Hne. split; [assumption|].
      eexists. split; [reflexivity|apply length_map].
    + intros _. exact Hsound.
Qed.

Lemma has_matches_true (l : AerojumpLine) : has_matches l = true <-> matches l <> [].
Proof.
  unfold has_matches. destruct (matches l); split; congruence.
Qed.

Lemma filtered_lines_loop (pattern : str) :
  forall (ls0 ls fl : list AerojumpLine),
    Forall (fun l => exists l1, filter pattern l = Ok l1) ls0 ->
    exists ls',
      for_each ls0 (filtered_lines_step pattern) (ls, fl, len fl)
      = Ok (ls ++ ls', fl ++ List.filter has_matches ls',
            len (fl ++ List.filter has_matches ls')) /\
      Forall2 (filtered_from pattern) ls0 ls' /\
      (forall k l, nth_error (List.filter has_matches ls') k = Some l ->
                   filt_index l = Some (len fl + Z.of_nat k)).
Proof.
  induction ls0 as [|l0 ls0 IH]; intros ls fl Hall.
  - exists []. cbn. rewrite !app_nil_r. split; [reflexivity|].
    split; [constructor|]. intros k l H. destruct k; discriminate.
  - inversion Hall as [|? ? [l1 E1] Hall']; subst.
    cbn [for_each]. unfold filtered_lines_step at 1. rewrite E1. cbn [bind].
    destruct (has_matches l1) eqn:Hm.
    + set (l2 := set_filt_index l1 (len fl)).
      destruct (IH (ls ++ [l2]) (fl ++ [l2]) Hall') as (ls' & E & HF & Hidx).
      replace (len fl + 1) with (len (fl ++ [l2])) by (rewrite len_app; reflexivity).
      exists (l2 :: ls'). cbn [List.filter].
      replace (has_matches l2) with true by (symmetry; exact Hm).
      cbn [bind]. rewrite E. rewrite <- !app_assoc. cbn [app]. split; [reflexivity|].
      split.
      * constructor; [|assumption]. exists l1. repeat split; assumption || reflexivity.
      * intros k l H. destruct k as [|k]; cbn in H.
        -- injection H as <-. cbn. f_equal. lia.
        -- apply Hidx in H. rewrite H, len_app. f_equal. unfold len. cbn. lia.
    + destruct (IH (ls ++ [l1]) fl Hall') as (ls' & E & HF & Hidx).
      exists (l1 :: ls'). cbn [List.filter]. rewrite Hm.
      cbn [bind]. rewrite E. rewrite <- !app_assoc. cbn [app]. split; [reflexivity|].
      split; [|assumption].
      constructor; [|assumption]. exists l1. repeat split; assumption || reflexivity.
Qed.

Lemma get_filtered_lines_spec (pattern : str) (lines : list AerojumpLine) :
  Forall (fun l => exists l1, filter pattern l = Ok l1) lines ->
  exists ls,
    get_filtered_lines pattern lines = Ok (ls, List.filter has_matches ls) /\
    Forall2 (filtered_from pattern) lines ls /\
    (forall k l, nth_error (List.filter has_matches ls) k = Some l ->
                 filt_index l = Some (Z.of_nat k)).
Proof.
  intros Hall. unfold get_filtered_lines.
  destruct (filtered_lines_loop pattern lines [] [] Hall) as (ls & E & HF & Hidx).
  exists ls. change (len (@nil AerojumpLine)) with 0 in E. rewrite E.
  cbn [bind app]. repeat split; assumption.
Qed.

Lemma filter_empty_total (lines : list AerojumpLine) :
  Forall (fun l => exists l1, filter [] l = Ok l1) lines.
Proof.
  apply Forall_forall. intros l _. eexists. apply filter_empty.
Qed.

Lemma filter_wf_total (pattern : str) (lines : list AerojumpLine) :
  Forall wf_line lines ->
  Forall (fun l => exists l1, filter pattern l = Ok l1) lines.
Proof.
  intros H. eapply Forall_impl; [|exact H]. intros l. apply filter_total.
Qed.

(** What the lines look like after a pass, given where they came from. *)
Lemma filtered_from_all (pattern : str) (ls0 ls : list AerojumpLine) :
  Forall wf_line ls0 -> Forall2 (filtered_from pattern) ls0 ls ->
  Forall wf_line ls /\
  map raw ls = map raw ls0 /\
  Forall scored_line (List.filter has_matches ls) /\
  (pattern = [] -> List.filter has_matches ls = []).
Proof.
  intros Hwf HF. induction HF as [|l0 l ls0 ls H0 HF IH].
  - repeat split; constructor.
  - inversion Hwf as [|? ? Hwf0 Hwf']; subst.
    destruct (IH Hwf') as (IH1 & IH2 & IH3 & IH4).
    destruct (filtered_from_facts pattern l0 l Hwf0 H0)
      as (Hraw & Hlow & Hnum & Hnil & Hsc & _).
    repeat split.
    + constructor; [|assumption]. unfold wf_line in *. congruence.
    + cbn. congruence.
    + cbn. destruct (has_matches l) eqn:Hm; [|assumption].
      constructor; [|assumption]. apply Hsc. apply has_matches_true. assumption.
    + intros Hp. cbn. unfold has_matches at 1. rewrite (Hnil Hp). auto.
Qed.

(** ** [Aerojump.__best_match_index_for] *)

Lemma Qgtb_true (a b : Q) : Qgtb a b = true <-> (b < a)%Q.
Proof.
  unfold Qgtb. rewrite negb_true_iff. split.
  - intros H. apply Qnot_le_lt. intros Hle. apply Qle_bool_iff in Hle. congruence.
  - intros H. destruct (Qle_bool a b) eqn:E; [|reflexivity].
    apply Qle_bool_iff in E. exfalso. exact (Qlt_not_le _ _ H E).
Qed.

Lemma Qgtb_false (a b : Q) : Qgtb a b = false <-> (a <= b)%Q.
Proof.
  unfold Qgtb. rewrite negb_false_iff. apply Qle_bool_iff.
Qed.

Lemma range_snoc (k : nat) :
  range 0 (Z.of_nat (S k)) = range 0 (Z.of_nat k) ++ [Z.of_nat k].
Proof.
  unfold range. rewrite !Z.sub_0_r, !Nat2Z.id, seq_S, map_app. reflexivity.
Qed.

Lemma best_match_loop (l : AerojumpLine) (ss : list Q) :
  scores l = Some ss -> (0 < length ss)%nat ->
  forall k : nat, (k <= length ss)%nat ->
  exists b sc,
    for_each (range 0 (Z.of_nat k)) (best_match_step l) 0 = Ok b /\
    0 <= b < Z.max 1 (Z.of_nat k) /\
    nth_error ss (Z.to_nat b) = Some sc /\
    (forall j x, (j < k)%nat -> nth_error ss j = Some x -> (x <= sc)%Q) /\
    (forall j x, nth_error ss j = Some x -> Z.of_nat j < b -> (x < sc)%Q).
Proof.
  intros Hss Hpos. induction k as [|k IH]; intros Hk.
  - destruct (nth_error ss 0) as [sc|] eqn:E0;
      [|apply nth_error_None in E0; lia].
    exists 0, sc. cbn. repeat split; try lia; try assumption; intros; lia.
  - destruct IH as (b & sc & E & Hb & Hsc & Hmax & Hlow); [lia|].
    rewrite range_snoc, for_each_app, E. cbn [bind for_each].
    unfold best_match_step. rewrite Hss. cbn [attr bind].
    destruct (py_get_in_range ss (Z.of_nat k)) as (a & Ea & Ha);
      [unfold len; lia|].
    destruct (py_get_in_range ss b) as (sc' & Eb & Hb');
      [unfold len; lia|].
    rewrite Hb' in Hsc. injection Hsc as ->.
    rewrite Ea, Eb. cbn [bind]. rewrite Nat2Z.id in Ha.
    destruct (Qgtb a sc) eqn:Hgt.
    + apply Qgtb_true in Hgt. exists (Z.of_nat k), a.
      split; [reflexivity|]. split; [lia|]. rewrite Nat2Z.id.
      split; [assumption|]. split.
      * intros j x Hj Hx. destruct (Nat.eq_dec j k) as [->|Hne].
        -- rewrite Ha in Hx. injection Hx as <-. apply Qle_refl.
        -- apply Qlt_le_weak. eapply Qle_lt_trans; [|exact Hgt].
           apply (Hmax j x); [lia|assumption].
      * intros j x Hx Hj. eapply Qle_lt_trans; [|exact Hgt].
        apply (Hmax j x); [lia|assumption].
    + apply Qgtb_false in Hgt. exists b, sc.
      split; [reflexivity|]. split; [lia|]. split; [assumption|]. split.
      * intros j x Hj Hx. destruct (Nat.eq_dec j k) as [->|Hne].
        -- rewrite Ha in Hx. injection Hx as <-. assumption.
        -- apply (Hmax j x); [lia|assumption].
      * assumption.
Qed.

Lemma best_match_index_for_spec (l : AerojumpLine) :
  scored_line l ->
  exists b sc ss,
    best_match_index_for l = Ok b /\ best_match l b sc /\
    scores l = Some ss /\ py_get ss b = Ok sc.
Proof.
  intros (Hne & ss & Hss & Hlen).
  assert (Hpos : (0 < length ss)%nat).
  { rewrite Hlen. destruct (matches l); [congruence|cbn; lia]. }
  destruct (best_match_loop l ss Hss Hpos (length ss) (le_n _))
    as (b & sc & E & Hb & Hsc & Hmax & Hlow).
  exists b, sc, ss. unfold best_match_index_for, len. rewrite <- Hlen.
  split; [exact E|]. split; [|split; [assumption|]].
  - exists ss. split; [assumption|]. unfold len. rewrite <- Hlen.
    split; [lia|]. split; [assumption|]. split; [|assumption].
    intros j x Hx. apply (Hmax j x); [|assumption].
    apply nth_error_Some. congruence.
  - destruct (py_get_in_range ss b) as (x & Ex & Hx); [unfold len; lia|].
    rewrite Ex. congruence.
Qed.

Lemma best_match_unique (l : AerojumpLine) (b b' : Z) (sc sc' : Q) :
  best_match l b sc -> best_match l b' sc' -> b = b' /\ sc = sc'.
Proof.
  intros (ss & Hss & Hb & Hsc & Hmax & Hlow) (ss' & Hss' & Hb' & Hsc' & Hmax' & Hlow').
  rewrite Hss in Hss'. injection Hss' as <-.
  assert (Hbb : b = b').
  { destruct (Z.lt_trichotomy b b') as [Hlt|[Heq|Hgt]]; [|assumption|]; exfalso.
    - pose proof (Hlow' (Z.to_nat b) sc Hsc ltac:(lia)) as H1.
      pose proof (Hmax (Z.to_nat b') sc' Hsc') as H2.
      exact (Qlt_not_le _ _ H1 H2).
    - pose proof (Hlow (Z.to_nat b') sc' Hsc' ltac:(lia)) as H1.
      pose proof (Hmax' (Z.to_nat b) sc Hsc) as H2.
      exact (Qlt_not_le _ _ H1 H2). }
  subst b'. split; [reflexivity|]. congruence.
Qed.

(** ** [Aerojump.__best_cursor_in] *)

Lemma best_cursor_step_spec (self : Aerojump) (line : AerojumpLine) (s_index : Z)
    (score : Q) (l : AerojumpLine) :
  scored_line l ->
  exists b sc,
    best_match l b sc /\
    best_cursor_step self (line, s_index, score) l
    = Ok (if Qgtb sc score
             || (Qeq_bool sc score
                 && (cursor_distance self l <? cursor_distance self line))
          then (l, b, sc) else (line, s_index, score)).
Proof.
  intros Hl. destruct (best_match_index_for_spec l Hl) as (b & sc & ss & E & Hb & Hss & Eg).
  exists b, sc. split; [assumption|].
  unfold best_cursor_step. rewrite E. cbn [bind]. rewrite Hss. cbn [attr bind].
  rewrite Eg. cbn [bind]. unfold cursor_distance.
  destruct (Qgtb sc score
            || Qeq_bool sc score
               && (Z.abs (fst (og_cursor_pos self) - num l)
                   <? Z.abs (fst (og_cursor_pos self) - num line)));
    reflexivity.
Qed.

Lemma nth_error_middle {A : Type} (pre suf : list A) (x : A) :
  nth_error (pre ++ x :: suf) (length pre) = Some x.
Proof.
  rewrite nth_error_app2 by lia. rewrite Nat.sub_diag. reflexivity.
Qed.

Lemma best_cursor_loop (self : Aerojump) (cands : list AerojumpLine) :
  Forall scored_line cands ->
  forall (suf pre : list AerojumpLine) (line : AerojumpLine) (s_index : Z)
         (score : Q) (idx : nat),
    cands = pre ++ suf ->
    nth_error cands idx = Some line ->
    best_match line s_index score ->
    (idx < Nat.max 1 (length pre))%nat ->
    selected_upto self cands (length pre) idx line score ->
    exists line' s_index' score' idx',
      for_each suf (best_cursor_step self) (line, s_index, score)
      = Ok (line', s_index', score') /\
      nth_error cands idx' = Some line' /\
      best_match line' s_index' score' /\
      selected_upto self cands (length cands) idx' line' score'.
Proof.
  intros Hall. induction suf as [|l suf IH];
    intros pre line s_index score idx Hc Hidx Hbest Hlt Hsel.
  - exists line, s_index, score, idx. rewrite app_nil_r in Hc. subst pre.
    split; [reflexivity|]. split; [|split]; assumption.
  - assert (Hk : nth_error cands (length pre) = Some l)
      by (rewrite Hc; apply nth_error_middle).
    assert (Hl : scored_line l).
    { rewrite Forall_forall in Hall. apply Hall. eapply nth_error_In. exact Hk. }
    destruct (best_cursor_step_spec self line s_index score l Hl) as (b & sc & Hb & E).
    cbn [for_each]. rewrite E. cbn [bind].
    assert (Hc' : cands = (pre ++ [l]) ++ suf)
      by (rewrite <- app_assoc; exact Hc).
    assert (Hlen : length (pre ++ [l]) = S (length pre))
      by (rewrite length_app; cbn; lia).
    destruct (Qgtb sc score
              || Qeq_bool sc score
                 && (cursor_distance self l <? cursor_distance self line)) eqn:Hbetter.
    + apply (IH (pre ++ [l]) l b sc (length pre)); try assumption; [lia|].
      rewrite Hlen. intros j c' b' sc' Hj Hj' Hb'.
      destruct (Nat.eq_dec j (length pre)) as [->|Hne].
      * rewrite Hk in Hj'. injection Hj' as <-.
        destruct (best_match_unique _ _ _ _ _ Hb Hb') as [_ <-].
        split; [apply Qle_refl|]. intros _. split; [lia|]. intros _. lia.
      * destruct (Hsel j c' b' sc' ltac:(lia) Hj' Hb') as [Hle Htie].
        apply orb_true_iff in Hbetter as [Hgt|Heq].
        -- apply Qgtb_true in Hgt.
           assert (Hlt' : (sc' < sc)%Q) by (eapply Qle_lt_trans; eassumption).
           split; [apply Qlt_le_weak; assumption|].
           intros Heq. exfalso. exact (Qlt_not_eq _ _ Hlt' Heq).
        -- apply andb_true_iff in Heq as [Heq Hcloser].
           apply Qeq_bool_iff in Heq. apply Z.ltb_lt in Hcloser.
           split; [rewrite Heq; assumption|].
           intros Heq'. rewrite Heq in Heq'.
           destruct (Htie Heq') as [Hd _]. split; [lia|]. intros Hd'. lia.
    + apply (IH (pre ++ [l]) line s_index score idx); try assumption; [lia|].
      rewrite Hlen. intros j c' b' sc' Hj Hj' Hb'.
      destruct (Nat.eq_dec j (length pre)) as [->|Hne];
        [|apply (Hsel j c' b' sc'); [lia|assumption|assumption]].
      rewrite Hk in Hj'. injection Hj' as <-.
      destruct (best_match_unique _ _ _ _ _ Hb Hb') as [_ <-].
      apply orb_false_iff in Hbetter as [Hgt Heq].
      apply Qgtb_false in Hgt. split; [assumption|].
      intros Heq'. apply Qeq_bool_iff in Heq'. rewrite Heq' in Heq.
      cbn [andb] in Heq. apply Z.ltb_ge in Heq. split; [lia|]. intros _. lia.
Qed.

Lemma best_cursor_in_spec (self : Aerojump) (cands : list AerojumpLine) :
  cands <> [] ->
  Forall scored_line cands ->
  Forall (fun c => exists fi, filt_index c = Some fi) cands ->
  exists k c fi mi sc,
    best_cursor_in self cands = Ok (fi, mi) /\
    nth_error cands k = Some c /\
    filt_index c = Some fi /\
    best_match c mi sc /\
    selected self cands k c sc.
Proof.
  intros Hne Hall Hfi. destruct cands as [|c0 rest] eqn:Hc; [congruence|].
  rewrite <- Hc in *. clear Hne.
  assert (H0 : nth_error cands 0 = Some c0) by (rewrite Hc; reflexivity).
  assert (Hc0 : scored_line c0).
  { rewrite Forall_forall in Hall. apply Hall. eapply nth_error_In. exact H0. }
  destruct (best_match_index_for_spec c0 Hc0) as (b & sc & ss & E & Hb & Hss & Eg).
  destruct (best_cursor_loop self cands Hall cands [] c0 b sc 0%nat)
    as (line & mi & score & idx & El & Hidx & Hbest & Hsel);
    try assumption; try reflexivity.
  { cbn. lia. }
  { intros j c' b' sc' Hj. cbn in Hj. lia. }
  assert (Hline : exists fi, filt_index line = Some fi).
  { rewrite Forall_forall in Hfi. apply Hfi. eapply nth_error_In. exact Hidx. }
  destruct Hline as [fi Hf].
  exists idx, line, fi, mi, score. split.
  - unfold best_cursor_in.
    destruct (py_get_in_range cands 0) as (x & Ex & Hx).
    { rewrite Hc. unfold len. cbn. lia. }
    change (Z.to_nat 0) with 0%nat in Hx. rewrite H0 in Hx. injection Hx as <-.
    rewrite Ex. cbn [bind]. rewrite E. cbn [bind]. rewrite Hss. cbn [attr bind].
    rewrite Eg. cbn [bind]. rewrite El. cbn [bind]. rewrite Hf. reflexivity.
  - split; [|split; [|split]]; assumption.
Qed.

(** ** [Aerojump.__update_highlights] *)

Lemma update_highlights_spec (fl : list AerojumpLine) (cli cmi : Z)
    (l : AerojumpLine) (m : list Z) :
  0 <= cli -> nth_error fl (Z.to_nat cli) = Some l ->
  0 <= cmi -> nth_error (matches l) (Z.to_nat cmi) = Some m ->
  update_highlights fl cli cmi = Ok (match_spans fl ++ spans_of_match l m).
Proof.
  intros Hcli Hl Hcmi Hm. unfold update_highlights.
  destruct (py_get_in_range fl cli) as (l' & El & Hl').
  { split; [assumption|]. unfold len.
    assert (Z.to_nat cli < length fl)%nat by (apply nth_error_Some; congruence). lia. }
  destruct (py_get_in_range (matches l) cmi) as (m' & Em & Hm').
  { split; [assumption|]. unfold len.
    assert (Z.to_nat cmi < length (matches l))%nat
      by (apply nth_error_Some; congruence). lia. }
  rewrite Hl in Hl'. injection Hl' as <-. rewrite Hm in Hm'. injection Hm' as <-.
  rewrite El. cbn [bind]. rewrite Em. reflexivity.
Qed.

Lemma cursor_spans_match_spans (fl : list AerojumpLine) :
  cursor_spans (match_spans fl) = [].
Proof.
  unfold cursor_spans, match_spans.
  induction fl as [|l fl IH]; [reflexivity|].
  cbn [flat_map]. rewrite filter_app, IH, app_nil_r.
  induction (matches l) as [|m ms IHm]; [reflexivity|].
  cbn [flat_map]. rewrite filter_app, IHm, app_nil_r.
  induction m as [|p m IHp]; [reflexivity|exact IHp].
Qed.

Lemma cursor_spans_spans_of_match (l : AerojumpLine) (m : list Z) :
  cursor_spans (spans_of_match l m) = spans_of_match l m.
Proof.
  unfold cursor_spans, spans_of_match.
  induction m as [|p m IH]; [reflexivity|]. cbn. f_equal. exact IH.
Qed.

Lemma cursor_spans_update (fl : list AerojumpLine) (l : AerojumpLine) (m : list Z) :
  cursor_spans (match_spans fl ++ spans_of_match l m) = spans_of_match l m.
Proof.
  unfold cursor_spans at 1. rewrite filter_app.
  fold (cursor_spans (match_spans fl)). fold (cursor_spans (spans_of_match l m)).
  rewrite cursor_spans_match_spans, cursor_spans_spans_of_match. reflexivity.
Qed.

(** ** [Aerojump.apply_filter] *)

Lemma candidates_subset (self : Aerojump) (fl : list AerojumpLine) (c : AerojumpLine) :
  In c (candidates self fl) -> In c fl.
Proof.
  unfold candidates. destruct (visible_lines self fl) as [|v vs] eqn:Hv.
  - auto.
  - rewrite <- Hv. unfold visible_lines. intros H. apply filter_In in H. tauto.
Qed.

Lemma candidates_nonempty (self : Aerojump) (fl : list AerojumpLine) :
  fl <> [] -> candidates self fl <> [].
Proof.
  unfold candidates. destruct (visible_lines self fl); [auto|discriminate].
Qed.

Lemma nth_error_lt_len {A : Type} (l : list A) (i : Z) (x : A) :
  0 <= i -> nth_error l (Z.to_nat i) = Some x -> 0 <= i < len l.
Proof.
  intros Hi H. split; [assumption|]. unfold len.
  assert (Z.to_nat i < length l)%nat by (apply nth_error_Some; congruence). lia.
Qed.

(** A pass that matches no line: only [filter_string], the lines,
    [filtered_lines] and [has_filter_results] are assigned. *)
Lemma apply_filter_no_results (pattern : str) (self : Aerojump) (ls : list AerojumpLine) :
  get_filtered_lines pattern (lines self) = Ok (ls, []) ->
  apply_filter pattern self
  = Ok (mkAerojump (log_str self) (og_top_line self) (og_cursor_pos self)
          (num_lines self) pattern ls (cursor_line_index self)
          (cursor_match_index self) false (Some []) (highlights self)).
Proof.
  intros E. unfold apply_filter. cbn [lines set_filter_string]. rewrite E.
  reflexivity.
Qed.

(** A pass that matches some line: the cursor goes to the selected
    candidate and the highlights are rebuilt for it. *)
Lemma apply_filter_results (pattern : str) (self : Aerojump)
    (ls fl : list AerojumpLine) :
  get_filtered_lines pattern (lines self) = Ok (ls, fl) ->
  fl <> [] ->
  Forall scored_line fl ->
  (forall k l, nth_error fl k = Some l -> filt_index l = Some (Z.of_nat k)) ->
  exists k c sc m fi mi,
    nth_error (candidates self fl) k = Some c /\
    selected self (candidates self fl) k c sc /\
    0 <= fi /\ nth_error fl (Z.to_nat fi) = Some c /\
    best_match c mi sc /\
    nth_error (matches c) (Z.to_nat mi) = Some m /\
    apply_filter pattern self
    = Ok (mkAerojump (log_str self) (og_top_line self) (og_cursor_pos self)
            (num_lines self) pattern ls fi mi true (Some fl)
            (Some (match_spans fl ++ spans_of_match c m))).
Proof.
  intros E Hne Hsc Hidx.
  assert (Hcs : Forall scored_line (candidates self fl)).
  { rewrite Forall_forall in *. intros c Hc. apply Hsc.
    eapply candidates_subset. exact Hc. }
  assert (Hcf : Forall (fun c => exists fi, filt_index c = Some fi) (candidates self fl)).
  { rewrite Forall_forall. intros c Hc. apply candidates_subset in Hc.
    apply In_nth_error in Hc as [k Hk]. eexists. apply (Hidx k c Hk). }
  destruct (best_cursor_in_spec self (candidates self fl)
              (candidates_nonempty self fl Hne) Hcs Hcf)
    as (k & c & fi & mi & sc & Eb & Hk & Hfi & Hbest & Hsel).
  assert (Hin : In c fl) by (eapply candidates_subset, nth_error_In; exact Hk).
  apply In_nth_error in Hin as [kf Hkf].
  rewrite (Hidx kf c Hkf) in Hfi. injection Hfi as <-.
  assert (Hm : exists m, nth_error (matches c) (Z.to_nat mi) = Some m).
  { destruct Hbest as (ss & _ & Hb & _).
    destruct (nth_error (matches c) (Z.to_nat mi)) as [m|] eqn:En; [eauto|].
    apply nth_error_None in En. unfold len in Hb. lia. }
  destruct Hm as [m Hm].
  exists k, c, sc, m, (Z.of_nat kf), mi.
  rewrite Nat2Z.id.
  split; [assumption|]. split; [assumption|]. split; [lia|].
  split; [assumption|]. split; [assumption|]. split; [assumption|].
  unfold apply_filter. cbn [lines set_filter_string]. rewrite E. cbn [bind].
  cbn [has_filter_results set_has_filter_results].
  replace (0 <? len fl) with true.
  2:{ symmetry. apply Z.ltb_lt. destruct fl; [congruence|]. unfold len. cbn. lia. }
  unfold set_cursor_to_best_match.
  cbn [filtered_lines set_has_filter_results set_filtered_lines attr bind].
  match goal with
  | |- context [match ?v with [] => best_cursor_in ?s fl | _ :: _ => _ end] =>
      replace (match v with [] => best_cursor_in s fl
                       | _ :: _ => best_cursor_in s v end)
        with (best_cursor_in self (candidates self fl))
  end.
  2:{ unfold candidates, visible_lines, is_visible. cbn.
      destruct (List.filter _ fl); reflexivity. }
  rewrite Eb. cbn [bind fst snd]. unfold refresh_highlights.
  cbn [filtered_lines set_cursor_match_index set_cursor_line_index
       set_has_filter_results set_filtered_lines attr bind
       cursor_line_index cursor_match_index].
  rewrite (update_highlights_spec fl (Z.of_nat kf) mi c m);
    [reflexivity|lia|rewrite Nat2Z.id; assumption| |assumption].
  destruct Hbest as (ss & _ & Hb & _). lia.
Qed.

Lemma apply_filter_lines (pattern : str) (self : Aerojump) :
  wf self ->
  exists ls,
    get_filtered_lines pattern (lines self) = Ok (ls, List.filter has_matches ls) /\
    Forall2 (filtered_from pattern) (lines self) ls /\
    Forall wf_line ls /\
    map raw ls = map raw (lines self) /\
    Forall scored_line (List.filter has_matches ls) /\
    (pattern = [] -> List.filter has_matches ls = []) /\
    (forall k l, nth_error (List.filter has_matches ls) k = Some l ->
                 filt_index l = Some (Z.of_nat k)).
Proof.
  intros Hwf.
  destruct (get_filtered_lines_spec pattern (lines self)
              (filter_wf_total pattern _ Hwf)) as (ls & E & HF & Hidx).
  destruct (filtered_from_all pattern _ ls Hwf HF) as (H1 & H2 & H3 & H4).
  exists ls. repeat (split; [assumption|]). assumption.
Qed.

(** ** The navigation commands *)

Lemma refresh_highlights_spec (self : Aerojump) (fl : list AerojumpLine)
    (l : AerojumpLine) (m : list Z) :
  filtered_lines self = Some fl ->
  0 <= cursor_line_index self ->
  nth_error fl (Z.to_nat (cursor_line_index self)) = Some l ->
  0 <= cursor_match_index self ->
  nth_error (matches l) (Z.to_nat (cursor_match_index self)) = Some m ->
  refresh_highlights self
  = Ok (set_highlights self (match_spans fl ++ spans_of_match l m)).
Proof.
  intros Hfl Hi Hl Hj Hm. unfold refresh_highlights. rewrite Hfl. cbn [attr bind].
  rewrite (update_highlights_spec fl _ _ l m) by assumption. reflexivity.
Qed.

Lemma nth_error_in_range {A : Type} (l : list A) (i : Z) :
  0 <= i < len l -> exists x, nth_error l (Z.to_nat i) = Some x.
Proof.
  intros H. destruct (nth_error l (Z.to_nat i)) as [x|] eqn:E; [eauto|].
  apply nth_error_None in E. unfold len in H. lia.
Qed.

Lemma first_match (fl : list AerojumpLine) (i : Z) (l : AerojumpLine) :
  Forall (fun l => matches l <> []) fl ->
  nth_error fl (Z.to_nat i) = Some l ->
  exists m, nth_error (matches l) 0 = Some m /\ 0 < len (matches l).
Proof.
  intros Hall Hl. rewrite Forall_forall in Hall.
  specialize (Hall l (nth_error_In _ _ Hl)).
  destruct (matches l) as [|m ms]; [congruence|].
  exists m. split; [reflexivity|]. unfold len. cbn. lia.
Qed.

Lemma cursor_line_up_spec (self : Aerojump) (fl : list AerojumpLine) :
  filtered_lines self = Some fl ->
  Forall (fun l => matches l <> []) fl ->
  0 <= cursor_line_index self < len fl ->
  exists l m,
    nth_error fl (Z.to_nat (Z.max (cursor_line_index self - 1) 0)) = Some l /\
    nth_error (matches l) 0 = Some m /\
    cursor_line_up self
    = Ok (mkAerojump (log_str self) (og_top_line self) (og_cursor_pos self)
            (num_lines self) (filter_string self) (lines self)
            (Z.max (cursor_line_index self - 1) 0) 0
            (has_filter_results self) (Some fl)
            (Some (match_spans fl ++ spans_of_match l m))).
Proof.
  intros Hfl Hall Hi.
  destruct (nth_error_in_range fl (Z.max (cursor_line_index self - 1) 0)) as [l Hl];
    [lia|].
  destruct (first_match fl _ l Hall Hl) as (m & Hm & _).
  exists l, m. split; [assumption|]. split; [assumption|].
  unfold cursor_line_up. cbn [cursor_line_index set_cursor_line_index].
  destruct (cursor_line_index self - 1 <? 0) eqn:Hneg.
  - apply Z.ltb_lt in Hneg.
    replace (Z.max (cursor_line_index self - 1) 0) with 0 in * by lia.
    rewrite (refresh_highlights_spec _ fl l m); try assumption; try reflexivity.
    unfold_setters. rewrite Hfl. reflexivity.
  - apply Z.ltb_ge in Hneg.
    replace (Z.max (cursor_line_index self - 1) 0)
      with (cursor_line_index self - 1) in * by lia.
    rewrite (refresh_highlights_spec _ fl l m); try assumption; try reflexivity.
    unfold_setters. rewrite Hfl. reflexivity.
Qed.

Lemma cursor_line_down_spec (self : Aerojump) (fl : list AerojumpLine) :
  filtered_lines self = Some fl ->
  Forall (fun l => matches l <> []) fl ->
  0 <= cursor_line_index self < len fl ->
  exists l m,
    nth_error fl (Z.to_nat (Z.min (cursor_line_index self + 1) (len fl - 1))) = Some l /\
    nth_error (matches l) 0 = Some m /\
    cursor_line_down self
    = Ok (mkAerojump (log_str self) (og_top_line self) (og_cursor_pos self)
            (num_lines self) (filter_string self) (lines self)
            (Z.min (cursor_line_index self + 1) (len fl - 1)) 0
            (has_filter_results self) (Some fl)
            (Some (match_spans fl ++ spans_of_match l m))).
Proof.
  intros Hfl Hall Hi.
  destruct (nth_error_in_range fl (Z.min (cursor_line_index self + 1) (len fl - 1)))
    as [l Hl]; [lia|].
  destruct (first_match fl _ l Hall Hl) as (m & Hm & _).
  exists l, m. split; [assumption|]. split; [assumption|].
  unfold cursor_line_down.
  cbn [filtered_lines cursor_line_index set_cursor_line_index].
  rewrite Hfl. cbn [attr bind].
  destruct (len fl <=? cursor_line_index self + 1) eqn:Hover.
  - apply Z.leb_le in Hover.
    replace (Z.min (cursor_line_index self + 1) (len fl - 1))
      with (len fl - 1) in * by lia.
    rewrite (refresh_highlights_spec _ fl l m); try assumption; try reflexivity;
      try (cbn; lia).
    unfold_setters. rewrite Hfl. reflexivity.
  - apply Z.leb_gt in Hover.
    replace (Z.min (cursor_line_index self + 1) (len fl - 1))
      with (cursor_line_index self + 1) in * by lia.
    rewrite (refresh_highlights_spec _ fl l m); try assumption; try reflexivity;
      try (cbn; lia).
    unfold_setters. rewrite Hfl. reflexivity.
Qed.

Lemma cursor_line_up_ignores_match_index (self : Aerojump) (v : Z) :
  cursor_line_up (set_cursor_match_index self v) = cursor_line_up self.
Proof.
  unfold cursor_line_up. unfold_setters.
  destruct (cursor_line_index self - 1 <? 0); reflexivity.
Qed.

Lemma cursor_line_down_ignores_match_index (self : Aerojump) (v : Z) :
  cursor_line_down (set_cursor_match_index self v) = cursor_line_down self.
Proof.
  unfold cursor_line_down. unfold_setters.
  destruct (filtered_lines self) as [fl|]; [|reflexivity]. cbn [attr bind].
  destruct (len fl <=? cursor_line_index self + 1); reflexivity.
Qed.

Lemma cursor_match_next_overflow (self : Aerojump) (fl : list AerojumpLine)
    (l : AerojumpLine) :
  filtered_lines self = Some fl ->
  0 <= cursor_line_index self ->
  nth_error fl (Z.to_nat (cursor_line_index self)) = Some l ->
  len (matches l) <= cursor_match_index self + 1 ->
  cursor_match_next self = cursor_line_down self.
Proof.
  intros Hfl Hi Hl Hover. unfold cursor_match_next.
  cbn [filtered_lines set_cursor_match_index cursor_line_index cursor_match_index].
  rewrite Hfl. cbn [attr bind].
  destruct (py_get_in_range fl (cursor_line_index self)) as (l' & El & Hl').
  { eapply nth_error_lt_len; eassumption. }
  rewrite Hl in Hl'. injection Hl' as <-. rewrite El. cbn [bind].
  replace (len (matches l) <=? cursor_match_index self + 1) with true
    by (symmetry; apply Z.leb_le; assumption).
  apply cursor_line_down_ignores_match_index.
Qed.

Lemma cursor_match_next_step (self : Aerojump) (fl : list AerojumpLine)
    (l : AerojumpLine) :
  filtered_lines self = Some fl ->
  0 <= cursor_line_index self ->
  nth_error fl (Z.to_nat (cursor_line_index self)) = Some l ->
  0 <= cursor_match_index self ->
  cursor_match_index self + 1 < len (matches l) ->
  exists m,
    nth_error (matches l) (Z.to_nat (cursor_match_index self + 1)) = Some m /\
    cursor_match_next self
    = Ok (mkAerojump (log_str self) (og_top_line self) (og_cursor_pos self)
            (num_lines self) (filter_string self) (lines self)
            (cursor_line_index self) (cursor_match_index self + 1)
            (has_filter_results self) (Some fl)
            (Some (match_spans fl ++ spans_of_match l m))).
Proof.
  intros Hfl Hi Hl Hj Hin.
  destruct (nth_error_in_range (matches l) (cursor_match_index self + 1)) as [m Hm];
    [lia|].
  exists m. split; [assumption|]. unfold cursor_match_next.
  cbn [filtered_lines set_cursor_match_index cursor_line_index cursor_match_index].
  rewrite Hfl. cbn [attr bind].
  destruct (py_get_in_range fl (cursor_line_index self)) as (l' & El & Hl').
  { eapply nth_error_lt_len; eassumption. }
  rewrite Hl in Hl'. injection Hl' as <-. rewrite El. cbn [bind].
  replace (len (matches l) <=? cursor_match_index self + 1) with false
    by (symmetry; apply Z.leb_gt; assumption).
  rewrite (refresh_highlights_spec _ fl l m); try assumption; try (cbn; lia).
  unfold_setters. rewrite Hfl. reflexivity.
Qed.

Lemma cursor_match_prev_step (self : Aerojump) (fl : list AerojumpLine)
    (l : AerojumpLine) :
  filtered_lines self = Some fl ->
  0 <= cursor_line_index self ->
  nth_error fl (Z.to_nat (cursor_line_index self)) = Some l ->
  0 <= cursor_match_index self - 1 ->
  cursor_match_index self < len (matches l) ->
  exists m,
    nth_error (matches l) (Z.to_nat (cursor_match_index self - 1)) = Some m /\
    cursor_match_prev self
    = Ok (mkAerojump (log_str self) (og_top_line self) (og_cursor_pos self)
            (num_lines self) (filter_string self) (lines self)
            (cursor_line_index self) (cursor_match_index self - 1)
            (has_filter_results self) (Some fl)
            (Some (match_spans fl ++ spans_of_match l m))).
Proof.
  intros Hfl Hi Hl Hj Hin.
  destruct (nth_error_in_range (matches l) (cursor_match_index self - 1)) as [m Hm];
    [lia|].
  exists m. split; [assumption|]. unfold cursor_match_prev.
  cbn [set_cursor_match_index cursor_match_index].
  replace (cursor_match_index self - 1 <? 0) with false
    by (symmetry; apply Z.ltb_ge; assumption).
  rewrite (refresh_highlights_spec _ fl l m); try assumption; try (cbn; lia).
  unfold_setters. rewrite Hfl. reflexivity.
Qed.

(** When [cursor_match_prev] underflows, the highlights are those that
    [cursor_line_up] computed for match 0 of the new line; the match index
    is moved to the last match afterwards. *)
Lemma cursor_match_prev_underflow (self : Aerojump) (fl : list AerojumpLine) :
  filtered_lines self = Some fl ->
  Forall (fun l => matches l <> []) fl ->
  0 <= cursor_line_index self < len fl ->
  cursor_match_index self - 1 < 0 ->
  exists l m,
    nth_error fl (Z.to_nat (Z.max (cursor_line_index self - 1) 0)) = Some l /\
    nth_error (matches l) 0 = Some m /\
    cursor_match_prev self
    = Ok (mkAerojump (log_str self) (og_top_line self) (og_cursor_pos self)
            (num_lines self) (filter_string self) (lines self)
            (Z.max (cursor_line_index self - 1) 0) (len (matches l) - 1)
            (has_filter_results self) (Some fl)
            (Some (match_spans fl ++ spans_of_match l m))).
Proof.
  intros Hfl Hall Hi Hneg.
  destruct (cursor_line_up_spec self fl Hfl Hall Hi) as (l & m & Hl & Hm & E).
  exists l, m. split; [assumption|]. split; [assumption|].
  unfold cursor_match_prev. cbn [set_cursor_match_index cursor_match_index].
  replace (cursor_match_index self - 1 <? 0) with true
    by (symmetry; apply Z.ltb_lt; assumption).
  change (mkAerojump (log_str self) (og_top_line self) (og_cursor_pos self)
            (num_lines self) (filter_string self) (lines self)
            (cursor_line_index self) (cursor_match_index self - 1)
            (has_filter_results self) (filtered_lines self) (highlights self))
    with (set_cursor_match_index self (cursor_match_index self - 1)).
  rewrite cursor_line_up_ignores_match_index, E. cbn [bind filtered_lines attr].
  cbn [cursor_line_index].
  destruct (py_get_in_range fl (Z.max (cursor_line_index self - 1) 0))
    as (l' & El & Hl'); [lia|].
  rewrite Hl in Hl'. injection Hl' as <-. rewrite El. reflexivity.
Qed.

(** ** The cursor indices stay valid *)

Lemma nav_valid_intro (self : Aerojump) (fl : list AerojumpLine) (l : AerojumpLine) :
  filtered_lines self = Some fl ->
  Forall (fun l => matches l <> []) fl ->
  0 <= cursor_line_index self ->
  nth_error fl (Z.to_nat (cursor_line_index self)) = Some l ->
  0 <= cursor_match_index self < len (matches l) ->
  nav_valid self fl.
Proof.
  intros Hfl Hall Hi Hl Hj. split; [assumption|]. split; [assumption|].
  exists l. split; [eapply nth_error_lt_len; eassumption|].
  split; assumption.
Qed.

Lemma cursor_line_up_valid (self : Aerojump) (fl : list AerojumpLine) :
  nav_valid self fl ->
  exists self',
    cursor_line_up self = Ok self' /\ nav_valid self' fl /\
    cursor_line_index self' = Z.max (cursor_line_index self - 1) 0 /\
    cursor_match_index self' = 0.
Proof.
  intros (Hfl & Hall & l & Hi & Hl & Hj).
  destruct (cursor_line_up_spec self fl Hfl Hall Hi) as (l' & m & Hl' & Hm & E).
  eexists. split; [exact E|]. split; [|split; reflexivity].
  apply nav_valid_intro with (l := l'); cbn; try assumption; try reflexivity; try lia.
  destruct (first_match fl _ l' Hall Hl') as (_ & _ & Hpos). lia.
Qed.

Lemma cursor_line_down_valid (self : Aerojump) (fl : list AerojumpLine) :
  nav_valid self fl ->
  exists self',
    cursor_line_down self = Ok self' /\ nav_valid self' fl /\
    cursor_line_index self' = Z.min (cursor_line_index self + 1) (len fl - 1) /\
    cursor_match_index self' = 0.
Proof.
  intros (Hfl & Hall & l & Hi & Hl & Hj).
  destruct (cursor_line_down_spec self fl Hfl Hall Hi) as (l' & m & Hl' & Hm & E).
  eexists. split; [exact E|]. split; [|split; reflexivity].
  apply nav_valid_intro with (l := l'); cbn; try assumption; try reflexivity; try lia.
  destruct (first_match fl _ l' Hall Hl') as (_ & _ & Hpos). lia.
Qed.

Lemma cursor_match_next_valid (self : Aerojump) (fl : list AerojumpLine) :
  nav_valid self fl ->
  exists self', cursor_match_next self = Ok self' /\ nav_valid self' fl.
Proof.
  intros Hv. pose proof Hv as (Hfl & Hall & l & Hi & Hl & Hj).
  destruct (Z_lt_le_dec (cursor_match_index self + 1) (len (matches l))) as [Hin|Hover].
  - destruct (cursor_match_next_step self fl l Hfl (proj1 Hi) Hl (proj1 Hj) Hin)
      as (m & Hm & E).
    eexists. split; [exact E|].
    apply nav_valid_intro with (l := l); cbn; try assumption; try reflexivity; lia.
  - rewrite (cursor_match_next_overflow self fl l Hfl (proj1 Hi) Hl Hover).
    destruct (cursor_line_down_valid self fl Hv) as (self' & E & Hv' & _).
    exists self'. split; assumption.
Qed.

Lemma cursor_match_prev_valid (self : Aerojump) (fl : list AerojumpLine) :
  nav_valid self fl ->
  exists self', cursor_match_prev self = Ok self' /\ nav_valid self' fl.
Proof.
  intros (Hfl & Hall & l & Hi & Hl & Hj).
  destruct (Z_lt_le_dec (cursor_match_index self - 1) 0) as [Hneg|Hpos].
  - destruct (cursor_match_prev_underflow self fl Hfl Hall Hi Hneg)
      as (l' & m & Hl' & Hm & E).
    eexists. split; [exact E|].
    apply nav_valid_intro with (l := l'); cbn; try assumption; try reflexivity; try lia.
    destruct (first_match fl _ l' Hall Hl') as (_ & _ & Hlen). lia.
  - destruct (cursor_match_prev_step self fl l Hfl (proj1 Hi) Hl Hpos (proj2 Hj))
      as (m & Hm & E).
    eexists. split; [exact E|].
    apply nav_valid_intro with (l := l); cbn; try assumption; try reflexivity; lia.
Qed.

(** A navigation command on valid indices assigns the cursor indices and
    the highlights, nothing else, and the new indices are valid. *)
Lemma run_nav_spec (c : nav_command) (self : Aerojump) (fl : list AerojumpLine) :
  nav_valid self fl ->
  exists i j hl,
    run_nav c self
    = Ok (mkAerojump (log_str self) (og_top_line self) (og_cursor_pos self)
            (num_lines self) (filter_string self) (lines self) i j
            (has_filter_results self) (Some fl) (Some hl)) /\
    nav_valid (mkAerojump (log_str self) (og_top_line self) (og_cursor_pos self)
                 (num_lines self) (filter_string self) (lines self) i j
                 (has_filter_results self) (Some fl) (Some hl)) fl.
Proof.
  intros Hv. pose proof Hv as (Hfl & Hall & l & Hi & Hl & Hj).
  assert (Hdown : exists i j hl,
    cursor_line_down self
    = Ok (mkAerojump (log_str self) (og_top_line self) (og_cursor_pos self)
            (num_lines self) (filter_string self) (lines self) i j
            (has_filter_results self) (Some fl) (Some hl)) /\
    nav_valid (mkAerojump (log_str self) (og_top_line self) (og_cursor_pos self)
                 (num_lines self) (filter_string self) (lines self) i j
                 (has_filter_results self) (Some fl) (Some hl)) fl).
  { destruct (cursor_line_down_valid self fl Hv) as (self' & E & Hv' & _).
    destruct (cursor_line_down_spec self fl Hfl Hall Hi) as (l' & m & _ & _ & E').
    rewrite E' in E. injection E as <-. eauto. }
  destruct c; cbn [run_nav].
  - destruct (cursor_line_up_valid self fl Hv) as (self' & E & Hv' & _).
    destruct (cursor_line_up_spec self fl Hfl Hall Hi) as (l' & m & _ & _ & E').
    rewrite E' in E. injection E as <-. eauto.
  - exact Hdown.
  - destruct (Z_lt_le_dec (cursor_match_index self + 1) (len (matches l)))
      as [Hin|Hover].
    + destruct (cursor_match_next_valid self fl Hv) as (self' & E & Hv').
      destruct (cursor_match_next_step self fl l Hfl (proj1 Hi) Hl (proj1 Hj) Hin)
        as (m & _ & E').
      rewrite E' in E. injection E as <-. eauto.
    + rewrite (cursor_match_next_overflow self fl l Hfl (proj1 Hi) Hl Hover).
      exact Hdown.
  - destruct (cursor_match_prev_valid self fl Hv) as (self' & E & Hv').
    destruct (Z_lt_le_dec (cursor_match_index self - 1) 0) as [Hneg|Hpos].
    + destruct (cursor_match_prev_underflow self fl Hfl Hall Hi Hneg)
        as (l' & m & _ & _ & E').
      rewrite E' in E. injection E as <-. eauto.
    + destruct (cursor_match_prev_step self fl l Hfl (proj1 Hi) Hl Hpos (proj2 Hj))
        as (m & _ & E').
      rewrite E' in E. injection E as <-. eauto.
Qed.

Lemma run_nav_valid (c : nav_command) (self : Aerojump) (fl : list AerojumpLine) :
  nav_valid self fl ->
  exists self', run_nav c self = Ok self' /\ nav_valid self' fl.
Proof.
  intros Hv. destruct (run_nav_spec c self fl Hv) as (i & j & hl & E & Hv').
  eauto.
Qed.

Lemma repeat_line_up (fl : list AerojumpLine) :
  forall (n : nat) (self : Aerojump),
    nav_valid self fl ->
    exists self',
      repeat_nav n LineUp self = Ok self' /\ nav_valid self' fl /\
      cursor_line_index self' = Z.max (cursor_line_index self - Z.of_nat n) 0.
Proof.
  induction n as [|n IH]; intros self Hv.
  - exists self. split; [reflexivity|]. split; [assumption|].
    destruct Hv as (_ & _ & l & Hi & _). lia.
  - destruct (cursor_line_up_valid self fl Hv) as (s1 & E1 & Hv1 & Hi1 & _).
    destruct (IH s1 Hv1) as (s2 & E2 & Hv2 & Hi2).
    exists s2. cbn [repeat_nav run_nav]. rewrite E1. cbn [bind].
    split; [assumption|]. split; [assumption|]. lia.
Qed.

Lemma repeat_line_down (fl : list AerojumpLine) :
  forall (n : nat) (self : Aerojump),
    nav_valid self fl ->
    exists self',
      repeat_nav n LineDown self = Ok self' /\ nav_valid self' fl /\
      cursor_line_index self'
      = Z.min (cursor_line_index self + Z.of_nat n) (len fl - 1).
Proof.
  induction n as [|n IH]; intros self Hv.
  - exists self. split; [reflexivity|]. split; [assumption|].
    destruct Hv as (_ & _ & l & Hi & _). lia.
  - destruct (cursor_line_down_valid self fl Hv) as (s1 & E1 & Hv1 & Hi1 & _).
    destruct (IH s1 Hv1) as (s2 & E2 & Hv2 & Hi2).
    exists s2. cbn [repeat_nav run_nav]. rewrite E1. cbn [bind].
    split; [assumption|]. split; [assumption|]. lia.
Qed.

(** ** A filter pass, case by case *)

(** On an engine whose lines come from the constructor a filter pass never
    raises.  Either no line matches, and then the cursor indices and the
    highlights are left as they were; or the cursor moves to the selected
    candidate and the highlights are rebuilt. *)
Lemma apply_filter_cases (pattern : str) (self : Aerojump) :
  wf self ->
  exists ls,
    Forall2 (filtered_from pattern) (lines self) ls /\
    Forall wf_line ls /\
    map raw ls = map raw (lines self) /\
    Forall scored_line (List.filter has_matches ls) /\
    (pattern = [] -> List.filter has_matches ls = []) /\
    let fl := List.filter has_matches ls in
    (fl = [] /\
     apply_filter pattern self
     = Ok (mkAerojump (log_str self) (og_top_line self) (og_cursor_pos self)
             (num_lines self) pattern ls (cursor_line_index self)
             (cursor_match_index self) false (Some []) (highlights self)))
    \/
    (fl <> [] /\
     exists k c sc m fi mi,
       nth_error (candidates self fl) k = Some c /\
       selected self (candidates self fl) k c sc /\
       0 <= fi /\ nth_error fl (Z.to_nat fi) = Some c /\
       best_match c mi sc /\
       nth_error (matches c) (Z.to_nat mi) = Some m /\
       apply_filter pattern self
       = Ok (mkAerojump (log_str self) (og_top_line self) (og_cursor_pos self)
               (num_lines self) pattern ls fi mi true (Some fl)
               (Some (match_spans fl ++ spans_of_match c m)))).
Proof.
  intros Hwf.
  destruct (apply_filter_lines pattern self Hwf)
    as (ls & E & HF & Hwf' & Hraw & Hsc & Hnil & Hidx).
  exists ls. repeat (split; [assumption|]). cbv zeta.
  destruct (List.filter has_matches ls) as [|l0 fl0] eqn:Hfl.
  - left. split; [reflexivity|]. apply apply_filter_no_results. exact E.
  - right. split; [discriminate|]. rewrite <- Hfl in *.
    apply apply_filter_results; try assumption. rewrite Hfl. discriminate.
Qed.

Lemma scored_lines_have_matches (fl : list AerojumpLine) :
  Forall scored_line fl -> Forall (fun l => matches l <> []) fl.
Proof.
  intros H. eapply Forall_impl; [|exact H]. intros l [Hl _]. exact Hl.
Qed.

(** A pass that matches some line leaves valid cursor indices. *)
Lemma apply_filter_valid (pattern : str) (self self' : Aerojump)
    (fl : list AerojumpLine) :
  wf self ->
  apply_filter pattern self = Ok self' ->
  filtered_lines self' = Some fl -> fl <> [] ->
  nav_valid self' fl.
Proof.
  intros Hwf E Hfl Hne.
  destruct (apply_filter_cases pattern self Hwf)
    as (ls & _ & _ & _ & Hsc & _ & [[Hnil E']|[Hne' H]]).
  - rewrite E' in E. injection E as <-. cbn in Hfl. congruence.
  - destruct H as (k & c & sc & m & fi & mi & _ & _ & Hfi & Hc & Hb & Hm & E').
    rewrite E' in E. injection E as <-. cbn in Hfl. injection Hfl as <-.
    apply nav_valid_intro with (l := c); cbn; try assumption; try reflexivity.
    + apply scored_lines_have_matches. assumption.
    + destruct Hb as (ss & _ & Hb & _). exact Hb.
Qed.

(** C3.  A filter pass never raises.  Every line of the filtered set [fl]
    it leaves has a best match: the lowest index among its maximal-score
    matches.  When [fl] is not empty, the cursor is on a candidate line [c]
    (a filtered line in view if there is one, any filtered line otherwise)
    at the best match of [c], and [c] wins the selection: no candidate has
    a higher best score, none with the same best score is closer to the
    original cursor line, and none with the same score and distance comes
    earlier. *)
Theorem initial_cursor_selection (pattern : str) (self : Aerojump) :
  wf self ->
  exists self' fl,
    apply_filter pattern self = Ok self' /\
    filtered_lines self' = Some fl /\
    Forall (fun c => exists b sc, best_match c b sc) fl /\
    (fl <> [] ->
     exists k c sc,
       nth_error (candidates self' fl) k = Some c /\
       selected self' (candidates self' fl) k c sc /\
       0 <= cursor_line_index self' /\
       nth_error fl (Z.to_nat (cursor_line_index self')) = Some c /\
       best_match c (cursor_match_index self') sc).
Proof.
  intros Hwf.
  destruct (apply_filter_cases pattern self Hwf)
    as (ls & _ & _ & _ & Hsc & _ & [[Hnil E]|[Hne H]]).
  - eexists. exists []. split; [exact E|]. split; [reflexivity|].
    split; [constructor|congruence].
  - destruct H as (k & c & sc & m & fi & mi & Hk & Hsel & Hfi & Hc & Hb & _ & E).
    eexists. exists (List.filter has_matches ls).
    split; [exact E|]. split; [reflexivity|]. split.
    + eapply Forall_impl; [|exact Hsc]. intros l Hl.
      destruct (best_match_index_for_spec l Hl) as (b' & sc' & _ & _ & Hb' & _).
      eauto.
    + intros _. exists k, c, sc. cbn [cursor_line_index cursor_match_index].
      split; [exact Hk|]. split; [exact Hsel|]. split; [assumption|].
      split; assumption.
Qed.

Lemma initial_cursor_selection_witness :
  wf state_two /\
  exists self' fl,
    apply_filter (s "ab") state_two = Ok self' /\
    filtered_lines self' = Some fl /\
    Forall (fun c => exists b sc, best_match c b sc) fl /\
    (fl <> [] ->
     exists k c sc,
       nth_error (candidates self' fl) k = Some c /\
       selected self' (candidates self' fl) k c sc /\
       0 <= cursor_line_index self' /\
       nth_error fl (Z.to_nat (cursor_line_index self')) = Some c /\
       best_match c (cursor_match_index self') sc).
Proof.
  assert (Hwf : wf state_two) by concrete_wf.
  split; [exact Hwf|].
  exact (initial_cursor_selection (s "ab") state_two Hwf).
Defined.

(** Two equally scoring lines numbered 10 and 50, original cursor on line
    12: the cursor goes to line 10. *)
Example closer_line_wins :
  exists self',
    apply_filter (s "ab") state_two = Ok self' /\
    cursor_line_index self' = 0 /\ cursor_match_index self' = 0 /\
    get_cursor self' = Ok (10, 1).
Proof.
  eexists. split; [vm_compute; reflexivity|]. repeat split.
Qed.

(** ** The constructor *)

Lemma firstn_snoc {A : Type} (l : list A) (k : nat) (x : A) :
  nth_error l k = Some x -> firstn (S k) l = firstn k l ++ [x].
Proof.
  revert k. induction l as [|a l IH]; intros k H.
  - destruct k; discriminate.
  - destruct k as [|k].
    + cbn in H. injection H as ->. reflexivity.
    + cbn in H. cbn [firstn app]. f_equal. apply IH. assumption.
Qed.

Lemma combine_snoc {A B : Type} (l1 : list A) (l2 : list B) (x : A) (y : B) :
  nth_error l2 (length l1) = Some y ->
  combine (l1 ++ [x]) l2 = combine l1 l2 ++ [(x, y)].
Proof.
  revert l2. induction l1 as [|a l1 IH]; intros l2 H.
  - destruct l2 as [|b l2]; [discriminate|]. cbn in H. injection H as ->.
    reflexivity.
  - destruct l2 as [|b l2]; [discriminate|]. cbn in H.
    cbn [app combine]. f_equal. apply IH. assumption.
Qed.

(** The loop of [__init__] as long as there is a line number per line. *)
Lemma init_loop {L : Lowercase} (ls0 : list str) (lin_nums : list Z) :
  forall k : nat,
    (k <= length ls0)%nat -> (k <= length lin_nums)%nat ->
    for_each (range 0 (Z.of_nat k)) (init_step ls0 lin_nums) []
    = Ok (zip_lines (firstn k ls0) lin_nums).
Proof.
  induction k as [|k IH]; intros Hk1 Hk2; [reflexivity|].
  rewrite range_snoc, for_each_app, IH by lia. cbn [bind for_each].
  unfold init_step.
  destruct (py_get_in_range ls0 (Z.of_nat k)) as (x & Ex & Hx); [unfold len; lia|].
  destruct (py_get_in_range lin_nums (Z.of_nat k)) as (y & Ey & Hy);
    [unfold len; lia|].
  rewrite Ex, Ey. cbn [bind]. rewrite Nat2Z.id in Hx, Hy.
  rewrite (firstn_snoc ls0 k x Hx). unfold zip_lines.
  rewrite (combine_snoc (firstn k ls0) lin_nums x y), map_app; [reflexivity|].
  rewrite length_firstn, Nat.min_l by lia. assumption.
Qed.

Lemma py_get_out_of_range {A : Type} (l : list A) (i : Z) :
  len l <= i -> py_get l i = Raise IndexError.
Proof.
  intros H. pose proof (len_nonneg l). unfold py_get.
  replace (i <? 0) with false by (symmetry; apply Z.ltb_ge; lia).
  replace (i <? len l) with false by (symmetry; apply Z.ltb_ge; lia).
  rewrite andb_false_r. reflexivity.
Qed.

(** ... and once the line numbers have run out. *)
Lemma init_loop_short {L : Lowercase} (ls0 : list str) (lin_nums : list Z) :
  forall k : nat,
    (k <= length ls0)%nat -> (length lin_nums < k)%nat ->
    for_each (range 0 (Z.of_nat k)) (init_step ls0 lin_nums) []
    = Raise IndexError.
Proof.
  induction k as [|k IH]; intros Hk1 Hk2; [lia|].
  rewrite range_snoc, for_each_app.
  destruct (Nat.eq_dec k (length lin_nums)) as [->|Hne].
  - rewrite init_loop by lia. cbn [bind for_each]. unfold init_step.
    destruct (py_get_in_range ls0 (Z.of_nat (length lin_nums))) as (x & Ex & _);
      [unfold len; lia|].
    rewrite Ex. cbn [bind].
    rewrite py_get_out_of_range by (unfold len; lia). reflexivity.
  - rewrite IH by lia. reflexivity.
Qed.

Lemma zip_lines_wf {L : Lowercase} (ls0 : list str) (lin_nums : list Z) :
  Forall wf_line (zip_lines ls0 lin_nums).
Proof.
  unfold zip_lines. apply Forall_forall. intros l Hl.
  apply in_map_iff in Hl as [p [<- _]]. apply init_wf_line.
Qed.

Lemma init_short {L : Lowercase} (ls0 : list str) (lin_nums : list Z)
    (cursor_pos top_line : Z * Z) (n : Z) :
  len lin_nums < len ls0 ->
  Engine.init ls0 lin_nums cursor_pos top_line n = Raise IndexError.
Proof.
  intros Hlt. unfold Engine.init, len.
  rewrite init_loop_short; [reflexivity|lia|unfold len in Hlt; lia].
Qed.

Lemma init_enough {L : Lowercase} (ls0 : list str) (lin_nums : list Z)
    (cursor_pos top_line : Z * Z) (n : Z) :
  len ls0 <= len lin_nums ->
  Engine.init ls0 lin_nums cursor_pos top_line n
  = Ok (mkAerojump [] top_line cursor_pos n [] (zip_lines ls0 lin_nums)
          0 0 false None None).
Proof.
  intros Hle. unfold Engine.init, len.
  rewrite init_loop; [|lia|unfold len in Hle; lia].
  rewrite firstn_all. reflexivity.
Qed.

(** ** Overflowing [cursor_match_next] *)

Example state_abab_init {L : Lowercase} :
  Engine.init [s "abab"] [1] (1, 0) (1, 0) 10 = Ok state_abab.
Proof.
  rewrite init_enough by (vm_compute; discriminate).
  unfold zip_lines. cbn [combine map fst snd].
  rewrite (init_ascii (s "abab") 1) by ascii_text. reflexivity.
Qed.

Example state_two_init {L : Lowercase} :
  Engine.init [s "xab"; s "xab"] [10; 50] (12, 0) (1, 0) 100 = Ok state_two.
Proof.
  rewrite init_enough by (vm_compute; discriminate).
  unfold zip_lines. cbn [combine map fst snd].
  rewrite !(init_ascii (s "xab")) by ascii_text. reflexivity.
Qed.

Example state_abab_a_eq :
  apply_filter (s "a") state_abab = Ok state_abab_a /\
  filtered_lines state_abab_a = Some [line_abab_a] /\
  cursor_line_index state_abab_a = 0 /\ cursor_match_index state_abab_a = 0.
Proof. split; [vm_compute; reflexivity|]. vm_compute. repeat split. Qed.

Example state_abab_a1_eq :
  cursor_match_next state_abab_a = Ok state_abab_a1 /\
  filtered_lines state_abab_a1 = Some [line_abab_a] /\
  cursor_line_index state_abab_a1 = 0 /\ cursor_match_index state_abab_a1 = 1.
Proof. split; [vm_compute; reflexivity|]. vm_compute. repeat split. Qed.

(** C5.  When incrementing the match index would run past the matches of
    the current filtered line, [cursor_match_next] does what
    [cursor_line_down] does: the cursor lands on match 0 of the next
    filtered line, or of the last one when it is already there; so with a
    single filtered line the cursor returns to the first match of that
    line. *)
Theorem match_next_wraps_to_line_down (self : Aerojump) (fl : list AerojumpLine)
    (l : AerojumpLine) :
  nav_valid self fl ->
  nth_error fl (Z.to_nat (cursor_line_index self)) = Some l ->
  len (matches l) <= cursor_match_index self + 1 ->
  cursor_match_next self = cursor_line_down self /\
  exists self',
    cursor_match_next self = Ok self' /\
    nav_valid self' fl /\
    cursor_line_index self' = Z.min (cursor_line_index self + 1) (len fl - 1) /\
    cursor_match_index self' = 0 /\
    (len fl = 1 -> cursor_line_index self' = 0).
Proof.
  intros Hv Hl Hover. pose proof Hv as (Hfl & Hall & l' & Hi & Hl' & Hj).
  pose proof (cursor_match_next_overflow self fl l Hfl (proj1 Hi) Hl Hover) as E.
  split; [exact E|].
  destruct (cursor_line_down_valid self fl Hv) as (self' & E' & Hv' & Hi' & Hj').
  exists self'. rewrite E. split; [assumption|]. split; [assumption|].
  split; [assumption|]. split; [assumption|]. lia.
Qed.

Lemma match_next_wraps_to_line_down_witness :
  nav_valid state_abab_a1 [line_abab_a] /\
  nth_error [line_abab_a] (Z.to_nat (cursor_line_index state_abab_a1))
  = Some line_abab_a /\
  len (matches line_abab_a) <= cursor_match_index state_abab_a1 + 1 /\
  cursor_match_next state_abab_a1 = cursor_line_down state_abab_a1 /\
  exists self',
    cursor_match_next state_abab_a1 = Ok self' /\
    nav_valid self' [line_abab_a] /\
    cursor_line_index self'
    = Z.min (cursor_line_index state_abab_a1 + 1) (len [line_abab_a] - 1) /\
    cursor_match_index self' = 0 /\
    (len [line_abab_a] = 1 -> cursor_line_index self' = 0).
Proof.
  assert (Hv : nav_valid state_abab_a1 [line_abab_a]).
  { split; [reflexivity|]. split; [repeat constructor; discriminate|].
    exists line_abab_a. split; [vm_compute; split; [discriminate|reflexivity]|].
    split; [reflexivity|]. vm_compute. split; [discriminate|reflexivity]. }
  assert (Hl : nth_error [line_abab_a] (Z.to_nat (cursor_line_index state_abab_a1))
               = Some line_abab_a) by reflexivity.
  assert (Ho : len (matches line_abab_a) <= cursor_match_index state_abab_a1 + 1)
    by (vm_compute; discriminate).
  split; [exact Hv|]. split; [exact Hl|]. split; [exact Ho|].
  exact (match_next_wraps_to_line_down state_abab_a1 [line_abab_a] line_abab_a Hv Hl Ho).
Defined.

(** A single filtered line with two matches, the cursor on the second:
    [cursor_match_next] puts the cursor back on the first. *)
Example single_line_next_returns_to_first :
  exists self',
    cursor_match_next state_abab_a1 = Ok self' /\
    cursor_line_index self' = 0 /\ cursor_match_index self' = 0 /\
    get_cursor self' = Ok (1, 0).
Proof. eexists. split; [vm_compute; reflexivity|]. repeat split. Qed.

(** ** Cursor spans and the selected match *)

Lemma selected_spans_spec (self : Aerojump) (fl : list AerojumpLine)
    (l : AerojumpLine) (m : list Z) :
  filtered_lines self = Some fl ->
  0 <= cursor_line_index self ->
  nth_error fl (Z.to_nat (cursor_line_index self)) = Some l ->
  0 <= cursor_match_index self ->
  nth_error (matches l) (Z.to_nat (cursor_match_index self)) = Some m ->
  selected_spans self = Ok (spans_of_match l m).
Proof.
  intros Hfl Hi Hl Hj Hm. unfold selected_spans. rewrite Hfl. cbn [attr bind].
  destruct (py_get_in_range fl (cursor_line_index self)) as (l' & El & Hl').
  { eapply nth_error_lt_len; eassumption. }
  rewrite Hl in Hl'. injection Hl' as <-. rewrite El. cbn [bind].
  destruct (py_get_in_range (matches l) (cursor_match_index self)) as (m' & Em & Hm').
  { eapply nth_error_lt_len; eassumption. }
  rewrite Hm in Hm'. injection Hm' as <-. rewrite Em. reflexivity.
Qed.

(** After a pass that matches some line the cursor spans are those of the
    selected match. *)
Lemma apply_filter_cursor_spans (pattern : str) (self self' : Aerojump)
    (fl : list AerojumpLine) :
  wf self ->
  apply_filter pattern self = Ok self' ->
  filtered_lines self' = Some fl -> fl <> [] ->
  exists hl, highlights self' = Some hl /\ selected_spans self' = Ok (cursor_spans hl).
Proof.
  intros Hwf E Hfl Hne.
  destruct (apply_filter_cases pattern self Hwf)
    as (ls & _ & _ & _ & _ & _ & [[Hnil E']|[Hne' H]]).
  - rewrite E' in E. injection E as <-. cbn in Hfl. congruence.
  - destruct H as (k & c & sc & m & fi & mi & _ & _ & Hfi & Hc & Hb & Hm & E').
    rewrite E' in E. injection E as <-.
    eexists. split; [reflexivity|]. rewrite cursor_spans_update.
    apply selected_spans_spec with (fl := List.filter has_matches ls);
      cbn; try assumption; try reflexivity.
    destruct Hb as (ss & _ & Hb & _). lia.
Qed.

(** So are they after every navigation command, except a
    [cursor_match_prev] that underflows. *)
Lemma run_nav_cursor_spans (c : nav_command) (self : Aerojump)
    (fl : list AerojumpLine) :
  nav_valid self fl ->
  (c = MatchPrev -> 0 < cursor_match_index self) ->
  exists self' hl,
    run_nav c self = Ok self' /\ highlights self' = Some hl /\
    selected_spans self' = Ok (cursor_spans hl).
Proof.
  intros Hv Hprev. pose proof Hv as (Hfl & Hall & l & Hi & Hl & Hj).
  assert (Hdown : exists self' hl,
             cursor_line_down self = Ok self' /\ highlights self' = Some hl /\
             selected_spans self' = Ok (cursor_spans hl)).
  { destruct (cursor_line_down_spec self fl Hfl Hall Hi) as (l' & m & Hl' & Hm & E).
    eexists. eexists. split; [exact E|]. split; [reflexivity|].
    rewrite cursor_spans_update.
    apply selected_spans_spec with (fl := fl); cbn; try assumption;
      try reflexivity; lia. }
  destruct c; cbn [run_nav].
  - destruct (cursor_line_up_spec self fl Hfl Hall Hi) as (l' & m & Hl' & Hm & E).
    eexists. eexists. split; [exact E|]. split; [reflexivity|].
    rewrite cursor_spans_update.
    apply selected_spans_spec with (fl := fl); cbn; try assumption;
      try reflexivity; lia.
  - exact Hdown.
  - destruct (Z_lt_le_dec (cursor_match_index self + 1) (len (matches l)))
      as [Hin|Hover].
    + destruct (cursor_match_next_step self fl l Hfl (proj1 Hi) Hl (proj1 Hj) Hin)
        as (m & Hm & E).
      eexists. eexists. split; [exact E|]. split; [reflexivity|].
      rewrite cursor_spans_update.
      apply selected_spans_spec with (fl := fl); cbn; try assumption;
        try reflexivity; lia.
    + rewrite (cursor_match_next_overflow self fl l Hfl (proj1 Hi) Hl Hover).
      exact Hdown.
  - specialize (Hprev eq_refl).
    destruct (cursor_match_prev_step self fl l Hfl (proj1 Hi) Hl ltac:(lia) (proj2 Hj))
      as (m & Hm & E).
    eexists. eexists. split; [exact E|]. split; [reflexivity|].
    rewrite cursor_spans_update.
    apply selected_spans_spec with (fl := fl); cbn; try assumption;
      try reflexivity; lia.
Qed.

(** C4.  The query ["a"] on the line ["abab"] selects the match at
    position 1.  [cursor_match_prev] then underflows: it calls
    [cursor_line_up], which rebuilds the highlights for match 0, and only
    afterwards moves the match index to the last match, at position 3.
    The cursor spans readable afterwards are still those of position 1,
    while the selected match is the one at position 3. *)
Theorem match_prev_stale_cursor_spans :
  apply_filter (s "a") state_abab = Ok state_abab_a /\
  exists self' hl,
    cursor_match_prev state_abab_a = Ok self' /\
    cursor_line_index self' = 0 /\ cursor_match_index self' = 1 /\
    get_cursor self' = Ok (1, 2) /\
    get_highlights self' = Ok hl /\
    cursor_spans hl = [(SearchHighlight, 0, 0, 1)] /\
    selected_spans self' = Ok [(SearchHighlight, 0, 2, 3)].
Proof.
  split; [vm_compute; reflexivity|]. eexists. eexists.
  split; [vm_compute; reflexivity|]. repeat split.
Qed.

(** ** Reading the engine when no line matches *)

Lemma draw_lines (ls : list AerojumpLine) :
  map (fun l => if has_matches l then raw l else raw l) ls = map raw ls.
Proof.
  apply map_ext. intros l. destruct (has_matches l); reflexivity.
Qed.

(** What [draw] returns when the last pass matched no line. *)
Lemma draw_no_results (self : Aerojump) :
  has_filter_results self = false ->
  draw self
  = match highlights self with
    | Some hl => Ok {| d_lines := map raw (lines self);
                       d_highlights := hl;
                       d_cursor_position := og_cursor_pos self |}
    | None => Raise AttributeError
    end.
Proof.
  intros H. unfold draw, get_cursor. rewrite H, draw_lines.
  destruct (highlights self); reflexivity.
Qed.

(** A pass that matches no line keeps the cursor indices and the
    highlights of the pass before. *)
Lemma apply_filter_keeps_highlights (pattern : str) (self self' : Aerojump) :
  wf self ->
  apply_filter pattern self = Ok self' ->
  filtered_lines self' = Some [] ->
  has_filter_results self' = false /\
  highlights self' = highlights self /\
  cursor_line_index self' = cursor_line_index self /\
  cursor_match_index self' = cursor_match_index self /\
  og_cursor_pos self' = og_cursor_pos self /\
  map raw (lines self') = map raw (lines self).
Proof.
  intros Hwf E Hfl.
  destruct (apply_filter_cases pattern self Hwf)
    as (ls & _ & _ & Hraw & _ & _ & [[Hnil E']|[Hne H]]).
  - rewrite E' in E. injection E as <-. cbn. repeat split. exact Hraw.
  - destruct H as (k & c & sc & m & fi & mi & _ & _ & _ & _ & _ & _ & E').
    rewrite E' in E. injection E as <-. cbn in Hfl. congruence.
Qed.

(** The empty query matches no line. *)
Lemma apply_filter_empty_query (self : Aerojump) :
  wf self ->
  exists self',
    apply_filter [] self = Ok self' /\ filtered_lines self' = Some [].
Proof.
  intros Hwf.
  destruct (apply_filter_cases [] self Hwf)
    as (ls & _ & _ & _ & _ & Hnil & [[_ E]|[Hne _]]).
  - eexists. split; [exact E|reflexivity].
  - exfalso. apply Hne. apply Hnil. reflexivity.
Qed.

(** As long as nothing has assigned [highlights], [draw] raises after any
    pass that matches no line. *)
Lemma draw_raises_without_highlights (pattern : str) (self self' : Aerojump) :
  wf self -> highlights self = None ->
  apply_filter pattern self = Ok self' ->
  filtered_lines self' = Some [] ->
  draw self' = Raise AttributeError.
Proof.
  intros Hwf Hhl E Hfl.
  destruct (apply_filter_keeps_highlights pattern self self' Hwf E Hfl)
    as (Hres & Hh & _).
  rewrite (draw_no_results self' Hres), Hh, Hhl. reflexivity.
Qed.

(** C7.  On the freshly constructed engine over ["abab"] the empty query
    leaves an empty filtered set and [get_cursor] returns the original
    cursor, but [draw] raises [AttributeError]: [highlights] is assigned
    only by a pass that matched a line or by a navigation command. *)
Theorem draw_raises_after_first_empty_filter {L : Lowercase} :
  Engine.init [s "abab"] [1] (1, 0) (1, 0) 10 = Ok state_abab /\
  exists self',
    apply_filter [] state_abab = Ok self' /\
    filtered_lines self' = Some [] /\
    get_cursor self' = Ok (1, 0) /\
    draw self' = Raise AttributeError.
Proof.
  split; [apply state_abab_init|]. eexists. split; [vm_compute; reflexivity|].
  repeat split.
Qed.

(** When an earlier pass did assign [highlights], [draw] after the empty
    query returns the original lines and the original cursor, next to the
    highlights of that earlier pass. *)
Lemma draw_after_empty_filter (self : Aerojump) (hl : list Highlight) :
  wf self -> highlights self = Some hl ->
  exists self',
    apply_filter [] self = Ok self' /\
    draw self' = Ok {| d_lines := map raw (lines self);
                       d_highlights := hl;
                       d_cursor_position := og_cursor_pos self |}.
Proof.
  intros Hwf Hhl. destruct (apply_filter_empty_query self Hwf) as (self' & E & Hfl).
  exists self'. split; [exact E|].
  destruct (apply_filter_keeps_highlights [] self self' Hwf E Hfl)
    as (Hres & Hh & _ & _ & Hog & Hraw).
  rewrite (draw_no_results self' Hres), Hh, Hhl, Hog, Hraw. reflexivity.
Qed.

(** C8.  After the query ["a"] on ["abab"], the query ["z"] matches no
    line: the filtered set becomes empty, yet [get_highlights] still
    returns the three highlights computed for ["a"]. *)
Theorem highlights_survive_empty_result :
  apply_filter (s "a") state_abab = Ok state_abab_a /\
  exists self' hl,
    apply_filter (s "z") state_abab_a = Ok self' /\
    filtered_lines self' = Some [] /\
    Forall (fun l => matches l = []) (lines self') /\
    get_highlights state_abab_a = Ok hl /\
    get_highlights self' = Ok hl /\
    hl = [(SearchResult, 0, 0, 1); (SearchResult, 0, 2, 3);
          (SearchHighlight, 0, 0, 1)].
Proof.
  split; [vm_compute; reflexivity|]. eexists. eexists.
  split; [vm_compute; reflexivity|]. repeat split. repeat constructor.
Qed.

(** A filter pass never raises, and whenever it leaves an empty filtered
    set, for any query, [get_cursor] returns the original cursor position;
    so does [draw] as its cursor position whenever [highlights] has been
    assigned, and [draw] raises [AttributeError] otherwise. *)
Lemma cursor_after_empty_result (pattern : str) (self : Aerojump) :
  wf self ->
  exists self',
    apply_filter pattern self = Ok self' /\
    (filtered_lines self' = Some [] ->
     get_cursor self' = Ok (og_cursor_pos self) /\
     draw self'
     = match highlights self' with
       | Some hl => Ok {| d_lines := map raw (lines self);
                          d_highlights := hl;
                          d_cursor_position := og_cursor_pos self |}
       | None => Raise AttributeError
       end).
Proof.
  intros Hwf.
  destruct (apply_filter_cases pattern self Hwf)
    as (ls & _ & _ & _ & _ & _ & [[_ E]|[_ H]]).
  - eexists. split; [exact E|]. intros Hfl.
    destruct (apply_filter_keeps_highlights pattern self _ Hwf E Hfl)
      as (Hres & _ & _ & _ & Hog & Hraw).
    split.
    + unfold get_cursor. rewrite Hres. cbn. reflexivity.
    + rewrite (draw_no_results _ Hres), Hog, Hraw. reflexivity.
  - destruct H as (k & c & sc & m & fi & mi & _ & _ & _ & Hc & _ & _ & E).
    eexists. split; [exact E|]. cbn [filtered_lines]. intros Hfl.
    injection Hfl as Hfl. rewrite Hfl in Hc. destruct (Z.to_nat fi); discriminate.
Qed.

(** C10.  On the freshly constructed engine over ["abab"] the non-empty
    query ["z"] matches no line and leaves an empty filtered set.
    [get_cursor] then returns the original cursor position, but [draw]
    does not hand it on as its cursor position: it raises
    [AttributeError], because [highlights] is assigned only by a pass that
    matched a line or by a navigation command. *)
Theorem draw_raises_after_first_unmatched_query {L : Lowercase} :
  Engine.init [s "abab"] [1] (1, 0) (1, 0) 10 = Ok state_abab /\
  s "z" <> [] /\
  exists self',
    apply_filter (s "z") state_abab = Ok self' /\
    filtered_lines self' = Some [] /\
    get_cursor self' = Ok (og_cursor_pos state_abab) /\
    draw self' = Raise AttributeError.
Proof.
  split; [apply state_abab_init|]. split; [discriminate|].
  eexists. split; [vm_compute; reflexivity|].
  repeat split.
Qed.

(** ** Invalid input *)

(** C9 does not hold as stated: the constructor does not compare the two
    lengths, and surplus line numbers are ignored. *)
Lemma init_accepts_surplus_line_numbers :
  length [s "abab"] <> length [1; 2] /\
  exists self,
    (forall L : Lowercase,
       Engine.init [s "abab"] [1; 2] (1, 0) (1, 0) 10 = Ok self) /\
    lines self = [mkLine (s "abab") (s "abab") 1 [] None None].
Proof.
  split; [discriminate|]. exists state_abab. split; [|reflexivity].
  intros L. rewrite init_enough by (vm_compute; discriminate).
  unfold zip_lines. cbn [combine map fst snd].
  rewrite (init_ascii (s "abab") 1) by ascii_text. reflexivity.
Qed.

Lemma run_nav_empty (c : nav_command) (self : Aerojump) :
  filtered_lines self = Some [] -> run_nav c self = Raise IndexError.
Proof.
  intros Hfl.
  assert (Hr : forall st, filtered_lines st = Some [] ->
                          refresh_highlights st = Raise IndexError).
  { intros st H. unfold refresh_highlights, update_highlights.
    rewrite H. cbn [attr bind]. rewrite py_get_empty. reflexivity. }
  assert (Hup : forall st, filtered_lines st = Some [] ->
                           cursor_line_up st = Raise IndexError).
  { intros st H. unfold cursor_line_up. apply Hr. unfold_setters.
    destruct (cursor_line_index st - 1 <? 0); exact H. }
  destruct c; cbn [run_nav].
  - apply Hup. exact Hfl.
  - unfold cursor_line_down. unfold_setters. rewrite Hfl. cbn [attr bind].
    apply Hr. unfold_setters.
    destruct (len (@nil AerojumpLine) <=? cursor_line_index self + 1); reflexivity.
  - unfold cursor_match_next. unfold_setters. rewrite Hfl. cbn [attr bind].
    rewrite py_get_empty. reflexivity.
  - unfold cursor_match_prev. unfold_setters.
    destruct (cursor_match_index self - 1 <? 0).
    + rewrite Hup by exact Hfl. reflexivity.
    + apply Hr. exact Hfl.
Qed.

Lemma run_nav_unset (c : nav_command) (self : Aerojump) :
  filtered_lines self = None -> run_nav c self = Raise AttributeError.
Proof.
  intros Hfl.
  assert (Hr : forall st, filtered_lines st = None ->
                          refresh_highlights st = Raise AttributeError).
  { intros st H. unfold refresh_highlights. rewrite H. reflexivity. }
  assert (Hup : forall st, filtered_lines st = None ->
                           cursor_line_up st = Raise AttributeError).
  { intros st H. unfold cursor_line_up. apply Hr. unfold_setters.
    destruct (cursor_line_index st - 1 <? 0); exact H. }
  destruct c; cbn [run_nav].
  - apply Hup. exact Hfl.
  - unfold cursor_line_down. unfold_setters. rewrite Hfl. reflexivity.
  - unfold cursor_match_next. unfold_setters. rewrite Hfl. reflexivity.
  - unfold cursor_match_prev. unfold_setters.
    destruct (cursor_match_index self - 1 <? 0).
    + rewrite Hup by exact Hfl. reflexivity.
    + apply Hr. exact Hfl.
Qed.

(** C9, as the code has it.  The constructor raises [IndexError] when
    there are fewer line numbers than lines, and otherwise builds the lines
    from the first [len(lines)] line numbers; every navigation command
    raises [IndexError] when the filtered-line sequence is empty, and
    [AttributeError] when no filter pass has assigned it yet. *)
Theorem invalid_input_raises {L : Lowercase} (ls0 : list str) (lin_nums : list Z)
    (cursor_pos top_line : Z * Z) (n : Z) (self : Aerojump) (c : nav_command) :
  (len lin_nums < len ls0 ->
   Engine.init ls0 lin_nums cursor_pos top_line n = Raise IndexError) /\
  (len ls0 <= len lin_nums ->
   Engine.init ls0 lin_nums cursor_pos top_line n
   = Ok (mkAerojump [] top_line cursor_pos n [] (zip_lines ls0 lin_nums)
           0 0 false None None)) /\
  (filtered_lines self = Some [] -> run_nav c self = Raise IndexError) /\
  (filtered_lines self = None -> run_nav c self = Raise AttributeError).
Proof.
  split; [apply init_short|]. split; [apply init_enough|].
  split; [apply run_nav_empty|apply run_nav_unset].
Qed.

Lemma invalid_input_raises_witness :
  Engine.init (L := lower_sample) [s "abab"; s "ab"] [1] (1, 0) (1, 0) 10
  = Raise IndexError /\
  run_nav LineDown (ok_or state_abab (apply_filter (s "z") state_abab))
  = Raise IndexError /\
  run_nav LineDown state_abab = Raise AttributeError.
Proof.
  split; [|split].
  - apply (invalid_input_raises (L := lower_sample)
             [s "abab"; s "ab"] [1] (1, 0) (1, 0) 10 state_abab LineDown).
    vm_compute. reflexivity.
  - apply (invalid_input_raises (L := lower_sample) [] [] (1, 0) (1, 0) 10
             (ok_or state_abab (apply_filter (s "z") state_abab)) LineDown).
    vm_compute. reflexivity.
  - apply (invalid_input_raises (L := lower_sample) [] [] (1, 0) (1, 0) 10
             state_abab LineDown).
    reflexivity.
Defined.

(** ** Clamping *)

(** Every state the engine goes through keeps the constructor's lines, and
    valid cursor indices whenever its filtered-line sequence is non-empty. *)
Lemma reachable_invariant {L : Lowercase} (self : Aerojump) :
  reachable self ->
  wf self /\
  forall fl, filtered_lines self = Some fl -> fl <> [] -> nav_valid self fl.
Proof.
  induction 1 as [ls0 lin_nums cursor_pos top_line n self E
                 |pattern self self' Hr [Hwf Hv] E
                 |c self self' Hr [Hwf Hv] E
                 |c self e i j Hr [Hwf Hv] E].
  - destruct (Z_lt_le_dec (len lin_nums) (len ls0)) as [Hlt|Hle].
    + rewrite init_short in E by assumption. discriminate.
    + rewrite init_enough in E by assumption. injection E as <-.
      split; [apply zip_lines_wf|]. intros fl Hfl. discriminate.
  - split.
    + destruct (apply_filter_cases pattern self Hwf)
        as (ls & _ & Hwf' & _ & _ & _ & [[_ E']|[_ H]]).
      * rewrite E' in E. injection E as <-. exact Hwf'.
      * destruct H as (k & c & sc & m & fi & mi & _ & _ & _ & _ & _ & _ & E').
        rewrite E' in E. injection E as <-. exact Hwf'.
    + intros fl Hfl Hne. eapply apply_filter_valid; eassumption.
  - destruct (filtered_lines self) as [[|l0 fl0]|] eqn:Hfl.
    + rewrite run_nav_empty in E by assumption. discriminate.
    + destruct (run_nav_spec c self (l0 :: fl0)) as (i & j & hl & E' & Hv').
      { apply Hv; [reflexivity|discriminate]. }
      rewrite E' in E. injection E as <-. split; [exact Hwf|].
      intros fl Hfl' _. cbn in Hfl'. injection Hfl' as <-. exact Hv'.
    + rewrite run_nav_unset in E by assumption. discriminate.
  - split; [exact Hwf|]. intros fl Hfl Hne. cbn in Hfl.
    destruct (run_nav_valid c self fl (Hv fl Hfl Hne)) as (self' & E' & _).
    congruence.
Qed.

(** C6.  Whenever the engine has a non-empty sequence [fl] of filtered
    lines, both cursor indices are in range; every navigation command ends
    normally and leaves them in range for the then-current line;
    [len(fl)] calls of [cursor_line_up] end on index 0 and as many calls
    of [cursor_line_down] on index [len(fl) - 1]. *)
Theorem navigation_stays_in_range {L : Lowercase} (self : Aerojump)
    (fl : list AerojumpLine) :
  reachable self ->
  filtered_lines self = Some fl -> fl <> [] ->
  nav_valid self fl /\
  (forall c, exists self', run_nav c self = Ok self' /\ nav_valid self' fl) /\
  (exists self',
     repeat_nav (length fl) LineUp self = Ok self' /\
     cursor_line_index self' = 0) /\
  (exists self',
     repeat_nav (length fl) LineDown self = Ok self' /\
     cursor_line_index self' = len fl - 1).
Proof.
  intros Hr Hfl Hne.
  assert (Hv : nav_valid self fl) by (apply reachable_invariant; assumption).
  pose proof Hv as (_ & _ & l & Hi & _).
  split; [exact Hv|].
  split; [intros c; apply run_nav_valid; assumption|]. split.
  - destruct (repeat_line_up fl (length fl) self Hv) as (self' & E & _ & Hi').
    exists self'. split; [assumption|]. unfold len in Hi. lia.
  - destruct (repeat_line_down fl (length fl) self Hv) as (self' & E & _ & Hi').
    exists self'. split; [assumption|]. unfold len in *. lia.
Qed.

Lemma navigation_stays_in_range_witness :
  reachable (L := lower_sample) state_abab_a /\
  filtered_lines state_abab_a = Some [line_abab_a] /\
  [line_abab_a] <> [] /\
  nav_valid state_abab_a [line_abab_a] /\
  (forall c, exists self',
      run_nav c state_abab_a = Ok self' /\ nav_valid self' [line_abab_a]) /\
  (exists self',
     repeat_nav (length [line_abab_a]) LineUp state_abab_a = Ok self' /\
     cursor_line_index self' = 0) /\
  (exists self',
     repeat_nav (length [line_abab_a]) LineDown state_abab_a = Ok self' /\
     cursor_line_index self' = len [line_abab_a] - 1).
Proof.
  assert (Hr : reachable (L := lower_sample) state_abab_a).
  { apply (reach_filter (s "a") state_abab); [|vm_compute; reflexivity].
    apply (reach_init [s "abab"] [1] (1, 0) (1, 0) 10). apply state_abab_init. }
  split; [exact Hr|]. split; [vm_compute; reflexivity|]. split; [discriminate|].
  apply (navigation_stays_in_range state_abab_a [line_abab_a] Hr);
    [vm_compute; reflexivity|discriminate].
Defined.

(** * Further properties of the matcher *)

(** ** The scan of [__match_from] as a walk over the rest of the text *)

Lemma skipn_nth_error {A : Type} (l : list A) (k : nat) (x : A) :
  nth_error l k = Some x -> skipn k l = x :: skipn (S k) l.
Proof.
  revert k. induction l as [|a l IH]; intros k H.
  - destruct k; discriminate.
  - destruct k as [|k].
    + cbn in H. injection H as ->. reflexivity.
    + cbn in H. cbn [skipn]. apply IH. assumption.
Qed.

Lemma skipn_all_nil {A : Type} (l : list A) (k : nat) :
  (length l <= k)%nat -> skipn k l = [].
Proof.
  revert k. induction l as [|a l IH]; intros k H.
  - destruct k; reflexivity.
  - destruct k as [|k]; [cbn in H; lia|]. cbn [skipn]. apply IH. cbn in H. lia.
Qed.

Lemma py_get_skipn {A : Type} (l : list A) (i : Z) :
  0 <= i < len l ->
  exists x, py_get l i = Ok x /\
            skipn (Z.to_nat i) l = x :: skipn (Z.to_nat (i + 1)) l.
Proof.
  intros Hi. destruct (py_get_in_range l i Hi) as (x & E & Hx).
  exists x. split; [assumption|].
  replace (Z.to_nat (i + 1)) with (S (Z.to_nat i)) by lia.
  apply skipn_nth_error. assumption.
Qed.

(** ** The part of the lowercase text that the walk reads *)

Lemma scanned_length (self : AerojumpLine) :
  wf_line self -> len (scanned self) = len (raw self).
Proof.
  intros Hwf. pose proof (wf_line_len self Hwf) as H. unfold scanned, len in *.
  rewrite length_firstn. lia.
Qed.

Lemma scanned_nth (self : AerojumpLine) (k : nat) :
  (k < length (raw self))%nat ->
  nth_error (scanned self) k = nth_error (raw_lower self) k.
Proof.
  intros Hk. unfold scanned. rewrite nth_error_firstn.
  destruct (Nat.ltb_spec k (length (raw self))); [reflexivity|lia].
Qed.

(** Where lowercasing keeps the length, as on ASCII text, the walk reads
    the whole lowercase text. *)
Lemma scanned_all (self : AerojumpLine) :
  len (raw_lower self) = len (raw self) -> scanned self = raw_lower self.
Proof.
  unfold scanned, len. intros H. apply firstn_all2. lia.
Qed.

Lemma py_get_scanned (self : AerojumpLine) (i : Z) :
  wf_line self -> 0 <= i < len (raw self) ->
  exists c, py_get (raw_lower self) i = Ok c /\
            skipn (Z.to_nat i) (scanned self)
            = c :: skipn (Z.to_nat (i + 1)) (scanned self).
Proof.
  intros Hwf Hi. pose proof (wf_line_len self Hwf) as Hle.
  destruct (py_get_in_range (raw_lower self) i) as (c & E & Hc); [lia|].
  exists c. split; [exact E|].
  replace (Z.to_nat (i + 1)) with (S (Z.to_nat i)) by lia.
  apply skipn_nth_error.
  rewrite scanned_nth by (unfold len in Hi; lia). exact Hc.
Qed.

Lemma match_from_loop_greedy (self : AerojumpLine) (pattern : str) :
  wf_line self ->
  forall (n : nat) (ms : list Z) (pat_index i : Z),
    0 <= i -> Z.of_nat n = len (raw self) - i ->
    0 <= pat_index < len pattern ->
    match greedy (skipn (Z.to_nat i) (scanned self))
            (skipn (Z.to_nat pat_index) pattern) i with
    | Some m =>
        match_from_loop self n ms pattern pat_index i = Ok (true, ms ++ m)
    | None =>
        exists ms', match_from_loop self n ms pattern pat_index i = Ok (false, ms')
    end.
Proof.
  intros Hwf. pose proof (wf_line_len self Hwf) as Hle.
  pose proof (scanned_length self Hwf) as Hsl.
  induction n as [|n IH]; intros ms pat_index i Hi Hn Hp.
  - rewrite skipn_all_nil by (unfold len in *; lia). cbn. eauto.
  - destruct (py_get_scanned self i Hwf) as (c & Ec & Sc); [lia|].
    destruct (py_get_skipn pattern pat_index Hp) as (p & Ep & Sp).
    rewrite Sc, Sp. cbn [greedy match_from_loop]. rewrite Ec, Ep. cbn [bind].
    destruct (N.eqb c p) eqn:Hcp.
    + destruct (pat_index + 1 =? len pattern) eqn:Hlast.
      * apply Z.eqb_eq in Hlast.
        rewrite skipn_all_nil by (unfold len in Hlast; lia). reflexivity.
      * apply Z.eqb_neq in Hlast.
        destruct (py_get_skipn pattern (pat_index + 1)) as (p1 & _ & Sp1); [lia|].
        rewrite Sp1.
        destruct (i + 1 <? len (raw_lower self)) eqn:Hmore.
        -- apply Z.ltb_lt in Hmore.
           specialize (IH (ms ++ [i + 1]) (pat_index + 1) (i + 1)
                         ltac:(lia) ltac:(lia) ltac:(lia)).
           rewrite Sp1 in IH.
           destruct (greedy (skipn (Z.to_nat (i + 1)) (scanned self))
                       (p1 :: skipn (Z.to_nat (pat_index + 1 + 1)) pattern) (i + 1))
             as [m|]; cbn [option_map].
           ++ rewrite IH, <- app_assoc. reflexivity.
           ++ exact IH.
        -- apply Z.ltb_ge in Hmore.
           rewrite (skipn_all_nil (scanned self)) by (unfold len in *; lia).
           cbn. eauto.
    + apply (IH ms pat_index (i + 1)) in Hp; [|lia|lia].
      rewrite Sp in Hp. exact Hp.
Qed.

Lemma range_cons (lo hi : Z) : lo < hi -> range lo hi = lo :: range (lo + 1) hi.
Proof.
  intros H. unfold range.
  replace (Z.to_nat (hi - lo)) with (S (Z.to_nat (hi - (lo + 1)))) by lia.
  cbn [seq map]. rewrite <- seq_shift, map_map. f_equal; [lia|].
  apply map_ext. intros k. lia.
Qed.

Lemma range_nil (lo hi : Z) : hi <= lo -> range lo hi = [].
Proof.
  intros H. unfold range. replace (Z.to_nat (hi - lo)) with 0%nat by lia.
  reflexivity.
Qed.

Lemma starts_cons (c p0 : char) (t ps : str) (i : Z) :
  starts (c :: t) (p0 :: ps) i
  = (if N.eqb c p0 then
       match greedy (c :: t) (p0 :: ps) i with
       | Some m => [m]
       | None => []
       end
     else []) ++ starts t (p0 :: ps) (i + 1).
Proof. reflexivity. Qed.

Lemma filter_loop_starts (self : AerojumpLine) (pattern : str) :
  wf_line self -> pattern <> [] ->
  forall (n : nat) (i : Z) (acc : list (list Z)),
    0 <= i -> Z.of_nat n = len (raw_lower self) - i ->
    for_each (range i (len (raw_lower self))) (filter_step self pattern) acc
    = Ok (acc ++ starts (skipn (Z.to_nat i) (scanned self)) pattern i).
Proof.
  intros Hwf Hpat. pose proof (wf_line_len self Hwf) as Hle.
  pose proof (scanned_length self Hwf) as Hsl.
  destruct pattern as [|p0 ps]; [congruence|].
  assert (Hplen : 0 < len (p0 :: ps)) by (unfold len; cbn; lia).
  induction n as [|n IH]; intros i acc Hi Hn.
  - rewrite range_nil by lia. rewrite skipn_all_nil by (unfold len in *; lia).
    cbn. rewrite app_nil_r. reflexivity.
  - rewrite range_cons by lia. cbn [for_each].
    destruct (Z_lt_le_dec i (len (raw self))) as [Hin|Hout].
    + destruct (py_get_scanned self i Hwf) as (c & Ec & Sc); [lia|].
      rewrite Sc, starts_cons. unfold filter_step at 1. rewrite Ec. cbn [bind].
      replace (py_get (p0 :: ps) 0) with (Ok p0) by reflexivity.
      cbn [bind].
      destruct (N.eqb c p0) eqn:Hcp.
      * unfold match_from.
        pose proof (match_from_loop_greedy self (p0 :: ps) Hwf
                      (Z.to_nat (len (raw self) - i)) [] 0 i Hi) as Hg.
        specialize (Hg ltac:(lia) ltac:(lia)).
        change (skipn (Z.to_nat 0) (p0 :: ps)) with (p0 :: ps) in Hg.
        rewrite Sc in Hg.
        destruct (greedy (c :: skipn (Z.to_nat (i + 1)) (scanned self)) (p0 :: ps) i)
          as [m|].
        -- rewrite Hg. cbn [bind app].
           rewrite IH by lia. rewrite <- app_assoc. reflexivity.
        -- destruct Hg as [ms' Hg]. rewrite Hg. cbn [bind app].
           rewrite IH by lia. reflexivity.
      * cbn [bind app]. rewrite IH by lia. reflexivity.
    + (* past [len(self.raw)] the walk has no iteration left *)
      destruct (py_get_in_range (raw_lower self) i) as (c & Ec & _); [lia|].
      rewrite (skipn_all_nil (scanned self) (Z.to_nat i))
        by (unfold len in *; lia).
      cbn [starts]. rewrite app_nil_r.
      assert (Hrest : for_each (range (i + 1) (len (raw_lower self)))
                        (filter_step self (p0 :: ps)) acc = Ok acc).
      { rewrite IH by lia.
        rewrite skipn_all_nil by (unfold len in *; lia).
        cbn [starts]. rewrite app_nil_r. reflexivity. }
      unfold filter_step at 1. rewrite Ec. cbn [bind].
      replace (py_get (p0 :: ps) 0) with (Ok p0) by reflexivity.
      cbn [bind].
      destruct (N.eqb c p0); [|exact Hrest].
      unfold match_from.
      replace (Z.to_nat (len (raw self) - i)) with 0%nat by lia.
      cbn [match_from_loop bind]. exact Hrest.
Qed.

(** The matches that a filter pass records are the successful walks, one
    per start index, in the order of the start indices. *)
Lemma filter_matches_starts (pattern : str) (self l' : AerojumpLine) :
  wf_line self -> pattern <> [] ->
  filter pattern self = Ok l' ->
  matches l' = starts (scanned self) pattern 0.
Proof.
  intros Hwf Hpat E. unfold filter in E.
  destruct pattern as [|p0 ps] eqn:Hp; [congruence|]. rewrite <- Hp in *.
  cbn [raw_lower set_matches] in E.
  pose proof (filter_loop_starts (set_matches self []) pattern Hwf Hpat
                (length (raw_lower self)) 0 []) as Hloop.
  cbn [raw_lower set_matches] in Hloop.
  change (scanned (set_matches self [])) with (scanned self) in Hloop.
  rewrite Hloop in E by (unfold len; lia). cbn [bind app skipn Z.to_nat] in E.
  change (skipn (Z.to_nat 0) (scanned self)) with (scanned self) in E.
  cbn [matches set_matches] in E.
  destruct (score_matches_spec (starts (scanned self) pattern 0) (len pattern))
    as [sm Es].
  { rewrite Hp. unfold len. cbn. lia. }
  rewrite Es in E. cbn [bind] in E. injection E as <-. reflexivity.
Qed.

(** ** What the walk finds *)

Lemma subseq_tail {A : Type} (a : A) (p t : list A) :
  subseq (a :: p) t -> subseq p t.
Proof.
  induction t as [|b t IH]; intros H; inversion H; subst.
  - apply subseq_skip. assumption.
  - apply subseq_skip. apply IH. assumption.
Qed.

Lemma greedy_subseq :
  forall (t pat : str) (i : Z) (m : list Z),
    greedy t pat i = Some m -> subseq pat t.
Proof.
  induction t as [|c t IH]; intros pat i m H; [discriminate|].
  destruct pat as [|p ps]; [discriminate|]. cbn [greedy] in H.
  destruct (N.eqb c p) eqn:Hcp.
  - apply N.eqb_eq in Hcp. subst p. apply subseq_take.
    destruct ps as [|p1 ps]; [apply subseq_nil|].
    destruct (greedy t (p1 :: ps) (i + 1)) as [m'|] eqn:E; [|discriminate].
    eapply IH. exact E.
  - apply subseq_skip. eapply IH. exact H.
Qed.

Lemma subseq_greedy :
  forall (t pat : str) (i : Z),
    pat <> [] -> subseq pat t -> exists m, greedy t pat i = Some m.
Proof.
  induction t as [|c t IH]; intros pat i Hne H.
  - inversion H; subst. congruence.
  - destruct pat as [|p ps]; [congruence|]. cbn [greedy].
    destruct (N.eqb c p) eqn:Hcp.
    + destruct ps as [|p1 ps]; [eauto|].
      assert (Hs : subseq (p1 :: ps) t).
      { inversion H; subst; [assumption|]. eapply subseq_tail. eassumption. }
      destruct (IH (p1 :: ps) (i + 1) ltac:(discriminate) Hs) as [m E].
      rewrite E. cbn. eauto.
    + apply IH; [assumption|]. inversion H; subst; [|assumption].
      rewrite N.eqb_refl in Hcp. discriminate.
Qed.

Lemma starts_nonempty_iff (t pat : str) (i : Z) :
  pat <> [] -> (starts t pat i <> [] <-> subseq pat t).
Proof.
  intros Hne. revert i. induction t as [|c t IH]; intros i.
  - cbn. split; [congruence|]. intros H. inversion H; subst. congruence.
  - destruct pat as [|p ps]; [congruence|]. rewrite starts_cons. split.
    + intros H. destruct (N.eqb c p) eqn:Hcp.
      * destruct (greedy (c :: t) (p :: ps) i) as [m|] eqn:E.
        -- eapply greedy_subseq. exact E.
        -- apply subseq_skip. apply (IH (i + 1)). exact H.
      * apply subseq_skip. apply (IH (i + 1)). exact H.
    + intros H. destruct (N.eqb c p) eqn:Hcp.
      * destruct (subseq_greedy (c :: t) (p :: ps) i Hne H) as [m E].
        rewrite E. discriminate.
      * cbn [app]. apply (IH (i + 1)).
        inversion H; subst; [|assumption].
        rewrite N.eqb_refl in Hcp. discriminate.
Qed.

Lemma greedy_bounds :
  forall (t pat : str) (i : Z) (m : list Z),
    greedy t pat i = Some m -> Forall (fun p => i < p) m.
Proof.
  induction t as [|c t IH]; intros pat i m H; [discriminate|].
  destruct pat as [|p ps]; [discriminate|]. cbn [greedy] in H.
  destruct (N.eqb c p).
  - destruct ps as [|p1 ps].
    + injection H as <-. constructor; [lia|constructor].
    + destruct (greedy t (p1 :: ps) (i + 1)) as [m'|] eqn:E; [|discriminate].
      injection H as <-. constructor; [lia|].
      eapply Forall_impl; [|eapply IH; exact E]. cbn. intros. lia.
  - eapply Forall_impl; [|eapply IH; exact H]. cbn. intros. lia.
Qed.

Lemma nth_error_cons_shift {A : Type} (a : A) (l : list A) (x : Z) :
  1 <= x -> nth_error (a :: l) (Z.to_nat x) = nth_error l (Z.to_nat (x - 1)).
Proof.
  intros H. replace (Z.to_nat x) with (S (Z.to_nat (x - 1))) by lia. reflexivity.
Qed.

(** The first position is the first occurrence of the first pattern
    character at or after the start of the walk. *)
Lemma greedy_first :
  forall (t pat : str) (i : Z) (m : list Z) (p j : Z) (c : char),
    greedy t pat i = Some m -> nth_error m 0 = Some p ->
    i < j < p ->
    nth_error t (Z.to_nat (j - 1 - i)) = Some c ->
    nth_error pat 0 <> Some c.
Proof.
  induction t as [|c0 t IH]; intros pat i m p j c H Hp Hj Hc; [discriminate|].
  destruct pat as [|p0 ps]; [discriminate|]. cbn [greedy] in H.
  destruct (N.eqb c0 p0) eqn:Hcp.
  - exfalso. destruct ps as [|p1 ps].
    + injection H as <-. cbn in Hp. injection Hp as <-. lia.
    + destruct (greedy t (p1 :: ps) (i + 1)); [|discriminate].
      injection H as <-. cbn in Hp. injection Hp as <-. lia.
  - destruct (Z.eq_dec j (i + 1)) as [->|Hne].
    + replace (i + 1 - 1 - i) with 0 in Hc by lia. cbn in Hc. injection Hc as <-.
      cbn. intros [= ->]. rewrite N.eqb_refl in Hcp. discriminate.
    + rewrite nth_error_cons_shift in Hc by lia.
      replace (j - 1 - i - 1) with (j - 1 - (i + 1)) in Hc by lia.
      eapply (IH (p0 :: ps) (i + 1) m p j c); try eassumption. lia.
Qed.

Lemma leftmost_from_shift (c0 : char) (t pat : str) (i : Z) (m : list Z) :
  Forall (fun p => i + 1 < p) m ->
  leftmost_from t pat (i + 1) m -> leftmost_from (c0 :: t) pat i m.
Proof.
  intros Hb H k q p j c Hq Hp Hj Hc.
  assert (Hq' : i + 1 < q).
  { rewrite Forall_forall in Hb. apply Hb. eapply nth_error_In. exact Hq. }
  rewrite nth_error_cons_shift in Hc by lia.
  replace (j - 1 - i - 1) with (j - 1 - (i + 1)) in Hc by lia.
  eapply H; eassumption.
Qed.

Lemma greedy_leftmost :
  forall (t pat : str) (i : Z) (m : list Z),
    greedy t pat i = Some m -> leftmost_from t pat i m.
Proof.
  induction t as [|c0 t IH]; intros pat i m H; [discriminate|].
  destruct pat as [|p0 ps]; [discriminate|]. cbn [greedy] in H.
  destruct (N.eqb c0 p0) eqn:Hcp.
  - destruct ps as [|p1 ps].
    + injection H as <-. intros k q p j c Hq Hp. destruct k; discriminate.
    + destruct (greedy t (p1 :: ps) (i + 1)) as [m'|] eqn:E; [|discriminate].
      injection H as <-. intros k q p j c Hq Hp Hj Hc.
      pose proof (greedy_bounds _ _ _ _ E) as Hb.
      destruct k as [|k]; cbn in Hq, Hp.
      * injection Hq as <-.
        rewrite nth_error_cons_shift in Hc by lia.
        replace (j - 1 - i - 1) with (j - 1 - (i + 1)) in Hc by lia.
        cbn [nth_error].
        eapply (greedy_first t (p1 :: ps) (i + 1) m' p j c); try eassumption.
      * assert (Hq' : i + 1 < q).
        { rewrite Forall_forall in Hb. apply Hb. eapply nth_error_In. exact Hq. }
        rewrite nth_error_cons_shift in Hc by lia.
        replace (j - 1 - i - 1) with (j - 1 - (i + 1)) in Hc by lia.
        change (nth_error (p0 :: p1 :: ps) (S (S k)))
          with (nth_error (p1 :: ps) (S k)).
        eapply (IH (p1 :: ps) (i + 1) m' E k q p j c); eassumption.
  - apply leftmost_from_shift; [eapply greedy_bounds; exact H|].
    eapply IH. exact H.
Qed.

Lemma greedy_hd (c p : char) (t ps : str) (i : Z) (m : list Z) :
  N.eqb c p = true -> greedy (c :: t) (p :: ps) i = Some m -> hd 0 m = i + 1.
Proof.
  intros Hcp H. cbn [greedy] in H. rewrite Hcp in H.
  destruct ps as [|p1 ps].
  - injection H as <-. reflexivity.
  - destruct (greedy t (p1 :: ps) (i + 1)); [|discriminate].
    injection H as <-. reflexivity.
Qed.

Lemma starts_no_pattern (t : str) (i : Z) : starts t [] i = [].
Proof.
  revert i. induction t as [|c t IH]; intros i; [reflexivity|].
  cbn. apply IH.
Qed.

(** Every walk collected over the rest of the text starts after [i], keeps
    to the leftmost positions, and the walks come by increasing start. *)
Lemma starts_spec :
  forall (t pat : str) (i : Z),
    Forall (fun m => i < hd 0 m /\ Forall (fun p => i < p) m /\
                     leftmost_from t pat i m) (starts t pat i) /\
    StronglySorted (fun a b => hd 0 a < hd 0 b) (starts t pat i).
Proof.
  induction t as [|c t IH]; intros pat i; [split; constructor|].
  destruct pat as [|p ps]; [rewrite starts_no_pattern; split; constructor|].
  rewrite starts_cons. destruct (IH (p :: ps) (i + 1)) as [IHf IHs].
  assert (Htail : Forall (fun m => i + 1 < hd 0 m /\ Forall (fun q => i < q) m /\
                                   leftmost_from (c :: t) (p :: ps) i m)
                    (starts t (p :: ps) (i + 1))).
  { eapply Forall_impl; [|exact IHf]. cbn. intros m (H1 & H2 & H3).
    split; [assumption|]. split.
    - eapply Forall_impl; [|exact H2]. cbn. intros. lia.
    - apply leftmost_from_shift; assumption. }
  destruct (N.eqb c p) eqn:Hcp;
    [destruct (greedy (c :: t) (p :: ps) i) as [m|] eqn:E|]; cbn [app].
  - pose proof (greedy_hd c p t ps i m Hcp E) as Hh. split.
    + constructor.
      * split; [lia|]. split; [eapply greedy_bounds; exact E|].
        eapply greedy_leftmost. exact E.
      * eapply Forall_impl; [|exact Htail]. cbn. intros m' (H1 & H2 & H3).
        split; [lia|]. split; assumption.
    + constructor; [assumption|].
      eapply Forall_impl; [|exact Htail]. cbn. intros m' (H1 & _). lia.
  - split; [|assumption].
    eapply Forall_impl; [|exact Htail]. cbn. intros m' (H1 & H2 & H3).
    split; [lia|]. split; assumption.
  - split; [|assumption].
    eapply Forall_impl; [|exact Htail]. cbn. intros m' (H1 & H2 & H3).
    split; [lia|]. split; assumption.
Qed.

(** No position is beyond the end of the text that the walk reads. *)
Lemma greedy_upper :
  forall (t pat : str) (i : Z) (m : list Z),
    greedy t pat i = Some m -> Forall (fun p => p <= i + len t) m.
Proof.
  induction t as [|c t IH]; intros pat i m H; [discriminate|].
  destruct pat as [|p ps]; [discriminate|]. cbn [greedy] in H.
  assert (Hl : len (c :: t) = len t + 1) by (unfold len; cbn [length]; lia).
  pose proof (len_nonneg t) as Hn.
  destruct (N.eqb c p).
  - destruct ps as [|p1 ps].
    + injection H as <-. constructor; [lia|constructor].
    + destruct (greedy t (p1 :: ps) (i + 1)) as [m'|] eqn:E; [|discriminate].
      injection H as <-. constructor; [lia|].
      eapply Forall_impl; [|eapply IH; exact E].
      intros q Hq. cbv beta in Hq |- *. lia.
  - eapply Forall_impl; [|eapply IH; exact H].
    intros q Hq. cbv beta in Hq |- *. lia.
Qed.

Lemma starts_upper :
  forall (t pat : str) (i : Z),
    Forall (Forall (fun p => p <= i + len t)) (starts t pat i).
Proof.
  induction t as [|c t IH]; intros pat i; [constructor|].
  destruct pat as [|p ps]; [rewrite starts_no_pattern; constructor|].
  assert (Hl : len (c :: t) = len t + 1) by (unfold len; cbn [length]; lia).
  rewrite starts_cons. apply Forall_app. split.
  - destruct (N.eqb c p); [|constructor].
    destruct (greedy (c :: t) (p :: ps) i) as [m|] eqn:E; [|constructor].
    constructor; [|constructor]. eapply greedy_upper. exact E.
  - eapply Forall_impl; [|apply IH]. intros m Hm. cbv beta in Hm |- *.
    eapply Forall_impl; [|exact Hm]. intros q Hq. cbv beta in Hq |- *. lia.
Qed.

(** Every position that a filter pass records lies inside [raw]. *)
Lemma filter_positions_in_raw (pattern : str) (self l' : AerojumpLine) :
  wf_line self -> filter pattern self = Ok l' ->
  Forall (Forall (fun p => 1 <= p <= len (raw self))) (matches l').
Proof.
  intros Hwf E. destruct pattern as [|p0 ps].
  - cbn in E. injection E as <-. constructor.
  - assert (Hne : p0 :: ps <> []) by discriminate.
    rewrite (filter_matches_starts _ self l' Hwf Hne E).
    destruct (starts_spec (scanned self) (p0 :: ps) 0) as [Hf _].
    pose proof (starts_upper (scanned self) (p0 :: ps) 0) as Hu.
    rewrite (scanned_length self Hwf) in Hu.
    rewrite Forall_forall in Hf, Hu. apply Forall_forall. intros m Hm.
    destruct (Hf m Hm) as (_ & Hlo & _). specialize (Hu m Hm).
    rewrite Forall_forall in Hlo, Hu. apply Forall_forall. intros q Hq.
    specialize (Hlo q Hq). specialize (Hu q Hq). lia.
Qed.

(** A match inside [raw] is sound for the lowercase text exactly when it
    is sound for the part of it that the walk reads. *)
Lemma match_sound_scanned (l : AerojumpLine) (pattern : str) (m : list Z) :
  wf_line l -> Forall (fun p => 1 <= p <= len (raw l)) m ->
  match_sound (raw_lower l) pattern m -> match_sound (scanned l) pattern m.
Proof.
  intros Hwf Hb (Hs & Hlen & Hch). split; [exact Hs|]. split; [exact Hlen|].
  intros k p Hk. destruct (Hch k p Hk) as (_ & c & Ht & Hc).
  rewrite Forall_forall in Hb. specialize (Hb p (nth_error_In _ _ Hk)).
  split; [rewrite (scanned_length l Hwf); lia|].
  exists c. split; [|exact Hc].
  rewrite scanned_nth by (unfold len in Hb; lia). exact Ht.
Qed.

Lemma match_sound_lower (l : AerojumpLine) (pattern : str) (m : list Z) :
  wf_line l ->
  match_sound (scanned l) pattern m ->
  match_sound (raw_lower l) pattern m /\
  Forall (fun p => 1 <= p <= len (raw l)) m.
Proof.
  intros Hwf (Hs & Hlen & Hch). pose proof (wf_line_len l Hwf) as Hle.
  pose proof (scanned_length l Hwf) as Hsl. split.
  - split; [exact Hs|]. split; [exact Hlen|].
    intros k p Hk. destruct (Hch k p Hk) as (Hb & c & Ht & Hc).
    split; [lia|]. exists c. split; [|exact Hc].
    rewrite <- scanned_nth by (unfold len in *; lia). exact Ht.
  - apply Forall_forall. intros p Hp. apply In_nth_error in Hp as [k Hk].
    destruct (Hch k p Hk) as (Hb & _). lia.
Qed.

Lemma leftmost_lower (l : AerojumpLine) (pattern : str) (m : list Z) :
  Forall (fun p => 1 <= p <= len (raw l)) m ->
  leftmost (scanned l) pattern m -> leftmost (raw_lower l) pattern m.
Proof.
  unfold leftmost, leftmost_from. intros Hb H k q p j c Hq Hp Hj Hc.
  rewrite Forall_forall in Hb.
  pose proof (Hb q (nth_error_In _ _ Hq)) as Hbq.
  pose proof (Hb p (nth_error_In _ _ Hp)) as Hbp.
  apply (H k q p j c Hq Hp Hj).
  rewrite scanned_nth by (unfold len in *; lia). exact Hc.
Qed.

(** ** Which lines match, and where *)

(** X1.  A line gets at least one match exactly when the query is a
    subsequence of the first [len(raw)] characters of its lowercase text,
    which is all that [__match_from] reads.  Where lowercasing keeps the
    length of the text, as it does on ASCII text, that is the whole
    lowercase text; where it does not (a line with U+0130), a query found
    only in the tail of the lowercase text is not matched. *)
Theorem line_matches_iff_subsequence (self : AerojumpLine) (pattern : str) :
  wf_line self -> pattern <> [] ->
  exists l',
    filter pattern self = Ok l' /\
    (matches l' <> [] <-> subseq pattern (scanned self)) /\
    (len (raw_lower self) = len (raw self) ->
     (matches l' <> [] <-> subseq pattern (raw_lower self))).
Proof.
  intros Hwf Hp. destruct (filter_total pattern self Hwf) as [l' E].
  exists l'. split; [exact E|].
  rewrite (filter_matches_starts pattern self l' Hwf Hp E).
  split; [apply starts_nonempty_iff; assumption|].
  intros Hlen. rewrite <- (scanned_all self Hlen).
  apply starts_nonempty_iff. assumption.
Qed.

Lemma line_matches_iff_subsequence_witness :
  wf_line line_dotted_x /\ s "x" <> [] /\
  exists l',
    filter (s "x") line_dotted_x = Ok l' /\
    (matches l' <> [] <-> subseq (s "x") (scanned line_dotted_x)) /\
    (len (raw_lower line_dotted_x) = len (raw line_dotted_x) ->
     (matches l' <> [] <-> subseq (s "x") (raw_lower line_dotted_x))).
Proof.
  split; [concrete_wf_line|]. split; [discriminate|].
  apply (line_matches_iff_subsequence line_dotted_x (s "x"));
    [concrete_wf_line|discriminate].
Defined.

(** The line U+0130 ["x"] is what the constructor builds under the case
    mapping of the examples; the query ["x"] is a subsequence of its
    lowercase text and yet finds no match. *)
Example dotted_capital_hides_the_tail :
  Line.init (L := lower_sample) [304; 120]%N 1 = line_dotted_x /\
  subseq (s "x") (raw_lower line_dotted_x) /\
  exists l', filter (s "x") line_dotted_x = Ok l' /\ matches l' = [].
Proof.
  split; [reflexivity|]. split.
  - vm_compute. apply subseq_skip, subseq_skip, subseq_take, subseq_nil.
  - eexists. split; [vm_compute; reflexivity|reflexivity].
Qed.

(** X2.  Every recorded match keeps to the leftmost positions: between
    two successive positions of a match, no character of the lowercase text
    equals the query character that the later position stands for. *)
Theorem matches_are_leftmost (self : AerojumpLine) (pattern : str) :
  wf_line self -> pattern <> [] ->
  exists l',
    filter pattern self = Ok l' /\
    Forall (leftmost (raw_lower self) pattern) (matches l').
Proof.
  intros Hwf Hp. destruct (filter_total pattern self Hwf) as [l' E].
  exists l'. split; [exact E|].
  pose proof (filter_positions_in_raw pattern self l' Hwf E) as Hb.
  rewrite (filter_matches_starts pattern self l' Hwf Hp E) in *.
  destruct (starts_spec (scanned self) pattern 0) as [Hf _].
  rewrite Forall_forall in Hf, Hb. apply Forall_forall. intros m Hm.
  apply leftmost_lower; [exact (Hb m Hm)|].
  destruct (Hf m Hm) as (_ & _ & H). exact H.
Qed.

Lemma matches_are_leftmost_witness :
  wf_line line_foobar /\ s "fbo" <> [] /\
  exists l',
    filter (s "fbo") line_foobar = Ok l' /\
    Forall (leftmost (raw_lower line_foobar) (s "fbo")) (matches l').
Proof.
  split; [concrete_wf_line|]. split; [discriminate|].
  apply (matches_are_leftmost line_foobar (s "fbo"));
    [concrete_wf_line|discriminate].
Defined.

(** X3.  The matches of a line come by strictly increasing first
    position: no two matches start at the same character. *)
Theorem match_starts_increase (self : AerojumpLine) (pattern : str) :
  wf_line self -> pattern <> [] ->
  exists l',
    filter pattern self = Ok l' /\
    StronglySorted (fun a b => hd 0 a < hd 0 b) (matches l').
Proof.
  intros Hwf Hp. destruct (filter_total pattern self Hwf) as [l' E].
  exists l'. split; [exact E|].
  rewrite (filter_matches_starts pattern self l' Hwf Hp E).
  apply starts_spec.
Qed.

Lemma match_starts_increase_witness :
  wf_line line_foobar /\ s "fbo" <> [] /\
  exists l',
    filter (s "fbo") line_foobar = Ok l' /\
    StronglySorted (fun a b => hd 0 a < hd 0 b) (matches l').
Proof.
  split; [concrete_wf_line|]. split; [discriminate|].
  apply (match_starts_increase line_foobar (s "fbo"));
    [concrete_wf_line|discriminate].
Defined.

(** ** Letter case *)

(** X4.  A query that holds a capital letter matches no line: the query
    is compared as typed with the lowercase text. *)
Theorem uppercase_query_never_matches (self : AerojumpLine) (pattern : str)
    (c : char) :
  wf_line self -> In c pattern -> is_upper c ->
  exists l', filter pattern self = Ok l' /\ matches l' = [].
Proof.
  intros Hwf Hin Hup.
  assert (Hp : pattern <> []) by (intros ->; destruct Hin).
  destruct (filter_spec pattern self Hwf Hp) as [ms [E Hms]].
  eexists. split; [exact E|]. cbn [matches].
  destruct ms as [|m ms]; [reflexivity|]. exfalso.
  inversion Hms as [|? ? (_ & Hlen & Hch) _]; subst.
  apply In_nth_error in Hin as [k Hk].
  destruct (nth_error m k) as [p|] eqn:Hm.
  - destruct (Hch k p Hm) as (_ & c' & Ht & Hc').
    rewrite Hk in Hc'. injection Hc' as <-.
    destruct Hwf as [_ Hno]. rewrite Forall_forall in Hno.
    exact (Hno c (nth_error_In _ _ Ht) Hup).
  - apply nth_error_None in Hm.
    assert (k < length pattern)%nat by (apply nth_error_Some; congruence).
    unfold len in Hlen. lia.
Qed.

Lemma uppercase_query_never_matches_witness :
  wf_line line_foobar /\ In 66%N (s "fBo") /\ is_upper 66%N /\
  exists l', filter (s "fBo") line_foobar = Ok l' /\ matches l' = [].
Proof.
  assert (H1 : wf_line line_foobar) by concrete_wf_line.
  assert (H2 : In 66%N (s "fBo")) by (right; left; reflexivity).
  assert (H3 : is_upper 66%N) by (unfold is_upper; lia).
  split; [exact H1|]. split; [exact H2|]. split; [exact H3|].
  exact (uppercase_query_never_matches line_foobar (s "fBo") 66%N H1 H2 H3).
Defined.

(** X5.  The case of the line is ignored: the matches, and for a
    non-empty query the scores, depend on the line only through the first
    [len(raw)] characters of its lowercase text.  Two lines that agree on
    them get the same matches and the same scores. *)
Theorem line_case_is_ignored (a b : AerojumpLine) (pattern : str) :
  wf_line a -> wf_line b -> scanned a = scanned b ->
  exists a' b',
    filter pattern a = Ok a' /\ filter pattern b = Ok b' /\
    matches a' = matches b' /\
    (pattern <> [] -> scores a' = scores b').
Proof.
  intros Ha Hb Hab.
  destruct pattern as [|p0 ps].
  - exists (set_matches a []), (set_matches b []).
    split; [reflexivity|]. split; [reflexivity|]. split; [reflexivity|].
    congruence.
  - assert (Hne : p0 :: ps <> []) by discriminate.
    destruct (filter_spec (p0 :: ps) a Ha Hne) as [ma [Ea _]].
    destruct (filter_spec (p0 :: ps) b Hb Hne) as [mb [Eb _]].
    pose proof (filter_matches_starts _ _ _ Ha Hne Ea) as Sa.
    pose proof (filter_matches_starts _ _ _ Hb Hne Eb) as Sb.
    cbn [matches] in Sa, Sb. subst ma mb.
    eexists. eexists. split; [exact Ea|]. split; [exact Eb|].
    cbn [matches scores]. rewrite Hab. split; reflexivity.
Qed.

Lemma line_case_is_ignored_witness :
  wf_line line_foobar /\ wf_line line_foobar_caps /\
  scanned line_foobar = scanned line_foobar_caps /\
  exists a' b',
    filter (s "fbo") line_foobar = Ok a' /\
    filter (s "fbo") line_foobar_caps = Ok b' /\
    matches a' = matches b' /\
    (s "fbo" <> [] -> scores a' = scores b').
Proof.
  split; [concrete_wf_line|]. split; [concrete_wf_line|].
  split; [reflexivity|].
  apply (line_case_is_ignored line_foobar line_foobar_caps (s "fbo"));
    [concrete_wf_line|concrete_wf_line|reflexivity].
Defined.

(** Two lines of ASCII text that differ in letter case only agree on the
    part of the lowercase text that the walk reads, whatever the
    lowercase map. *)
Lemma ascii_case_scanned {L : Lowercase} (ta tb : str) (na nb : Z) :
  Forall is_ascii ta -> Forall is_ascii tb ->
  map lower_ascii ta = map lower_ascii tb ->
  scanned (Line.init ta na) = scanned (Line.init tb nb).
Proof.
  intros Ha Hb Hab. rewrite (init_ascii ta na Ha), (init_ascii tb nb Hb).
  unfold scanned. cbn [raw raw_lower].
  rewrite !firstn_all2 by (rewrite length_map; apply le_n). exact Hab.
Qed.

(** The two example lines are what the constructor builds from
    ["fooBar fbo"] and ["FOOBAR FBO"], whatever the lowercase map. *)
Example foobar_lines_init {L : Lowercase} :
  Line.init (s "fooBar fbo") 1 = line_foobar /\
  Line.init (s "FOOBAR FBO") 7 = line_foobar_caps.
Proof.
  split; rewrite init_ascii by ascii_text; reflexivity.
Qed.

(** ** Contiguous occurrences score 1 *)

Lemma block_S (i : Z) (n : nat) : block i (S n) = (i + 1) :: block (i + 1) n.
Proof.
  unfold block. cbn [seq map]. f_equal; [lia|].
  rewrite <- seq_shift, map_map. apply map_ext. intros k. lia.
Qed.

Lemma block_length (i : Z) (n : nat) : length (block i n) = n.
Proof. unfold block. rewrite length_map, length_seq. reflexivity. Qed.

Lemma block_nth (i : Z) (n k : nat) :
  (k < n)%nat -> nth k (block i n) 0 = i + 1 + Z.of_nat k.
Proof.
  revert i k. induction n as [|n IH]; intros i k Hk; [lia|].
  rewrite block_S. destruct k as [|k]; cbn [nth]; [lia|].
  rewrite IH by lia. lia.
Qed.

Lemma block_consecutive (i : Z) (n : nat) : consecutive (block i n).
Proof.
  intros k Hk. rewrite block_length in Hk.
  rewrite !block_nth by lia. lia.
Qed.

Lemma greedy_block :
  forall (pat t : str) (i : Z),
    pat <> [] -> firstn (length pat) t = pat ->
    greedy t pat i = Some (block i (length pat)).
Proof.
  induction pat as [|p ps IH]; intros t i Hne H; [congruence|].
  destruct t as [|c t]; [discriminate|].
  cbn [length firstn] in H. injection H as -> H.
  cbn [greedy]. rewrite N.eqb_refl. cbn [length]. rewrite block_S.
  destruct ps as [|p1 ps]; [reflexivity|].
  rewrite (IH t (i + 1)) by (assumption || discriminate). reflexivity.
Qed.

Lemma starts_contains :
  forall (t : str) (p : char) (ps : str) (i : Z) (d : nat) (m : list Z),
    nth_error t d = Some p ->
    greedy (skipn d t) (p :: ps) (i + Z.of_nat d) = Some m ->
    In m (starts t (p :: ps) i).
Proof.
  induction t as [|c t IH]; intros p ps i d m Hd Hg.
  - destruct d; discriminate.
  - rewrite starts_cons. apply in_or_app. destruct d as [|d].
    + left. cbn in Hd. injection Hd as ->. rewrite N.eqb_refl.
      cbn [skipn] in Hg. replace (i + Z.of_nat 0) with i in Hg by lia.
      rewrite Hg. left. reflexivity.
    + right. cbn in Hd. cbn [skipn] in Hg.
      apply (IH p ps (i + 1) d m Hd).
      replace (i + 1 + Z.of_nat d) with (i + Z.of_nat (S d)) by lia. exact Hg.
Qed.

Lemma consecutive_nth (m : list Z) :
  consecutive m ->
  forall k, (k < length m)%nat -> nth k m 0 = nth 0 m 0 + Z.of_nat k.
Proof.
  intros H. induction k as [|k IH]; intros Hk; [lia|].
  rewrite H by lia. rewrite IH by lia. lia.
Qed.

(** A sound match with consecutive positions sits on a contiguous
    occurrence of the pattern. *)
Lemma consecutive_occurs (text pattern : str) (m : list Z) :
  pattern <> [] -> match_sound text pattern m -> consecutive m ->
  occurs_at pattern text (Z.to_nat (hd 0 m - 1)).
Proof.
  intros Hp (Hs & Hlen & Hch) Hcons. unfold occurs_at.
  assert (Hlen' : length m = length pattern) by (unfold len in Hlen; lia).
  assert (Hhd : hd 0 m = nth 0 m 0) by (destruct m; reflexivity).
  apply nth_error_ext. intros k. rewrite nth_error_firstn.
  destruct (Nat.ltb k (length pattern)) eqn:Hk.
  - apply Nat.ltb_lt in Hk. rewrite nth_error_skipn.
    assert (Hkm : (k < length m)%nat) by lia.
    pose proof (nth_error_nth' m 0 Hkm) as Hnk.
    assert (H0m : (0 < length m)%nat) by lia.
    pose proof (nth_error_nth' m 0 H0m) as Hn0.
    destruct (Hch k _ Hnk) as (Hb & c & Ht & Hc).
    destruct (Hch 0%nat _ Hn0) as (Hb0 & _).
    rewrite (consecutive_nth m Hcons k Hkm) in Ht.
    rewrite Hc, <- Ht. f_equal. rewrite Hhd. lia.
  - apply Nat.ltb_ge in Hk. symmetry. apply nth_error_None. assumption.
Qed.

(** X6.  A line holds a match of score 1 exactly when the query occurs
    as a block of adjacent characters in the first [len(raw)] characters of
    its lowercase text, which is all that [__match_from] reads. *)
Theorem full_score_iff_contiguous (self : AerojumpLine) (pattern : str) :
  wf_line self -> pattern <> [] ->
  exists l' ss,
    filter pattern self = Ok l' /\ scores l' = Some ss /\
    ((exists sc, In sc ss /\ (sc == 1)%Q) <->
     (exists i, occurs_at pattern (scanned self) i)).
Proof.
  intros Hwf Hp. destruct (filter_spec pattern self Hwf Hp) as [ms [E Hms]].
  pose proof (filter_matches_starts pattern self _ Hwf Hp E) as Hst.
  pose proof (filter_positions_in_raw pattern self _ Hwf E) as Hb.
  cbn [matches] in Hst, Hb.
  eexists. eexists. split; [exact E|]. split; [reflexivity|]. split.
  - intros (sc & Hin & Hsc). apply in_map_iff in Hin as (m & <- & Hm).
    rewrite Forall_forall in Hms, Hb. specialize (Hms m Hm).
    exists (Z.to_nat (hd 0 m - 1)). apply consecutive_occurs; try assumption.
    + apply match_sound_scanned; [exact Hwf|exact (Hb m Hm)|exact Hms].
    + destruct (score_bounds m (len pattern)) as (_ & _ & Hc).
      * eapply match_sound_nonempty; eassumption.
      * destruct Hms as (_ & Hlen & _). exact Hlen.
      * apply Hc. exact Hsc.
  - intros (i & Hocc). unfold occurs_at in Hocc.
    destruct pattern as [|p ps] eqn:Hpat; [congruence|]. rewrite <- Hpat in *.
    assert (Hi : nth_error (scanned self) i = Some p).
    { rewrite <- (Nat.add_0_r i), <- nth_error_skipn.
      destruct (skipn i (scanned self)) as [|c t].
      - rewrite Hpat in Hocc. discriminate.
      - rewrite Hpat in Hocc. cbn in Hocc. injection Hocc as -> _. reflexivity. }
    pose proof (greedy_block pattern (skipn i (scanned self)) (0 + Z.of_nat i)
                  Hp Hocc) as Hg.
    assert (Hin : In (block (0 + Z.of_nat i) (length pattern)) ms).
    { rewrite Hst, Hpat. eapply starts_contains; [exact Hi|].
      rewrite <- Hpat. exact Hg. }
    exists ((1 + adjacent_pairs (block (0 + Z.of_nat i) (length pattern)))
            # Z.to_pos (len pattern)).
    split.
    + apply in_map_iff. eexists. split; [reflexivity|exact Hin].
    + destruct (score_bounds (block (0 + Z.of_nat i) (length pattern)) (len pattern))
        as (_ & _ & Hc).
      * rewrite Hpat. cbn [length]. rewrite block_S. discriminate.
      * unfold len. rewrite block_length. reflexivity.
      * apply Hc. apply block_consecutive.
Qed.

Lemma full_score_iff_contiguous_witness :
  wf_line line_foobar /\ s "fbo" <> [] /\
  exists l' ss,
    filter (s "fbo") line_foobar = Ok l' /\ scores l' = Some ss /\
    ((exists sc, In sc ss /\ (sc == 1)%Q) <->
     (exists i, occurs_at (s "fbo") (scanned line_foobar) i)).
Proof.
  split; [concrete_wf_line|]. split; [discriminate|].
  apply (full_score_iff_contiguous line_foobar (s "fbo"));
    [concrete_wf_line|discriminate].
Defined.

(** * Further properties of the engine *)

(** ** What the navigation commands leave alone *)

Lemma same_frame_refl (a : Aerojump) : same_frame a a.
Proof. repeat split. Qed.

Lemma same_frame_trans (a b c : Aerojump) :
  same_frame a b -> same_frame b c -> same_frame a c.
Proof.
  unfold same_frame. intros (A1 & A2 & A3 & A4 & A5 & A6 & A7 & A8)
                            (B1 & B2 & B3 & B4 & B5 & B6 & B7 & B8).
  repeat split; congruence.
Qed.

Lemma refresh_highlights_frame (a b : Aerojump) :
  refresh_highlights a = Ok b ->
  same_frame a b /\ cursor_line_index b = cursor_line_index a /\
  cursor_match_index b = cursor_match_index a.
Proof.
  unfold refresh_highlights. intros H.
  destruct (filtered_lines a) as [fl|]; [|discriminate]. cbn [attr bind] in H.
  destruct (update_highlights fl (cursor_line_index a) (cursor_match_index a));
    [|discriminate].
  cbn [bind] in H. injection H as <-. repeat split.
Qed.

Lemma cursor_line_up_frame (a b : Aerojump) :
  cursor_line_up a = Ok b -> same_frame a b.
Proof.
  unfold cursor_line_up. intros H. apply refresh_highlights_frame in H as [H _].
  eapply same_frame_trans; [|exact H]. unfold_setters.
  destruct (cursor_line_index a - 1 <? 0); repeat split.
Qed.

Lemma cursor_line_down_frame (a b : Aerojump) :
  cursor_line_down a = Ok b -> same_frame a b.
Proof.
  unfold cursor_line_down. unfold_setters. intros H.
  destruct (filtered_lines a) as [fl|] eqn:Hfl; [|discriminate].
  cbn [attr bind] in H. apply refresh_highlights_frame in H as [H _].
  eapply same_frame_trans; [|exact H]. unfold_setters.
  destruct (len fl <=? cursor_line_index a + 1); repeat split; auto.
Qed.

Lemma run_nav_frame (c : nav_command) (a b : Aerojump) :
  run_nav c a = Ok b -> same_frame a b.
Proof.
  destruct c; cbn [run_nav].
  - apply cursor_line_up_frame.
  - apply cursor_line_down_frame.
  - unfold cursor_match_next. unfold_setters. intros H.
    destruct (filtered_lines a) as [fl|] eqn:Hfl; [|discriminate].
    cbn [attr bind] in H.
    destruct (py_get fl (cursor_line_index a)) as [l|]; [|discriminate].
    cbn [bind] in H.
    destruct (len (matches l) <=? cursor_match_index a + 1).
    + apply cursor_line_down_frame in H.
      eapply same_frame_trans; [|exact H]. repeat split; auto.
    + apply refresh_highlights_frame in H as [H _].
      eapply same_frame_trans; [|exact H]. repeat split; auto.
  - unfold cursor_match_prev. unfold_setters. intros H.
    destruct (cursor_match_index a - 1 <? 0).
    + match type of H with
      | bind (cursor_line_up ?x) _ = _ =>
          destruct (cursor_line_up x) as [a1|] eqn:E1; [|discriminate]
      end.
      cbn [bind] in H. apply cursor_line_up_frame in E1.
      destruct (filtered_lines a1) as [fl|] eqn:Hfl1; [|discriminate].
      cbn [attr bind] in H.
      destruct (py_get fl (cursor_line_index a1)) as [l|]; [|discriminate].
      cbn [bind] in H. injection H as <-.
      eapply same_frame_trans; [|eapply same_frame_trans; [exact E1|]];
        repeat split; auto.
    + apply refresh_highlights_frame in H as [H _].
      eapply same_frame_trans; [|exact H]. repeat split; auto.
Qed.

(** X7.  A navigation command that ends normally assigns nothing but the
    cursor indices and the highlights: the lines, the filtered lines, the
    filter string, the log and the original cursor and viewport are those
    of before, from any state. *)
Theorem navigation_keeps_frame (c : nav_command) (a b : Aerojump) :
  run_nav c a = Ok b -> same_frame a b.
Proof. apply run_nav_frame. Qed.

Lemma navigation_keeps_frame_witness :
  run_nav MatchPrev state_abab_a
  = Ok (ok_or state_abab (run_nav MatchPrev state_abab_a)) /\
  same_frame state_abab_a (ok_or state_abab (run_nav MatchPrev state_abab_a)).
Proof.
  assert (H : run_nav MatchPrev state_abab_a
              = Ok (ok_or state_abab (run_nav MatchPrev state_abab_a)))
    by (vm_compute; reflexivity).
  split; [exact H|].
  exact (navigation_keeps_frame MatchPrev state_abab_a _ H).
Defined.

(** ** A filter pass in full *)

Lemma filtered_from_sound (pattern : str) (ls0 ls : list AerojumpLine) :
  Forall wf_line ls0 -> Forall2 (filtered_from pattern) ls0 ls ->
  Forall (fun l => Forall (match_sound (scanned l) pattern) (matches l)) ls /\
  map num ls = map num ls0 /\
  map raw_lower ls = map raw_lower ls0.
Proof.
  intros Hwf HF. induction HF as [|l0 l ls0 ls H0 HF IH].
  - repeat split; constructor.
  - inversion Hwf as [|? ? Hwf0 Hwf']; subst.
    destruct (IH Hwf') as (IH1 & IH2 & IH3).
    destruct (filtered_from_facts pattern l0 l Hwf0 H0)
      as (Hraw & Hlow & Hnum & Hnil & _ & Hsound).
    split; [|split; cbn; congruence].
    constructor; [|assumption].
    assert (Hwfl : wf_line l)
      by (unfold wf_line in *; rewrite Hraw, Hlow; exact Hwf0).
    destruct H0 as (l1 & E & _ & _ & _ & Hms & _).
    pose proof (filter_positions_in_raw pattern l0 l1 Hwf0 E) as Hb.
    rewrite <- Hms, <- Hraw in Hb.
    assert (Hs : Forall (match_sound (raw_lower l) pattern) (matches l)).
    { destruct pattern as [|p0 ps].
      - rewrite Hnil by reflexivity. constructor.
      - apply Hsound. discriminate. }
    rewrite Forall_forall in Hs, Hb. apply Forall_forall. intros m Hm.
    apply match_sound_scanned; auto.
Qed.

Lemma Forall_filter {A : Type} (P : A -> Prop) (f : A -> bool) (l : list A) :
  Forall P l -> Forall P (List.filter f l).
Proof.
  intros H. apply Forall_forall. intros x Hx. apply filter_In in Hx as [Hx _].
  rewrite Forall_forall in H. auto.
Qed.

(** Everything a filter pass establishes, in one statement. *)
Lemma apply_filter_full (pattern : str) (self : Aerojump) :
  wf self ->
  exists ls,
    Forall2 (filtered_from pattern) (lines self) ls /\
    Forall wf_line ls /\
    (forall k l, nth_error (List.filter has_matches ls) k = Some l ->
                 filt_index l = Some (Z.of_nat k)) /\
    ((List.filter has_matches ls = [] /\
      apply_filter pattern self
      = Ok (mkAerojump (log_str self) (og_top_line self) (og_cursor_pos self)
              (num_lines self) pattern ls (cursor_line_index self)
              (cursor_match_index self) false (Some []) (highlights self)))
     \/
     (List.filter has_matches ls <> [] /\
      exists c m fi mi,
        0 <= fi /\
        nth_error (List.filter has_matches ls) (Z.to_nat fi) = Some c /\
        0 <= mi /\ nth_error (matches c) (Z.to_nat mi) = Some m /\
        apply_filter pattern self
        = Ok (mkAerojump (log_str self) (og_top_line self) (og_cursor_pos self)
                (num_lines self) pattern ls fi mi true
                (Some (List.filter has_matches ls))
                (Some (match_spans (List.filter has_matches ls)
                       ++ spans_of_match c m))))).
Proof.
  intros Hwf.
  destruct (apply_filter_lines pattern self Hwf)
    as (ls & E & HF & Hwf' & Hraw & Hsc & Hnil & Hidx).
  exists ls. split; [assumption|]. split; [assumption|]. split; [assumption|].
  destruct (List.filter has_matches ls) as [|l0 fl0] eqn:Hfl.
  - left. split; [reflexivity|]. apply apply_filter_no_results. exact E.
  - right. split; [discriminate|]. rewrite <- Hfl in *.
    destruct (apply_filter_results pattern self ls (List.filter has_matches ls) E)
      as (k & c & sc & m & fi & mi & _ & _ & Hfi & Hc & Hb & Hm & E');
      try assumption.
    { rewrite Hfl. discriminate. }
    exists c, m, fi, mi. repeat (split; [assumption|]).
    split; [destruct Hb as (ss & _ & Hb & _); lia|]. split; assumption.
Qed.

Lemma subseq_scanned_iff (pattern : str) (l0 l : AerojumpLine) :
  wf_line l0 -> filtered_from pattern l0 l ->
  (matches l <> [] <-> pattern <> [] /\ subseq pattern (scanned l0)).
Proof.
  intros Hwf (l1 & E & _ & _ & _ & Hms & _). rewrite Hms.
  destruct pattern as [|p0 ps].
  - rewrite filter_empty in E. injection E as <-. cbn. split; [congruence|].
    intros [H _]. congruence.
  - assert (Hne : p0 :: ps <> []) by discriminate.
    rewrite (filter_matches_starts _ _ _ Hwf Hne E).
    rewrite (starts_nonempty_iff _ _ 0 Hne). tauto.
Qed.

Lemma filtered_from_subseq_all (pattern : str) (ls0 ls : list AerojumpLine) :
  Forall wf_line ls0 -> Forall2 (filtered_from pattern) ls0 ls ->
  Forall2 (fun l0 l =>
             raw l = raw l0 /\ num l = num l0 /\
             (matches l <> [] <->
              pattern <> [] /\ subseq pattern (scanned l0)))
    ls0 ls.
Proof.
  intros Hwf HF. induction HF as [|l0 l ls0 ls H0 HF IH]; [constructor|].
  inversion Hwf as [|? ? Hwf0 Hwf']; subst.
  constructor; [|apply IH; assumption].
  destruct (filtered_from_facts pattern l0 l Hwf0 H0) as (Hraw & _ & Hnum & _).
  split; [assumption|]. split; [assumption|].
  apply subseq_scanned_iff; assumption.
Qed.

(** X8.  After a filter pass the filtered lines are the lines with a
    match, in document order and numbered 0, 1, ... by [filt_index]; a line
    has a match exactly when the query is not empty and is a subsequence of
    the first [len(raw)] characters of its lowercase text, which is all
    that [__match_from] reads; no line changes its text or its number. *)
Theorem filtered_lines_are_the_matching_lines (pattern : str) (self : Aerojump) :
  wf self ->
  exists self' fl,
    apply_filter pattern self = Ok self' /\
    filtered_lines self' = Some fl /\
    fl = List.filter has_matches (lines self') /\
    (forall k l, nth_error fl k = Some l -> filt_index l = Some (Z.of_nat k)) /\
    Forall2 (fun l0 l =>
               raw l = raw l0 /\ num l = num l0 /\
               (matches l <> [] <->
                pattern <> [] /\ subseq pattern (scanned l0)))
      (lines self) (lines self').
Proof.
  intros Hwf.
  destruct (apply_filter_full pattern self Hwf) as (ls & HF & _ & Hidx & Hcases).
  pose proof (filtered_from_subseq_all pattern _ ls Hwf HF) as HF2.
  destruct Hcases as [[Hnil E]|[Hne (c & m & fi & mi & _ & _ & _ & _ & E)]].
  - eexists. exists []. split; [exact E|]. cbn [filtered_lines lines].
    split; [reflexivity|]. split; [symmetry; exact Hnil|].
    split; [|exact HF2]. intros k l H. destruct k; discriminate.
  - eexists. exists (List.filter has_matches ls). split; [exact E|].
    cbn [filtered_lines lines]. split; [reflexivity|]. split; [reflexivity|].
    split; [exact Hidx|exact HF2].
Qed.

Lemma filtered_lines_are_the_matching_lines_witness :
  wf state_two /\
  exists self' fl,
    apply_filter (s "ab") state_two = Ok self' /\
    filtered_lines self' = Some fl /\
    fl = List.filter has_matches (lines self') /\
    (forall k l, nth_error fl k = Some l -> filt_index l = Some (Z.of_nat k)) /\
    Forall2 (fun l0 l =>
               raw l = raw l0 /\ num l = num l0 /\
               (matches l <> [] <->
                s "ab" <> [] /\ subseq (s "ab") (scanned l0)))
      (lines state_two) (lines self').
Proof.
  assert (Hwf : wf state_two) by concrete_wf.
  split; [exact Hwf|].
  exact (filtered_lines_are_the_matching_lines (s "ab") state_two Hwf).
Defined.

(** ** What every reachable engine satisfies *)

Lemma run_nav_highlights (c : nav_command) (self self' : Aerojump)
    (fl : list AerojumpLine) :
  nav_valid self fl -> run_nav c self = Ok self' ->
  exists l m, In l fl /\ In m (matches l) /\
    highlights self' = Some (match_spans fl ++ spans_of_match l m).
Proof.
  intros Hv E. pose proof Hv as (Hfl & Hall & l & Hi & Hl & Hj).
  assert (Hdown : forall st, cursor_line_down self = Ok st ->
            exists l m, In l fl /\ In m (matches l) /\
              highlights st = Some (match_spans fl ++ spans_of_match l m)).
  { intros st Est.
    destruct (cursor_line_down_spec self fl Hfl Hall Hi) as (l' & m & Hl' & Hm & E').
    rewrite E' in Est. injection Est as <-. exists l', m.
    split; [eapply nth_error_In; exact Hl'|].
    split; [eapply nth_error_In; exact Hm|reflexivity]. }
  destruct c; cbn [run_nav] in E.
  - destruct (cursor_line_up_spec self fl Hfl Hall Hi) as (l' & m & Hl' & Hm & E').
    rewrite E' in E. injection E as <-. exists l', m.
    split; [eapply nth_error_In; exact Hl'|].
    split; [eapply nth_error_In; exact Hm|reflexivity].
  - apply Hdown. exact E.
  - destruct (Z_lt_le_dec (cursor_match_index self + 1) (len (matches l)))
      as [Hin|Hover].
    + destruct (cursor_match_next_step self fl l Hfl (proj1 Hi) Hl (proj1 Hj) Hin)
        as (m & Hm & E').
      rewrite E' in E. injection E as <-. exists l, m.
      split; [eapply nth_error_In; exact Hl|].
      split; [eapply nth_error_In; exact Hm|reflexivity].
    + rewrite (cursor_match_next_overflow self fl l Hfl (proj1 Hi) Hl Hover) in E.
      apply Hdown. exact E.
  - destruct (Z_lt_le_dec (cursor_match_index self - 1) 0) as [Hneg|Hpos].
    + destruct (cursor_match_prev_underflow self fl Hfl Hall Hi Hneg)
        as (l' & m & Hl' & Hm & E').
      rewrite E' in E. injection E as <-. exists l', m.
      split; [eapply nth_error_In; exact Hl'|].
      split; [eapply nth_error_In; exact Hm|reflexivity].
    + destruct (cursor_match_prev_step self fl l Hfl (proj1 Hi) Hl Hpos (proj2 Hj))
        as (m & Hm & E').
      rewrite E' in E. injection E as <-. exists l, m.
      split; [eapply nth_error_In; exact Hl|].
      split; [eapply nth_error_In; exact Hm|reflexivity].
Qed.

Lemma reachable_consistent {L : Lowercase} (self : Aerojump) :
  reachable self -> consistent self.
Proof.
  induction 1 as [ls0 lin_nums cursor_pos top_line n self E
                 |pattern self self' Hr IH E
                 |c self self' Hr IH E
                 |c self e i j Hr IH E].
  - destruct (Z_lt_le_dec (len lin_nums) (len ls0)) as [Hlt|Hle].
    + rewrite init_short in E by assumption. discriminate.
    + rewrite init_enough in E by assumption. injection E as <-.
      split; [reflexivity|]. split; [reflexivity|]. intros fl H. discriminate.
  - destruct (reachable_invariant self Hr) as [Hwf _].
    destruct IH as (Hlog & _).
    destruct (apply_filter_full pattern self Hwf) as (ls & HF & Hwf' & Hidx & Hcases).
    destruct (filtered_from_sound pattern _ ls Hwf HF) as (Hsound & _).
    destruct (filtered_from_all pattern _ ls Hwf HF) as (_ & _ & _ & Hempty).
    destruct Hcases as [[Hnil E']|[Hne (c & m & fi & mi & Hfi & Hc & Hmi & Hm & E')]];
      rewrite E' in E; injection E as <-.
    + split; [exact Hlog|]. split; [reflexivity|].
      cbn [filtered_lines lines filter_string highlights].
      intros fl [= <-]. split; [symmetry; exact Hnil|].
      split; [intros k l H; destruct k; discriminate|].
      split; [constructor|congruence].
    + split; [exact Hlog|]. split.
      * cbn [has_filter_results filtered_lines].
        destruct (List.filter has_matches ls); [congruence|reflexivity].
      * cbn [filtered_lines lines filter_string highlights].
        intros fl [= <-]. split; [reflexivity|]. split; [exact Hidx|].
        split; [apply Forall_filter; exact Hsound|]. intros _. split.
        -- intros ->. apply Hne. apply Hempty. reflexivity.
        -- exists c, m. split; [eapply nth_error_In; exact Hc|].
           split; [eapply nth_error_In; exact Hm|reflexivity].
  - destruct (reachable_invariant self Hr) as [Hwf Hv].
    pose proof (run_nav_frame c self self' E)
      as (F1 & F2 & F3 & F4 & F5 & F6 & F7 & F8).
    destruct IH as (Hlog & Hhas & Hfl).
    split; [congruence|]. split; [rewrite <- F7, <- F8; exact Hhas|].
    intros fl Hfl'. rewrite <- F8 in Hfl'.
    destruct (Hfl fl Hfl') as (H1 & H2 & H3 & H4).
    rewrite <- F5, <- F6. split; [assumption|]. split; [assumption|].
    split; [assumption|]. intros Hne. split; [apply H4; assumption|].
    eapply run_nav_highlights; [|exact E]. apply Hv; assumption.
  - exact IH.
Qed.

(** ** The cursor and the highlights of a reachable engine *)

Lemma filtered_line_wf (self : Aerojump) (fl : list AerojumpLine) (l : AerojumpLine) :
  wf self -> fl = List.filter has_matches (lines self) -> In l fl -> wf_line l.
Proof.
  intros Hwf -> Hl. apply filter_In in Hl as [Hl _].
  unfold wf in Hwf. rewrite Forall_forall in Hwf. auto.
Qed.

Lemma match_sound_in_range (text pattern : str) (m : list Z) (i : Z) :
  match_sound text pattern m -> In i m -> 1 <= i <= len text.
Proof.
  intros (_ & _ & Hch) Hi. apply In_nth_error in Hi as [k Hk].
  apply (Hch k i Hk).
Qed.

(** X9.  In every reachable state [get_cursor] ends normally.  Without
    filtered lines it returns the original cursor; with filtered lines it
    returns the number of the selected line and the 0-based column of the
    first position of the selected match, a column of that line at which
    the lowercase text holds the first character of the filter string. *)
Theorem cursor_is_on_the_selected_match {L : Lowercase} (self : Aerojump) :
  reachable self ->
  match filtered_lines self with
  | Some (l0 :: fl0) =>
      exists l m p c,
        nth_error (l0 :: fl0) (Z.to_nat (cursor_line_index self)) = Some l /\
        nth_error (matches l) (Z.to_nat (cursor_match_index self)) = Some m /\
        nth_error m 0 = Some p /\
        get_cursor self = Ok (num l, p - 1) /\
        0 <= p - 1 < len (raw l) /\
        nth_error (raw_lower l) (Z.to_nat (p - 1)) = Some c /\
        nth_error (filter_string self) 0 = Some c
  | _ => get_cursor self = Ok (og_cursor_pos self)
  end.
Proof.
  intros Hr. destruct (reachable_invariant self Hr) as [Hwf Hv].
  destruct (reachable_consistent self Hr) as (_ & Hhas & Hcons).
  destruct (filtered_lines self) as [[|l0 fl0]|] eqn:Hfl;
    try (unfold get_cursor; rewrite Hhas; reflexivity).
  destruct (Hv _ eq_refl ltac:(discriminate)) as (_ & _ & l & Hi & Hl & Hj).
  destruct (Hcons _ eq_refl) as (Hfilt & _ & Hsound & Hne).
  destruct (Hne ltac:(discriminate)) as (Hfs & _).
  destruct (nth_error_in_range (matches l) _ Hj) as [m Hm].
  assert (Hlin : In l (l0 :: fl0)) by (eapply nth_error_In; exact Hl).
  assert (Hms' : match_sound (scanned l) (filter_string self) m).
  { rewrite Forall_forall in Hsound. specialize (Hsound l Hlin).
    rewrite Forall_forall in Hsound. apply Hsound. eapply nth_error_In. exact Hm. }
  pose proof (filtered_line_wf self _ l Hwf Hfilt Hlin) as Hwl.
  destruct (match_sound_lower l _ m Hwl Hms') as [Hms Hin].
  assert (Hmlen : 0 < len m).
  { destruct Hms as (_ & -> & _). destruct (filter_string self); [congruence|].
    unfold len. cbn. lia. }
  destruct (nth_error_in_range m 0 ltac:(lia)) as [p Hp].
  change (Z.to_nat 0) with 0%nat in Hp.
  destruct Hms as (_ & _ & Hch). destruct (Hch 0%nat p Hp) as (Hb & c & Hc & Hq).
  rewrite Forall_forall in Hin. pose proof (Hin p (nth_error_In _ _ Hp)) as Hpr.
  exists l, m, p, c. repeat (split; [assumption|]).
  split; [|split; [lia|split; assumption]].
  unfold get_cursor. rewrite Hhas, Hfl. cbn [negb attr bind].
  destruct (py_get_in_range (l0 :: fl0) (cursor_line_index self) Hi) as (l' & El & Hl').
  rewrite Hl in Hl'. injection Hl' as <-. rewrite El. cbn [bind].
  destruct (py_get_in_range (matches l) (cursor_match_index self) Hj) as (m' & Em & Hm').
  rewrite Hm in Hm'. injection Hm' as <-. rewrite Em. cbn [bind].
  destruct (py_get_in_range m 0 ltac:(lia)) as (p' & Ep & Hp').
  change (Z.to_nat 0) with 0%nat in Hp'. rewrite Hp in Hp'. injection Hp' as <-.
  rewrite Ep. reflexivity.
Qed.

Lemma reachable_state_abab_a {L : Lowercase} : reachable state_abab_a.
Proof.
  apply (reach_filter (s "a") state_abab); [|vm_compute; reflexivity].
  apply (reach_init [s "abab"] [1] (1, 0) (1, 0) 10). apply state_abab_init.
Qed.

Lemma cursor_is_on_the_selected_match_witness :
  reachable (L := lower_sample) state_abab_a /\
  match filtered_lines state_abab_a with
  | Some (l0 :: fl0) =>
      exists l m p c,
        nth_error (l0 :: fl0) (Z.to_nat (cursor_line_index state_abab_a)) = Some l /\
        nth_error (matches l) (Z.to_nat (cursor_match_index state_abab_a)) = Some m /\
        nth_error m 0 = Some p /\
        get_cursor state_abab_a = Ok (num l, p - 1) /\
        0 <= p - 1 < len (raw l) /\
        nth_error (raw_lower l) (Z.to_nat (p - 1)) = Some c /\
        nth_error (filter_string state_abab_a) 0 = Some c
  | _ => get_cursor state_abab_a = Ok (og_cursor_pos state_abab_a)
  end.
Proof.
  split; [exact reachable_state_abab_a|].
  exact (cursor_is_on_the_selected_match (L := lower_sample) state_abab_a
           reachable_state_abab_a).
Defined.

Lemma line_spans_length (l : AerojumpLine) (ms : list (list Z)) (n : nat) :
  Forall (fun m => length m = n) ms ->
  length (flat_map (fun m => map (fun i => (SearchResult, num l - 1, i - 1, i)) m) ms)
  = (length ms * n)%nat.
Proof.
  induction 1 as [|m ms Hm Hms IH]; [reflexivity|].
  cbn [flat_map length]. rewrite length_app, length_map, IH, Hm. lia.
Qed.

Lemma match_spans_cons (l : AerojumpLine) (fl : list AerojumpLine) :
  match_spans (l :: fl)
  = flat_map (fun m => map (fun i => (SearchResult, num l - 1, i - 1, i)) m)
      (matches l)
    ++ match_spans fl.
Proof. reflexivity. Qed.

Lemma match_count_cons (l : AerojumpLine) (fl : list AerojumpLine) :
  match_count (l :: fl) = (length (matches l) + match_count fl)%nat.
Proof. reflexivity. Qed.

Lemma match_spans_length (fl : list AerojumpLine) (n : nat) :
  Forall (fun l => Forall (fun m => length m = n) (matches l)) fl ->
  length (match_spans fl) = (match_count fl * n)%nat.
Proof.
  induction 1 as [|l fl Hl Hfl IH]; [reflexivity|].
  rewrite match_spans_cons, match_count_cons, length_app.
  rewrite (line_spans_length l (matches l) n Hl).
  unfold Highlight in *. rewrite IH. lia.
Qed.

Lemma match_spans_in (fl : list AerojumpLine) (h : Highlight) :
  In h (match_spans fl) ->
  exists l m i, In l fl /\ In m (matches l) /\ In i m /\
                h = (SearchResult, num l - 1, i - 1, i).
Proof.
  unfold match_spans. intros H.
  apply in_flat_map in H as (l & Hl & H).
  apply in_flat_map in H as (m & Hm & H).
  apply in_map_iff in H as (i & <- & Hi). eauto 8.
Qed.

(** X10.  In every reachable state with filtered lines [get_highlights]
    ends normally; the list is the [SearchResult] entries of all matches
    followed by the [SearchHighlight] entries of one match: one cursor
    entry per character of the filter string, one entry per matched
    character overall, each entry one column wide inside the text of a
    filtered line. *)
Theorem highlights_cover_the_matches {L : Lowercase} (self : Aerojump)
    (fl : list AerojumpLine) :
  reachable self -> filtered_lines self = Some fl -> fl <> [] ->
  exists hl,
    get_highlights self = Ok hl /\
    hl = match_spans fl ++ cursor_spans hl /\
    length (cursor_spans hl) = length (filter_string self) /\
    length hl = ((match_count fl + 1) * length (filter_string self))%nat /\
    Forall (highlight_in_text fl) hl.
Proof.
  intros Hr Hfl Hne. destruct (reachable_invariant self Hr) as [Hwf _].
  destruct (reachable_consistent self Hr) as (_ & _ & Hcons).
  destruct (Hcons fl Hfl) as (Hfilt & _ & Hsound & Hhl).
  destruct (Hhl Hne) as (_ & l & m & Hl & Hm & Eh).
  assert (Hs : forall l' m', In l' fl -> In m' (matches l') ->
                 match_sound (scanned l') (filter_string self) m').
  { intros l' m' Hl' Hm'. rewrite Forall_forall in Hsound.
    specialize (Hsound l' Hl'). rewrite Forall_forall in Hsound. auto. }
  assert (Hlenm : forall l' m', In l' fl -> In m' (matches l') ->
                    length m' = length (filter_string self)).
  { intros l' m' Hl' Hm'. destruct (Hs l' m' Hl' Hm') as (_ & H & _).
    unfold len in H. lia. }
  assert (Hcol : forall l' m' i, In l' fl -> In m' (matches l') -> In i m' ->
                   0 <= i - 1 < len (raw l')).
  { intros l' m' i Hl' Hm' Hi.
    pose proof (match_sound_in_range _ _ _ i (Hs l' m' Hl' Hm') Hi).
    rewrite (scanned_length l' (filtered_line_wf self fl l' Hwf Hfilt Hl')) in H.
    lia. }
  exists (match_spans fl ++ spans_of_match l m).
  split; [unfold get_highlights; rewrite Eh; reflexivity|].
  rewrite cursor_spans_update. split; [reflexivity|].
  assert (Hsp : length (spans_of_match l m) = length (filter_string self)).
  { unfold spans_of_match. rewrite length_map. apply (Hlenm l m); assumption. }
  split; [exact Hsp|]. split.
  - rewrite length_app, Hsp.
    rewrite (match_spans_length fl (length (filter_string self))); [lia|].
    apply Forall_forall. intros l' Hl'. apply Forall_forall. intros m' Hm'.
    apply (Hlenm l' m'); assumption.
  - apply Forall_app. split; apply Forall_forall; intros h Hh.
    + apply match_spans_in in Hh as (l' & m' & i & Hl' & Hm' & Hi & ->).
      cbn. split; [lia|]. exists l'. split; [assumption|]. split; [reflexivity|].
      eapply Hcol; eassumption.
    + unfold spans_of_match in Hh. apply in_map_iff in Hh as (i & <- & Hi).
      cbn. split; [lia|]. exists l. split; [assumption|]. split; [reflexivity|].
      eapply Hcol; eassumption.
Qed.

Lemma highlights_cover_the_matches_witness :
  reachable (L := lower_sample) state_abab_a /\
  filtered_lines state_abab_a = Some [line_abab_a] /\
  [line_abab_a] <> [] /\
  exists hl,
    get_highlights state_abab_a = Ok hl /\
    hl = match_spans [line_abab_a] ++ cursor_spans hl /\
    length (cursor_spans hl) = length (filter_string state_abab_a) /\
    length hl
    = ((match_count [line_abab_a] + 1) * length (filter_string state_abab_a))%nat /\
    Forall (highlight_in_text [line_abab_a]) hl.
Proof.
  assert (Hfl : filtered_lines state_abab_a = Some [line_abab_a])
    by (vm_compute; reflexivity).
  assert (Hne : [line_abab_a] <> []) by discriminate.
  split; [exact reachable_state_abab_a|]. split; [exact Hfl|]. split; [exact Hne|].
  exact (highlights_cover_the_matches (L := lower_sample) state_abab_a
           [line_abab_a] reachable_state_abab_a Hfl Hne).
Defined.

(** ** A whole session *)

Lemma evolves_reachable {L : Lowercase} (a b : Aerojump) :
  reachable a -> evolves a b -> reachable b.
Proof.
  intros Ha. induction 1 as [|pattern b b' _ IH E|c b b' _ IH E|c b e i j _ IH E].
  - exact Ha.
  - eapply reach_filter; eassumption.
  - eapply reach_nav; eassumption.
  - eapply reach_raise; eassumption.
Qed.

Lemma apply_filter_frame (pattern : str) (a b : Aerojump) :
  wf a -> apply_filter pattern a = Ok b ->
  wf b /\ log_str b = log_str a /\ og_top_line b = og_top_line a /\
  og_cursor_pos b = og_cursor_pos a /\ num_lines b = num_lines a /\
  map raw (lines b) = map raw (lines a) /\
  map num (lines b) = map num (lines a).
Proof.
  intros Hwf E.
  destruct (apply_filter_full pattern a Hwf) as (ls & HF & Hwf' & _ & Hcases).
  destruct (filtered_from_all pattern _ ls Hwf HF) as (_ & Hraw & _).
  destruct (filtered_from_sound pattern _ ls Hwf HF) as (_ & Hnum & _).
  destruct Hcases as [[_ E']|[_ (c & m & fi & mi & _ & _ & _ & _ & E')]];
    rewrite E' in E; injection E as <-; cbn; repeat split; assumption.
Qed.

Lemma evolves_frame (a b : Aerojump) :
  wf a -> evolves a b ->
  wf b /\ log_str b = log_str a /\ og_top_line b = og_top_line a /\
  og_cursor_pos b = og_cursor_pos a /\ num_lines b = num_lines a /\
  map raw (lines b) = map raw (lines a) /\
  map num (lines b) = map num (lines a).
Proof.
  intros Hwf. induction 1 as [|pattern b b' _ IH E|c b b' _ IH E|c b e i j _ IH E].
  - repeat split; assumption.
  - destruct IH as (W & I1 & I2 & I3 & I4 & I5 & I6).
    destruct (apply_filter_frame pattern b b' W E) as (W' & F1 & F2 & F3 & F4 & F5 & F6).
    split; [assumption|]. repeat split; congruence.
  - destruct IH as (W & I1 & I2 & I3 & I4 & I5 & I6).
    destruct (run_nav_frame c b b' E) as (F1 & F2 & F3 & F4 & F5 & F6 & F7 & F8).
    split; [unfold wf in *; rewrite <- F6; assumption|].
    repeat split; congruence.
  - exact IH.
Qed.

Lemma fold_left_snoc {A : Type} (l : list (Z * A)) (acc : list Z) :
  fold_left (fun lin_nums '(i, _) => lin_nums ++ [i + 1]) l acc
  = acc ++ map (fun p => fst p + 1) l.
Proof.
  revert acc. induction l as [|[i x] l IH]; intros acc; cbn [fold_left map].
  - rewrite app_nil_r. reflexivity.
  - rewrite IH, <- app_assoc. reflexivity.
Qed.

Lemma map_fst_combine {A B : Type} (l1 : list A) (l2 : list B) :
  length l1 = length l2 -> map fst (combine l1 l2) = l1.
Proof.
  revert l2. induction l1 as [|a l1 IH]; intros [|b l2] H; try discriminate;
    [reflexivity|].
  cbn. f_equal. apply IH. cbn in H. lia.
Qed.

Lemma map_snd_combine {A B : Type} (l1 : list A) (l2 : list B) :
  length l1 = length l2 -> map snd (combine l1 l2) = l2.
Proof.
  revert l2. induction l1 as [|a l1 IH]; intros [|b l2] H; try discriminate;
    [reflexivity|].
  cbn. f_equal. apply IH. cbn in H. lia.
Qed.

Lemma range_shift (n : Z) : map (fun i => i + 1) (range 0 n) = range 1 (n + 1).
Proof.
  unfold range. rewrite map_map. replace (n + 1 - 1) with (n - 0) by lia.
  apply map_ext. intros k. lia.
Qed.

Lemma range_sorted (lo hi : Z) : StronglySorted Z.lt (range lo hi).
Proof.
  unfold range. generalize (Z.to_nat (hi - lo)) as n. intros n.
  revert lo. induction n as [|n IH]; intros lo; [constructor|].
  cbn [seq map]. rewrite <- seq_shift, map_map.
  constructor.
  - specialize (IH (lo + 1)).
    erewrite map_ext; [exact IH|]. intros k. cbn. lia.
  - apply Forall_forall. intros x Hx. apply in_map_iff in Hx as (k & <- & _). lia.
Qed.

Lemma sorted_map_filter {A : Type} (g : A -> Z) (f : A -> bool) (l : list A) :
  StronglySorted Z.lt (map g l) -> StronglySorted Z.lt (map g (List.filter f l)).
Proof.
  induction l as [|a l IH]; intros H; [constructor|].
  cbn [map] in H. inversion H as [|? ? Hs Hall]; subst.
  cbn [List.filter]. destruct (f a); [|apply IH; assumption].
  cbn [map]. constructor; [apply IH; assumption|].
  rewrite Forall_forall in *. intros x Hx.
  apply in_map_iff in Hx as (y & <- & Hy). apply filter_In in Hy as [Hy _].
  apply Hall. apply in_map. assumption.
Qed.

Lemma create_aerojumper_spec {L : Lowercase} (buf : list str)
    (cursor_pos top_line : Z * Z) (n : Z) :
  Plugin.create_aerojumper buf cursor_pos top_line n
  = Ok (mkAerojump [] top_line cursor_pos n []
          (zip_lines buf (range 1 (len buf + 1))) 0 0 false None None).
Proof.
  unfold Plugin.create_aerojumper, Plugin.enumerate.
  rewrite (fold_left_snoc (combine (range 0 (len buf)) buf) []). cbn [app].
  rewrite <- (map_map fst (fun i => i + 1)).
  rewrite map_fst_combine by (rewrite range_length; unfold len; lia).
  rewrite range_shift. apply init_enough.
  unfold len at 2. rewrite range_length. unfold len. lia.
Qed.

(** X11.  The plugin's [__create_aerojumper] never raises: it numbers the
    lines 1, 2, ...  Whatever filter passes and navigation commands follow,
    the engine keeps the texts and the numbers of the buffer lines, the
    original cursor and an empty log, [draw] returns the buffer lines
    whenever it returns, and the filtered lines come by strictly increasing
    line number. *)
Theorem session_keeps_the_buffer {L : Lowercase} (buf : list str)
    (cursor_pos top_line : Z * Z)
    (n : Z) :
  exists e0,
    Plugin.create_aerojumper buf cursor_pos top_line n = Ok e0 /\
    forall e, evolves e0 e ->
      map raw (lines e) = buf /\
      map num (lines e) = range 1 (len buf + 1) /\
      og_cursor_pos e = cursor_pos /\
      get_log e = [] /\
      (forall d, draw e = Ok d -> d_lines d = buf) /\
      forall fl, filtered_lines e = Some fl ->
        StronglySorted Z.lt (map num fl) /\
        Forall (fun l => 1 <= num l <= len buf) fl.
Proof.
  eexists. split; [apply create_aerojumper_spec|]. intros e He.
  set (e0 := mkAerojump [] top_line cursor_pos n []
               (zip_lines buf (range 1 (len buf + 1))) 0 0 false None None) in *.
  assert (Hlen : length buf = length (range 1 (len buf + 1)))
    by (rewrite range_length; unfold len; lia).
  assert (Hr0 : reachable e0).
  { apply (reach_init buf (range 1 (len buf + 1)) cursor_pos top_line n).
    apply init_enough. unfold len at 2. rewrite <- Hlen. unfold len. lia. }
  assert (Hwf0 : wf e0) by (apply zip_lines_wf).
  destruct (evolves_frame e0 e Hwf0 He) as (_ & F1 & _ & F3 & _ & F5 & F6).
  assert (Hraw : map raw (lines e) = buf).
  { rewrite F5. unfold e0, zip_lines. cbn [lines]. rewrite map_map.
    cbn [raw Line.init]. apply map_fst_combine. exact Hlen. }
  assert (Hnum : map num (lines e) = range 1 (len buf + 1)).
  { rewrite F6. unfold e0, zip_lines. cbn [lines]. rewrite map_map.
    cbn [num Line.init]. apply map_snd_combine. exact Hlen. }
  split; [exact Hraw|]. split; [exact Hnum|]. split; [exact F3|].
  split; [exact F1|]. split.
  { intros d Hd. unfold draw in Hd. rewrite draw_lines, Hraw in Hd.
    destruct (highlights e); [|discriminate]. cbn [attr bind] in Hd.
    destruct (get_cursor e); [|discriminate]. cbn [bind] in Hd.
    injection Hd as <-. reflexivity. }
  intros fl Hfl.
  destruct (reachable_consistent e (evolves_reachable e0 e Hr0 He)) as (_ & _ & Hc).
  destruct (Hc fl Hfl) as (-> & _). split.
  - apply sorted_map_filter. rewrite Hnum. apply range_sorted.
  - apply Forall_forall. intros l Hl. apply filter_In in Hl as [Hl _].
    assert (Hin : In (num l) (range 1 (len buf + 1)))
      by (rewrite <- Hnum; apply in_map; assumption).
    apply in_range in Hin. lia.
Qed.

(** ** Running the same pass again *)

Lemma filter_again (pattern : str) (l0 l : AerojumpLine) :
  wf_line l0 -> filtered_from pattern l0 l -> filter pattern l = Ok l.
Proof.
  intros Hwf (l1 & E & Hraw & Hlow & Hnum & Hms & Hss).
  destruct pattern as [|p0 ps].
  - rewrite filter_empty in E. injection E as <-. cbn in Hms.
    rewrite filter_empty. destruct l. cbn in *. subst. reflexivity.
  - assert (Hne : p0 :: ps <> []) by discriminate.
    destruct (filter_spec (p0 :: ps) l0 Hwf Hne) as [ms [E0 _]].
    pose proof (filter_matches_starts _ _ _ Hwf Hne E0) as S0. cbn [matches] in S0.
    rewrite E0 in E. injection E as <-. cbn in Hraw, Hlow, Hnum, Hms, Hss.
    assert (Hwl : wf_line l) by (unfold wf_line in *; congruence).
    destruct (filter_spec (p0 :: ps) l Hwl Hne) as [ms' [E1 _]].
    pose proof (filter_matches_starts _ _ _ Hwl Hne E1) as S1. cbn [matches] in S1.
    assert (Hsc : scanned l = scanned l0)
      by (unfold scanned; rewrite Hraw, Hlow; reflexivity).
    rewrite E1. f_equal. rewrite S1, Hsc, <- S0.
    destruct l. cbn in *. subst. reflexivity.
Qed.

Lemma set_filt_index_same (l : AerojumpLine) (i : Z) :
  filt_index l = Some i -> set_filt_index l i = l.
Proof. intros H. destruct l. cbn in *. subst. reflexivity. Qed.

Lemma filtered_lines_loop_again (pattern : str) :
  forall (suf pre fl0 : list AerojumpLine),
    Forall (fun l => filter pattern l = Ok l) suf ->
    (forall k l, nth_error (List.filter has_matches suf) k = Some l ->
                 filt_index l = Some (len fl0 + Z.of_nat k)) ->
    for_each suf (filtered_lines_step pattern) (pre, fl0, len fl0)
    = Ok (pre ++ suf, fl0 ++ List.filter has_matches suf,
          len (fl0 ++ List.filter has_matches suf)).
Proof.
  induction suf as [|l suf IH]; intros pre fl0 Hall Hidx.
  - cbn. rewrite !app_nil_r. reflexivity.
  - inversion Hall as [|? ? El Hall']; subst.
    cbn [for_each]. unfold filtered_lines_step at 1. rewrite El. cbn [bind].
    cbn [List.filter] in *. destruct (has_matches l) eqn:Hm.
    + rewrite set_filt_index_same
        by (rewrite (Hidx 0%nat l eq_refl); f_equal; lia).
      cbn [bind].
      replace (len fl0 + 1) with (len (fl0 ++ [l])) by (rewrite len_app; reflexivity).
      rewrite IH; [rewrite <- !app_assoc; reflexivity|assumption|].
      intros k l' H. rewrite (Hidx (S k) l' H), len_app. f_equal.
      unfold len. cbn. lia.
    + cbn [bind]. rewrite IH; [rewrite <- !app_assoc; reflexivity|assumption|].
      exact Hidx.
Qed.

Lemma get_filtered_lines_again (pattern : str) (ls0 ls : list AerojumpLine) :
  Forall wf_line ls0 -> Forall2 (filtered_from pattern) ls0 ls ->
  (forall k l, nth_error (List.filter has_matches ls) k = Some l ->
               filt_index l = Some (Z.of_nat k)) ->
  get_filtered_lines pattern ls = Ok (ls, List.filter has_matches ls).
Proof.
  intros Hwf HF Hidx. unfold get_filtered_lines.
  change 0 with (len (@nil AerojumpLine)) at 1.
  rewrite filtered_lines_loop_again; [reflexivity| |exact Hidx].
  clear Hidx. induction HF as [|l0 l ls0 ls H0 HF IH]; [constructor|].
  inversion Hwf; subst. constructor; [eapply filter_again; eassumption|auto].
Qed.

Lemma apply_filter_unfold (pattern : str) (self : Aerojump)
    (ls fl : list AerojumpLine) :
  get_filtered_lines pattern (lines self) = Ok (ls, fl) ->
  apply_filter pattern self
  = if 0 <? len fl then
      cursor_indices <-
        set_cursor_to_best_match
          (mkAerojump (log_str self) (og_top_line self) (og_cursor_pos self)
             (num_lines self) pattern ls 0 0 true (Some fl) None) ;;
      hl <- update_highlights fl (fst cursor_indices) (snd cursor_indices) ;;
      Ok (mkAerojump (log_str self) (og_top_line self) (og_cursor_pos self)
            (num_lines self) pattern ls (fst cursor_indices) (snd cursor_indices)
            true (Some fl) (Some hl))
    else
      Ok (mkAerojump (log_str self) (og_top_line self) (og_cursor_pos self)
            (num_lines self) pattern ls (cursor_line_index self)
            (cursor_match_index self) false (Some fl) (highlights self)).
Proof.
  intros E. unfold apply_filter. cbn [lines set_filter_string]. rewrite E.
  cbn [bind]. unfold_setters. destruct (0 <? len fl); [|reflexivity].
  match goal with
  | |- bind (set_cursor_to_best_match ?a) _ = bind (set_cursor_to_best_match ?b) _ =>
      change (set_cursor_to_best_match a) with (set_cursor_to_best_match b)
  end.
  destruct (set_cursor_to_best_match _) as [ci|]; [|reflexivity].
  cbn [bind]. unfold refresh_highlights. unfold_setters. cbn [attr bind].
  destruct (update_highlights fl (fst ci) (snd ci)); reflexivity.
Qed.

(** X12.  A filter pass is idempotent: run again with the same query on
    the state it produced, it ends normally and leaves that state as it
    is. *)
Theorem apply_filter_idempotent (pattern : str) (self self' : Aerojump) :
  wf self ->
  apply_filter pattern self = Ok self' ->
  apply_filter pattern self' = Ok self'.
Proof.
  intros Hwf E.
  destruct (apply_filter_lines pattern self Hwf)
    as (ls & Eg & HF & _ & _ & _ & _ & Hidx).
  pose proof (get_filtered_lines_again pattern _ ls Hwf HF Hidx) as Eg'.
  rewrite (apply_filter_unfold pattern self ls _ Eg) in E.
  destruct (0 <? len (List.filter has_matches ls)) eqn:Hres.
  - destruct (set_cursor_to_best_match _) as [ci|] eqn:Ec; [|discriminate].
    cbn [bind] in E.
    destruct (update_highlights _ (fst ci) (snd ci)) as [hl|] eqn:Eh; [|discriminate].
    cbn [bind] in E. injection E as <-.
    match goal with
    | |- apply_filter pattern ?x = _ =>
        rewrite (apply_filter_unfold pattern x ls _ Eg')
    end.
    rewrite Hres.
    cbn [log_str og_top_line og_cursor_pos num_lines]. rewrite Ec. cbn [bind].
    rewrite Eh. reflexivity.
  - injection E as <-.
    match goal with
    | |- apply_filter pattern ?x = _ =>
        rewrite (apply_filter_unfold pattern x ls _ Eg')
    end.
    rewrite Hres. reflexivity.
Qed.

Lemma apply_filter_idempotent_witness :
  wf state_abab /\
  apply_filter (s "a") state_abab = Ok state_abab_a /\
  apply_filter (s "a") state_abab_a = Ok state_abab_a.
Proof.
  assert (Hwf : wf state_abab) by concrete_wf.
  assert (E : apply_filter (s "a") state_abab = Ok state_abab_a)
    by (vm_compute; reflexivity).
  split; [exact Hwf|]. split; [exact E|].
  exact (apply_filter_idempotent (s "a") state_abab state_abab_a Hwf E).
Defined.

(** X13.  A filter pass that matches some line forgets what came before:
    on two engines with the same lines, log, original cursor and viewport
    it gives the same state, whatever their cursor indices, highlights,
    filtered lines and filter strings were. *)
Theorem pass_with_results_forgets_the_past (pattern : str) (a b a' : Aerojump) :
  lines a = lines b -> log_str a = log_str b ->
  og_top_line a = og_top_line b -> og_cursor_pos a = og_cursor_pos b ->
  num_lines a = num_lines b ->
  apply_filter pattern a = Ok a' ->
  filtered_lines a' <> Some [] ->
  apply_filter pattern b = Ok a'.
Proof.
  intros Hl Hlog Htop Hcur Hn E Hne.
  destruct (get_filtered_lines pattern (lines a)) as [[ls fl]|e] eqn:Eg.
  - rewrite (apply_filter_unfold pattern a ls fl Eg) in E.
    rewrite Hl in Eg. rewrite (apply_filter_unfold pattern b ls fl Eg).
    rewrite <- Hlog, <- Htop, <- Hcur, <- Hn.
    destruct (0 <? len fl) eqn:Hres; [exact E|].
    exfalso. injection E as <-. apply Hne. cbn. f_equal.
    apply len_nil_iff. apply Z.ltb_ge in Hres. pose proof (len_nonneg fl). lia.
  - unfold apply_filter in E. cbn [lines set_filter_string] in E.
    rewrite Eg in E. discriminate.
Qed.

Lemma pass_with_results_forgets_the_past_witness :
  lines state_abab = lines (set_cursor_line_index state_abab 5) /\
  apply_filter (s "a") state_abab = Ok state_abab_a /\
  filtered_lines state_abab_a <> Some [] /\
  apply_filter (s "a") (set_cursor_line_index state_abab 5) = Ok state_abab_a.
Proof.
  assert (E : apply_filter (s "a") state_abab = Ok state_abab_a)
    by (vm_compute; reflexivity).
  assert (Hne : filtered_lines state_abab_a <> Some [])
    by (vm_compute; discriminate).
  split; [reflexivity|]. split; [exact E|]. split; [exact Hne|].
  exact (pass_with_results_forgets_the_past (s "a") state_abab
           (set_cursor_line_index state_abab 5) state_abab_a
           eq_refl eq_refl eq_refl eq_refl eq_refl E Hne).
Defined.

(** ** Going forth and back *)

(** X14.  [cursor_match_prev] undoes [cursor_match_next]: after the two
    calls the cursor indices are those of before, unless the cursor was on
    the last match of the last of several filtered lines. *)
Theorem match_prev_undoes_match_next (self : Aerojump) (fl : list AerojumpLine)
    (l : AerojumpLine) :
  nav_valid self fl ->
  nth_error fl (Z.to_nat (cursor_line_index self)) = Some l ->
  cursor_match_index self + 1 < len (matches l) \/
  cursor_line_index self + 1 < len fl \/ len fl = 1 ->
  exists s1 s2,
    cursor_match_next self = Ok s1 /\ cursor_match_prev s1 = Ok s2 /\
    cursor_line_index s2 = cursor_line_index self /\
    cursor_match_index s2 = cursor_match_index self.
Proof.
  intros Hv Hl Hcase. pose proof Hv as (Hfl & Hall & l' & Hi & Hl' & Hj).
  rewrite Hl in Hl'. injection Hl' as <-.
  destruct (Z_lt_le_dec (cursor_match_index self + 1) (len (matches l)))
    as [Hin|Hover].
  - destruct (cursor_match_next_step self fl l Hfl (proj1 Hi) Hl (proj1 Hj) Hin)
      as (m & Hm & E1).
    match type of E1 with
    | _ = Ok ?s1 =>
        destruct (cursor_match_prev_step s1 fl l eq_refl (proj1 Hi) Hl)
          as (m2 & _ & E2); [cbn; lia|cbn; lia|]
    end.
    eexists. eexists. split; [exact E1|]. split; [exact E2|]. cbn. split; lia.
  - rewrite (cursor_match_next_overflow self fl l Hfl (proj1 Hi) Hl Hover).
    destruct (cursor_line_down_spec self fl Hfl Hall Hi) as (l1 & m1 & Hl1 & Hm1 & E1).
    match type of E1 with
    | _ = Ok ?s1 =>
        destruct (cursor_match_prev_underflow s1 fl eq_refl Hall)
          as (l2 & m2 & Hl2 & _ & E2); [cbn; lia|cbn; lia|]
    end.
    cbn [cursor_line_index] in Hl2.
    replace (Z.max (Z.min (cursor_line_index self + 1) (len fl - 1) - 1) 0)
      with (cursor_line_index self) in * by lia.
    rewrite Hl in Hl2. injection Hl2 as <-.
    eexists. eexists. split; [exact E1|]. split; [exact E2|]. cbn. split; lia.
Qed.

Lemma nav_valid_state_abab_a : nav_valid state_abab_a [line_abab_a].
Proof.
  split; [vm_compute; reflexivity|]. split; [repeat constructor; discriminate|].
  exists line_abab_a. split; [vm_compute; split; [discriminate|reflexivity]|].
  split; [vm_compute; reflexivity|]. vm_compute. split; [discriminate|reflexivity].
Qed.

Lemma match_prev_undoes_match_next_witness :
  nav_valid state_abab_a [line_abab_a] /\
  nth_error [line_abab_a] (Z.to_nat (cursor_line_index state_abab_a))
  = Some line_abab_a /\
  (cursor_match_index state_abab_a + 1 < len (matches line_abab_a) \/
   cursor_line_index state_abab_a + 1 < len [line_abab_a] \/
   len [line_abab_a] = 1) /\
  exists s1 s2,
    cursor_match_next state_abab_a = Ok s1 /\ cursor_match_prev s1 = Ok s2 /\
    cursor_line_index s2 = cursor_line_index state_abab_a /\
    cursor_match_index s2 = cursor_match_index state_abab_a.
Proof.
  assert (Hl : nth_error [line_abab_a] (Z.to_nat (cursor_line_index state_abab_a))
               = Some line_abab_a) by (vm_compute; reflexivity).
  assert (Hc : cursor_match_index state_abab_a + 1 < len (matches line_abab_a) \/
               cursor_line_index state_abab_a + 1 < len [line_abab_a] \/
               len [line_abab_a] = 1) by (right; right; reflexivity).
  split; [exact nav_valid_state_abab_a|]. split; [exact Hl|]. split; [exact Hc|].
  exact (match_prev_undoes_match_next state_abab_a [line_abab_a] line_abab_a
           nav_valid_state_abab_a Hl Hc).
Defined.

(** X15.  [cursor_match_next] undoes [cursor_match_prev]: after the two
    calls the cursor indices are those of before, unless the cursor was on
    the first match of the first of several filtered lines. *)
Theorem match_next_undoes_match_prev (self : Aerojump) (fl : list AerojumpLine) :
  nav_valid self fl ->
  0 < cursor_match_index self \/ 0 < cursor_line_index self \/ len fl = 1 ->
  exists s1 s2,
    cursor_match_prev self = Ok s1 /\ cursor_match_next s1 = Ok s2 /\
    cursor_line_index s2 = cursor_line_index self /\
    cursor_match_index s2 = cursor_match_index self.
Proof.
  intros Hv Hcase. pose proof Hv as (Hfl & Hall & l & Hi & Hl & Hj).
  destruct (Z_lt_le_dec (cursor_match_index self - 1) 0) as [Hneg|Hpos].
  - destruct (cursor_match_prev_underflow self fl Hfl Hall Hi Hneg)
      as (l1 & m1 & Hl1 & Hm1 & E1).
    match type of E1 with
    | _ = Ok ?s1 =>
        pose proof (cursor_match_next_overflow s1 fl l1 eq_refl) as E2;
        destruct (cursor_line_down_spec s1 fl eq_refl Hall)
          as (l2 & m2 & _ & _ & E3); [cbn; lia|]
    end.
    cbn [cursor_line_index cursor_match_index] in E2.
    rewrite E3 in E2. specialize (E2 ltac:(lia) Hl1 ltac:(lia)).
    eexists. eexists. split; [exact E1|]. split; [exact E2|]. cbn. split; lia.
  - destruct (cursor_match_prev_step self fl l Hfl (proj1 Hi) Hl Hpos (proj2 Hj))
      as (m & Hm & E1).
    match type of E1 with
    | _ = Ok ?s1 =>
        destruct (cursor_match_next_step s1 fl l eq_refl (proj1 Hi) Hl)
          as (m2 & _ & E2); [cbn; lia|cbn; lia|]
    end.
    eexists. eexists. split; [exact E1|]. split; [exact E2|]. cbn. split; lia.
Qed.

Lemma match_next_undoes_match_prev_witness :
  nav_valid state_abab_a [line_abab_a] /\
  (0 < cursor_match_index state_abab_a \/ 0 < cursor_line_index state_abab_a \/
   len [line_abab_a] = 1) /\
  exists s1 s2,
    cursor_match_prev state_abab_a = Ok s1 /\ cursor_match_next s1 = Ok s2 /\
    cursor_line_index s2 = cursor_line_index state_abab_a /\
    cursor_match_index s2 = cursor_match_index state_abab_a.
Proof.
  assert (Hc : 0 < cursor_match_index state_abab_a \/
               0 < cursor_line_index state_abab_a \/ len [line_abab_a] = 1)
    by (right; right; reflexivity).
  split; [exact nav_valid_state_abab_a|]. split; [exact Hc|].
  exact (match_next_undoes_match_prev state_abab_a [line_abab_a]
           nav_valid_state_abab_a Hc).
Defined.

(** ** Verbatim occurrences win the selection *)

Lemma Forall2_in_r {A B : Type} (R : A -> B -> Prop) (l1 : list A) (l2 : list B)
    (y : B) :
  Forall2 R l1 l2 -> In y l2 -> exists x, In x l1 /\ R x y.
Proof.
  induction 1 as [|a b l1 l2 Hab HF IH]; intros Hy; [destruct Hy|].
  destruct Hy as [<-|Hy].
  - exists a. split; [left; reflexivity|assumption].
  - destruct (IH Hy) as (x & Hx & Hr). exists x. split; [right|]; assumption.
Qed.

(** The scores of a line after a pass with a non-empty pattern, and the
    walks they belong to. *)
Lemma filtered_from_scores (pattern : str) (l0 l : AerojumpLine) :
  wf_line l0 -> pattern <> [] -> filtered_from pattern l0 l ->
  matches l = starts (scanned l) pattern 0 /\
  scores l
  = Some (map (fun m => (1 + adjacent_pairs m) # Z.to_pos (len pattern)) (matches l)) /\
  Forall (match_sound (scanned l) pattern) (matches l).
Proof.
  intros Hwf Hne (l1 & E & Hraw & Hlow & _ & Hms & Hss).
  destruct (filter_spec pattern l0 Hwf Hne) as [ms [E0 Hsound]].
  pose proof (filter_matches_starts _ _ _ Hwf Hne E0) as S0. cbn [matches] in S0.
  pose proof (filter_positions_in_raw _ _ _ Hwf E0) as Hb. cbn [matches] in Hb.
  rewrite E0 in E. injection E as <-. cbn in Hraw, Hlow, Hms, Hss.
  assert (Hsc : scanned l = scanned l0)
    by (unfold scanned; rewrite Hraw, Hlow; reflexivity).
  rewrite Hms, Hss, Hsc. split; [assumption|]. split; [reflexivity|].
  rewrite Forall_forall in Hsound, Hb. apply Forall_forall. intros m Hm.
  apply match_sound_scanned; [exact Hwf|exact (Hb m Hm)|exact (Hsound m Hm)].
Qed.

Lemma block_in_starts (text pattern : str) (i : nat) :
  pattern <> [] -> occurs_at pattern text i ->
  In (block (Z.of_nat i) (length pattern)) (starts text pattern 0).
Proof.
  intros Hne Hocc. unfold occurs_at in Hocc.
  destruct pattern as [|p ps] eqn:Hpat; [congruence|]. rewrite <- Hpat in *.
  assert (Hi : nth_error text i = Some p).
  { rewrite <- (Nat.add_0_r i), <- nth_error_skipn.
    destruct (skipn i text) as [|c t]; rewrite Hpat in Hocc.
    - discriminate.
    - cbn in Hocc. injection Hocc as -> _. reflexivity. }
  pose proof (greedy_block pattern (skipn i text) (0 + Z.of_nat i) Hne Hocc) as Hg.
  rewrite Hpat. eapply starts_contains; [exact Hi|]. rewrite <- Hpat. exact Hg.
Qed.

(** X16.  When the query occurs verbatim in the part of the lowercase
    text of some candidate line that [__match_from] reads, its first
    [len(raw)] characters, the initial cursor is put on a verbatim
    occurrence: the selected match has consecutive positions. *)
Theorem verbatim_occurrence_wins (pattern : str) (self : Aerojump) :
  wf self ->
  exists self',
    apply_filter pattern self = Ok self' /\
    forall fl c' i,
      filtered_lines self' = Some fl ->
      In c' (candidates self' fl) ->
      occurs_at pattern (scanned c') i ->
      exists l m,
        nth_error fl (Z.to_nat (cursor_line_index self')) = Some l /\
        nth_error (matches l) (Z.to_nat (cursor_match_index self')) = Some m /\
        consecutive m /\
        occurs_at pattern (scanned l) (Z.to_nat (hd 0 m - 1)).
Proof.
  intros Hwf.
  destruct (apply_filter_cases pattern self Hwf)
    as (ls & HF & _ & _ & Hsc & Hempty & [[Hnil E]|[Hne H]]).
  - eexists. split; [exact E|]. cbn [filtered_lines]. intros fl c' i [= <-] Hc'.
    destruct Hc'.
  - destruct H as (k & c & sc & m & fi & mi & Hk & Hsel & Hfi & Hc & Hb & Hm & E).
    eexists. split; [exact E|].
    cbn [filtered_lines cursor_line_index cursor_match_index].
    intros fl c' i [= <-] Hc' Hocc.
    change (In c' (candidates self (List.filter has_matches ls))) in Hc'.
    assert (Hp : pattern <> []) by (intros ->; apply Hne; apply Hempty; reflexivity).
    assert (Hplen : 0 < len pattern)
      by (destruct pattern; [congruence|unfold len; cbn; lia]).
    assert (Hfrom : forall x, In x (List.filter has_matches ls) ->
              matches x = starts (scanned x) pattern 0 /\
              scores x = Some (map (fun m => (1 + adjacent_pairs m)
                                             # Z.to_pos (len pattern)) (matches x)) /\
              Forall (match_sound (scanned x) pattern) (matches x)).
    { intros x Hx. apply filter_In in Hx as [Hx _].
      destruct (Forall2_in_r _ _ _ x HF Hx) as (x0 & Hx0 & Hr).
      apply (filtered_from_scores pattern x0 x); try assumption.
      unfold wf in Hwf. rewrite Forall_forall in Hwf. auto. }
    (* the candidate with a verbatim occurrence has a match of score 1 *)
    pose proof (candidates_subset self _ c' Hc') as Hc'fl.
    destruct (Hfrom c' Hc'fl) as (Hst' & Hss' & _).
    pose proof (block_in_starts _ _ i Hp Hocc) as Hblk. rewrite <- Hst' in Hblk.
    set (b := block (Z.of_nat i) (length pattern)) in *.
    assert (Hb1 : ((1 + adjacent_pairs b) # Z.to_pos (len pattern) == 1)%Q).
    { destruct (score_bounds b (len pattern)) as (_ & _ & Hiff).
      - unfold b. destruct pattern; [congruence|]. cbn [length]. rewrite block_S.
        discriminate.
      - unfold b, len. rewrite block_length. reflexivity.
      - apply Hiff. apply block_consecutive. }
    assert (Hscored : scored_line c').
    { rewrite Forall_forall in Hsc. auto. }
    destruct (best_match_index_for_spec c' Hscored) as (b' & sc' & ss' & _ & Hbest' & _).
    destruct (In_nth_error _ _ Hc') as [j Hj].
    destruct (Hsel j c' b' sc' ltac:(apply nth_error_Some; congruence) Hj Hbest')
      as [Hle _].
    assert (H1 : (1 <= sc')%Q).
    { destruct Hbest' as (ss & Hss & _ & _ & Hmax & _).
      rewrite Hss' in Hss. injection Hss as <-.
      destruct (In_nth_error _ _
                  (in_map (fun m => (1 + adjacent_pairs m) # Z.to_pos (len pattern))
                          _ _ Hblk)) as [q Hq].
      rewrite <- Hb1. apply (Hmax q _ Hq). }
    (* so the selected match has score 1 *)
    assert (Hcfl : In c (List.filter has_matches ls))
      by (eapply nth_error_In; exact Hc).
    destruct (Hfrom c Hcfl) as (_ & Hss & Hsound).
    assert (Hms : match_sound (scanned c) pattern m).
    { rewrite Forall_forall in Hsound. apply Hsound. eapply nth_error_In. exact Hm. }
    assert (Hsc_m : sc = (1 + adjacent_pairs m) # Z.to_pos (len pattern)).
    { destruct Hb as (ss & Hss0 & _ & Hnth & _).
      assert (Hss1 : ss = map (fun m => (1 + adjacent_pairs m)
                                        # Z.to_pos (len pattern)) (matches c))
        by congruence.
      subst ss. rewrite nth_error_map, Hm in Hnth. cbn [option_map] in Hnth.
      congruence. }
    destruct (score_bounds m (len pattern)) as (_ & Hle1 & Hiff).
    { eapply match_sound_nonempty; eassumption. }
    { destruct Hms as (_ & Hlen & _). exact Hlen. }
    cbv zeta in Hle1, Hiff. rewrite <- Hsc_m in Hle1, Hiff.
    assert (Hcons : consecutive m).
    { apply Hiff. apply Qle_antisym; [assumption|].
      eapply Qle_trans; eassumption. }
    exists c, m. split; [assumption|]. split; [assumption|].
    split; [assumption|]. apply consecutive_occurs; assumption.
Qed.

Lemma verbatim_occurrence_wins_witness :
  wf state_two /\
  exists self',
    apply_filter (s "ab") state_two = Ok self' /\
    forall fl c' i,
      filtered_lines self' = Some fl ->
      In c' (candidates self' fl) ->
      occurs_at (s "ab") (scanned c') i ->
      exists l m,
        nth_error fl (Z.to_nat (cursor_line_index self')) = Some l /\
        nth_error (matches l) (Z.to_nat (cursor_match_index self')) = Some m /\
        consecutive m /\
        occurs_at (s "ab") (scanned l) (Z.to_nat (hd 0 m - 1)).
Proof.
  assert (Hwf : wf state_two) by concrete_wf.
  split; [exact Hwf|].
  exact (verbatim_occurrence_wins (s "ab") state_two Hwf).
Defined.
